(** * Code-Architect-Sync: the structure importer, the tree operations and
      the publisher, embedded from the TypeScript sources.

    Strings are JavaScript strings: sequences of UTF-16 code units, so that
    [length] is JavaScript's [.length] (a box-drawing glyph is one unit).
    Numbers that the code divides ([depth], the retry delay) are exact
    rationals: every value the code computes there is a small multiple of a
    power of two, which a double holds exactly. *)

From Stdlib Require Import ZArith NArith QArith Lia List String Ascii DecimalString.
From stdpp Require Import base option list gmap.

Close Scope Q_scope.
Open Scope N_scope.
Open Scope nat_scope.

(** ** JavaScript strings *)

Definition char := N.
Definition jstring := list char.

(** Code units of an ASCII literal. *)
Definition u (s : string) : jstring :=
  map N_of_ascii (list_ascii_of_string s).

Definition LF : char := 10%N.
Definition SPACE : char := 32%N.
Definition DQUOTE : char := 34%N.
Definition DOT : char := 46%N.
Definition SLASH : char := 47%N.
Definition BACKSLASH : char := 92%N.

(** The four glyphs of the regular expression [/[├└│─]/g]. *)
Definition BOX_TEE : char := 9500%N.      (* U+251C ├ *)
Definition BOX_CORNER : char := 9492%N.   (* U+2514 └ *)
Definition BOX_VERT : char := 9474%N.     (* U+2502 │ *)
Definition BOX_HORIZ : char := 9472%N.    (* U+2500 ─ *)

Definition is_box (c : char) : bool :=
  (c =? BOX_TEE)%N || (c =? BOX_CORNER)%N || (c =? BOX_VERT)%N || (c =? BOX_HORIZ)%N.

(** White space of [\s] and of [String.prototype.trim]: WhiteSpace and
    LineTerminator of ECMAScript. *)
Definition is_space (c : char) : bool :=
  ((9 <=? c) && (c <=? 13))%N || (c =? 32)%N || (c =? 160)%N || (c =? 5760)%N
  || ((8192 <=? c) && (c <=? 8202))%N || (c =? 8232)%N || (c =? 8233)%N
  || (c =? 8239)%N || (c =? 8287)%N || (c =? 12288)%N || (c =? 65279)%N.

Fixpoint drop_while (p : char -> bool) (s : jstring) : jstring :=
  match s with
  | [] => []
  | c :: s' => if p c then drop_while p s' else s
  end.

Definition trimStart (s : jstring) : jstring := drop_while is_space s.
Definition trimEnd (s : jstring) : jstring := rev (drop_while is_space (rev s)).
Definition trim (s : jstring) : jstring := trimEnd (trimStart s).

(** [s.includes(c)] and [s.startsWith(c)] for a one-unit needle. *)
Definition includes (c : char) (s : jstring) : bool := existsb (N.eqb c) s.

Definition startsWith (c : char) (s : jstring) : bool :=
  match s with
  | [] => false
  | d :: _ => (d =? c)%N
  end.

Definition endsWith (c : char) (s : jstring) : bool :=
  match last s with
  | Some d => (d =? c)%N
  | None => false
  end.

(** [s.split(c)]: always at least one piece. *)
Fixpoint split (c : char) (s : jstring) : list jstring :=
  match s with
  | [] => [[]]
  | d :: s' =>
      if (d =? c)%N then [] :: split c s'
      else match split c s' with
           | piece :: rest => (d :: piece) :: rest
           | [] => [[d]]
           end
  end.

Fixpoint is_prefix (p s : jstring) : bool :=
  match p, s with
  | [], _ => true
  | _ :: _, [] => false
  | a :: p', b :: s' => (a =? b)%N && is_prefix p' s'
  end.

(** [s.replace(pat, rep)] with a string pattern: the first occurrence only. *)
Fixpoint replace_first (pat rep s : jstring) : jstring :=
  if is_prefix pat s then rep ++ drop (length pat) s
  else match s with
       | [] => []
       | c :: s' => c :: replace_first pat rep s'
       end.

(** [s.replace(/[├└│─]/g, '')]. *)
Definition strip_box (s : jstring) : jstring :=
  filter (fun c => is_box c = false) s.

(** [s.replace(/\s+/g, ' ')]: [in_run] tells that the previous unit was
    white space, whose run is already replaced. *)
Fixpoint collapse_from (in_run : bool) (s : jstring) : jstring :=
  match s with
  | [] => []
  | c :: s' =>
      if is_space c
      then (if in_run then collapse_from true s' else SPACE :: collapse_from true s')
      else c :: collapse_from false s'
  end.

Definition collapse_ws (s : jstring) : jstring := collapse_from false s.

(** ** The file tree (pages/Index: [FileNode]) *)

Inductive FileType := file | folder.

#[local] Unset Elimination Schemes.

Inductive FileNode := mkFileNode {
  id : jstring;
  name : jstring;
  type : FileType;
  content : option jstring;            (* [content?: string] *)
  children : option (list FileNode);   (* [children?: FileNode[]] *)
  parent : option jstring              (* [parent?: string] *)
}.

#[local] Set Elimination Schemes.

(** ** StructureImporter.parseStructure

    The parser mutates node objects that are reachable both from [result]
    and from [stack]: objects live in a [heap] and are named by reference,
    the index at which they were allocated. *)

Abbreviation ref := nat (only parsing).

Record obj := mkObj {
  o_id : jstring;
  o_name : jstring;
  o_type : FileType;
  o_content : option jstring;
  o_children : option (list ref);
  o_parent : option jstring
}.

Record frame := mkFrame { node : ref; depth : Q }.

(** [stack] has its top at the head: [stack[stack.length - 1]] is [hd]. *)
Record pstate := mkState {
  heap : list obj;
  result : list ref;
  stack : list frame
}.

Definition init_state : pstate := mkState [] [] [].

(** Line 23: the test that skips "the root project name line". *)
Definition is_root_label (line : jstring) : bool :=
  includes SLASH line && negb (startsWith SPACE line)
  && negb (startsWith BOX_TEE line) && negb (startsWith BOX_CORNER line).

(** Lines 28-29. *)
Definition cleanLine (line : jstring) : jstring := collapse_ws (strip_box line).

Definition line_depth (line : jstring) : Q :=
  (Z.of_nat (length line) - Z.of_nat (length (trim (cleanLine line)))) # 4.

(** Lines 31-34. *)
Definition line_name (line : jstring) : jstring :=
  let name := trim (cleanLine line) in
  if endsWith SLASH name then removelast name else name.

(** Lines 38-39. *)
Definition isFolder (line name : jstring) : bool :=
  includes SLASH line || endsWith SLASH name.

Definition fileExtension (name : jstring) : jstring :=
  if includes DOT name then List.last (split DOT name) [] else [].

Definition jeqb (a b : jstring) : bool := bool_decide (a = b).

(** Lines 42-57: the stub body of a new file. *)
Definition default_content (name : jstring) : jstring :=
  let ext := fileExtension name in
  if jeqb ext (u "py") then
    u "# " ++ name ++ [LF] ++ u "# TODO: Implement functionality"
  else if jeqb ext (u "txt") then
    u "# Requirements for " ++ replace_first (u ".txt") [] name ++ [LF]
      ++ u "# Add your dependencies here"
  else if jeqb ext (u "md") then
    u "# " ++ replace_first (u ".md") [] name ++ [LF; LF]
      ++ u "Project description goes here."
  else if jeqb ext (u "json") then
    u "{" ++ [LF] ++ u "  " ++ [DQUOTE] ++ u "// TODO" ++ [DQUOTE] ++ u ": "
      ++ [DQUOTE] ++ u "Add configuration" ++ [DQUOTE] ++ [LF] ++ u "}"
  else if jeqb name (u "Dockerfile") then
    u "FROM python:3.9" ++ [LF; LF] ++ u "# TODO: Add Dockerfile instructions"
  else
    u "# " ++ name ++ [LF] ++ u "# TODO: Add content".

(** Lines 59-65: [newNode], with the id drawn for it. *)
Definition newNode (new_id : jstring) (line : jstring) : obj :=
  let name := line_name line in
  let is_folder := isFolder line name in
  mkObj new_id name
        (if is_folder then folder else file)
        (if is_folder then None else Some (default_content name))
        (if is_folder then Some [] else None)
        None.

(** Lines 68-70: pop while the top frame's depth is [>=] the line's. *)
Fixpoint pop_frames (d : Q) (stack : list frame) : list frame :=
  match stack with
  | [] => []
  | top :: below => if Qle_bool d (depth top) then pop_frames d below else stack
  end.

Definition push_child (n : ref) (o : obj) : obj :=
  mkObj (o_id o) (o_name o) (o_type o) (o_content o)
        (option_map (fun cs => cs ++ [n]) (o_children o)) (o_parent o).

Definition set_parent (p : jstring) (o : obj) : obj :=
  mkObj (o_id o) (o_name o) (o_type o) (o_content o) (o_children o) (Some p).

(** Lines 72-80: attach object [n] under the top frame, or as a root. *)
Definition attach (n : ref) (st : pstate) : pstate :=
  match stack st with
  | [] => mkState (heap st) (result st ++ [n]) (stack st)
  | top :: _ =>
      match heap st !! node top with
      | Some p =>
          match o_children p with
          | Some _ =>
              mkState (alter (set_parent (o_id p)) n
                         (alter (push_child n) (node top) (heap st)))
                      (result st) (stack st)
          | None => st
          end
      | None => st
      end
  end.

(** One turn of the loop of lines 21-85. [gen k] is the id the code draws
    (from the clock and the random generator) for the [k]-th node. *)
Definition process_line (gen : nat -> jstring) (st : pstate) (line : jstring) : pstate :=
  if is_root_label line then st
  else if bool_decide (line_name line = []) then st
  else
    let d := line_depth line in
    let n := length (heap st) in
    let o := newNode (gen n) line in
    let st1 := mkState (heap st ++ [o]) (result st) (pop_frames d (stack st)) in
    let st2 := attach n st1 in
    if isFolder line (line_name line)
    then mkState (heap st2) (result st2) (mkFrame n d :: stack st2)
    else st2.

(** Line 17: [text.split('\n').filter(line => line.trim())]. *)
Definition input_lines (text : jstring) : list jstring :=
  List.filter (fun line => negb (bool_decide (trim line = []))) (split LF text).

Definition run_lines (gen : nat -> jstring) (lines : list jstring) (st : pstate) : pstate :=
  fold_left (process_line gen) lines st.

Definition final_state (gen : nat -> jstring) (text : jstring) : pstate :=
  run_lines gen (input_lines text) init_state.

(** The tree value of an object, given the trees of its children. *)
Definition tree_of (o : obj) (ch : option (list FileNode)) : FileNode :=
  mkFileNode (o_id o) (o_name o) (o_type o) (o_content o) ch (o_parent o).

(** Reading the object graph below a reference as a tree value. *)
Fixpoint reify (fuel : nat) (h : list obj) (r : ref) : option FileNode :=
  match fuel with
  | 0 => None
  | S k =>
      match h !! r with
      | None => None
      | Some o =>
          match o_children o with
          | None => Some (tree_of o None)
          | Some rs =>
              match mapM (reify k h) rs with
              | Some ts => Some (tree_of o (Some ts))
              | None => None
              end
          end
      end
  end.

Definition reify_all (h : list obj) (rs : list ref) : option (list FileNode) :=
  mapM (reify (length h) h) rs.

(** The value [parseStructure] returns: the trees below [result], read
    with fuel for every object of the heap. [None] stands for a graph that
    does not read as a forest; the parser never builds one, as the
    totality theorem below shows. *)
Definition parseStructure (gen : nat -> jstring) (text : jstring) : option (list FileNode) :=
  let st := final_state gen text in
  reify_all (heap st) (result st).


(** ** ExportPanel: flattening the tree *)

(** [basePath ? `${basePath}/${name}` : name]: the empty string is falsy. *)
Definition fullPath (basePath nm : jstring) : jstring :=
  match basePath with
  | [] => nm
  | _ :: _ => basePath ++ [SLASH] ++ nm
  end.

(** [node.content || `// ${node.name}\n// Auto-generated file`]. *)
Definition content_or_stub (n : FileNode) : jstring :=
  match content n with
  | Some (c :: s) => c :: s
  | _ => u "// " ++ name n ++ [LF] ++ u "// Auto-generated file"
  end.

Definition gitkeep (path : jstring) : jstring := path ++ u "/.gitkeep".

(** [getFilesForHFUpload] on one node of the [forEach], then on the list.
    An entry is a pair (path, content). *)
Fixpoint hf_files_of_node (basePath : jstring) (n : FileNode) : list (jstring * jstring) :=
  let path := fullPath basePath (name n) in
  match type n with
  | file => [(path, content_or_stub n)]
  | folder =>
      match children n with
      | Some (c :: cs) => flat_map (hf_files_of_node path) (c :: cs)
      | _ => [(gitkeep path, [])]
      end
  end.

Definition getFilesForHFUpload (nodes : list FileNode) (basePath : jstring)
  : list (jstring * jstring) :=
  flat_map (hf_files_of_node basePath) nodes.

(** [record[key] = value] on a plain object, the own properties of which
    are a finite map: the key [__proto__] runs the setter inherited from
    [Object.prototype], which changes the prototype or does nothing and
    makes no own property; any other key becomes an own property. *)
Definition assign_key (key value : jstring) (record : gmap jstring jstring)
  : gmap jstring jstring :=
  if bool_decide (key = u "__proto__") then record else <[key := value]> record.

(** [convertFileTreeToGitHubFiles]: the [Record] it fills is a finite map
    from path to content, the own properties that [Object.entries] lists.
    [Object.assign(result, childFiles)] sets each own property of
    [childFiles], none of which is [__proto__], and lets the child entries
    win. *)
Fixpoint github_files_of_node (basePath : jstring) (n : FileNode)
    (result : gmap jstring jstring) : gmap jstring jstring :=
  let path := fullPath basePath (name n) in
  match type n with
  | file => assign_key path (content_or_stub n) result
  | folder =>
      match children n with
      | Some cs =>
          let childFiles :=
            fold_left (fun acc c => github_files_of_node path c acc) cs ∅ in
          let result' := childFiles ∪ result in
          match cs with
          | [] => assign_key (gitkeep path) [] result'
          | _ :: _ => result'
          end
      | None => result
      end
  end.

Definition convertFileTreeToGitHubFiles (files : list FileNode) (basePath : jstring)
  : gmap jstring jstring :=
  fold_left (fun acc f => github_files_of_node basePath f acc) files ∅.

(** The entries of a list that become own properties when they are
    assigned to a record one after the other. *)
Definition own_entries (files : list (jstring * jstring)) : list (jstring * jstring) :=
  List.filter (fun e => negb (jeqb (fst e) (u "__proto__"))) files.

(** ** FileExplorer.deleteItem *)

(** [nodes.filter(node => node.id !== itemId).map(node => ({...node,
    children: node.children ? filterNodes(node.children) : undefined}))],
    the filter and the map done in one pass over the array. *)
Fixpoint rebuild (itemId : jstring) (n : FileNode) : FileNode :=
  mkFileNode (id n) (name n) (type n) (content n)
    (match children n with
     | Some cs =>
         Some ((fix filterNodes (nodes : list FileNode) : list FileNode :=
                  match nodes with
                  | [] => []
                  | c :: rest =>
                      if bool_decide (id c = itemId) then filterNodes rest
                      else rebuild itemId c :: filterNodes rest
                  end) cs)
     | None => None
     end)
    (parent n).

Fixpoint filterNodes (itemId : jstring) (nodes : list FileNode) : list FileNode :=
  match nodes with
  | [] => []
  | c :: rest =>
      if bool_decide (id c = itemId) then filterNodes itemId rest
      else rebuild itemId c :: filterNodes itemId rest
  end.

(** The two pieces of component state that [deleteItem] writes. *)
Record explorer := mkExplorer {
  fileTree : list FileNode;
  selectedFile : option FileNode
}.

Definition deleteItem (itemId : jstring) (st : explorer) : explorer :=
  mkExplorer
    (filterNodes itemId (fileTree st))
    (match selectedFile st with
     | Some f => if bool_decide (id f = itemId) then None else Some f
     | None => None
     end).

(** Every id in a forest, at every depth. *)
Fixpoint ids_of (n : FileNode) : list jstring :=
  id n :: match children n with
          | Some cs => flat_map ids_of cs
          | None => []
          end.

Definition forest_ids (f : list FileNode) : list jstring := flat_map ids_of f.

(** ** ExportPanel.createHuggingFaceSpace: the retry loop of uploadWithRetry

    The function itself, which encodes the path and the content of the
    file before it makes a request, comes after the encoders below. *)

(** What the loop reads of a [fetch] response: the status, and the [error]
    member of its JSON body when the body parses and the member is truthy
    ([None] as well when [res.json()] throws). *)
Record response := mkResponse {
  status : Z;
  body_error : option jstring
}.

(** [res.ok]: a status in 200..299. *)
Definition ok (res : response) : bool :=
  ((200 <=? status res) && (status res <=? 299))%Z.

Inductive event :=
  | Fetch (t : nat)          (* the PUT of attempt [t] *)
  | Sleep (ms : Q).          (* [await sleep(delay)] *)

Inductive outcome :=
  | Returned                 (* [if (res.ok) return] *)
  | Threw (message : jstring)  (* [throw new Error(message)] *)
  | TypeError.               (* [lastErr] undefined: no attempt was made *)

Definition max_delay : Q := 5000 # 1.
Definition first_delay : Q := 2000 # 1.
Definition default_tries : nat := 10.

(** [Math.min(delay * 1.25, 5000)]. *)
Definition next_delay (delay : Q) : Q :=
  let d := Qred (delay * (5 # 4)) in
  if Qle_bool d max_delay then d else max_delay.

(** The [for] loop, [left] = [tries - t] turns before [t < tries] fails.
    It ends by [return] ([None]) or by leaving the loop with [lastErr]. *)
Fixpoint retry_loop (remote : nat -> response) (tries left t : nat) (delay : Q)
    (lastErr : option response) : list event * option (option response) :=
  match left with
  | 0 => ([], Some lastErr)
  | S left' =>
      let res := remote t in
      if ok res then ([Fetch t], None)
      else if ((status res =? 404)%Z && (t <? tries - 1)) then
        let '(evs, out) :=
          retry_loop remote tries left' (S t) (next_delay delay) (Some res) in
        (Fetch t :: Sleep delay :: evs, out)
      else ([Fetch t], Some (Some res))
  end.

(** [`${n}`] for a status code. *)
Definition decimal (z : Z) : jstring :=
  u (NilZero.string_of_int (Z.to_int z)).

Definition failure_message (path : jstring) (st : Z) : jstring :=
  u "Failed to upload: " ++ path ++ u ". Status " ++ decimal st ++ u ". "
  ++ u "If this is your FIRST upload to a new Space, it can take up to a minute for provisioning. "
  ++ u "If this keeps failing, wait and try again.".

(** Lines 373-381, once the loop is left: the function has returned, or
    it throws for [lastErr]. *)
Definition loop_outcome (path : jstring) (out : option (option response)) : outcome :=
  match out with
  | None => Returned
  | Some None => TypeError
  | Some (Some lastErr) =>
      Threw (match body_error lastErr with
             | Some e => e
             | None => failure_message path (status lastErr)
             end)
  end.

Definition fetches (evs : list event) : list nat :=
  omap (fun e => match e with Fetch t => Some t | Sleep _ => None end) evs.

Definition sleeps (evs : list event) : list Q :=
  omap (fun e => match e with Sleep d => Some d | Fetch _ => None end) evs.

(** [s.includes(needle)] for a string needle. *)
Fixpoint contains (needle s : jstring) : bool :=
  is_prefix needle s ||
  match s with
  | [] => false
  | _ :: s' => contains needle s'
  end.

(** ** The JSON document of the forest

    [downloadAsJson] writes [JSON.stringify(fileTree, null, 2)]. A node made
    by the parser has its keys in the order id, name, type, content,
    children, and parent once it is set; a member whose value is
    [undefined] is left out of the document. *)

#[local] Unset Elimination Schemes.

Inductive json :=
  | JNull
  | JBool (b : bool)
  | JString (s : jstring)
  | JArray (elements : list json)
  | JObject (members : list (jstring * json)).

#[local] Set Elimination Schemes.

Definition type_name (t : FileType) : jstring :=
  match t with
  | file => u "file"
  | folder => u "folder"
  end.

Definition optional_member (key : jstring) (v : option json) : list (jstring * json) :=
  match v with
  | Some j => [(key, j)]
  | None => []
  end.

(** The members [JSON.stringify] finds on a node. *)
Fixpoint to_json (n : FileNode) : json :=
  JObject
    ([(u "id", JString (id n)); (u "name", JString (name n));
      (u "type", JString (type_name (type n)))]
     ++ optional_member (u "content") (option_map JString (content n))
     ++ optional_member (u "children")
          (match children n with
           | Some cs => Some (JArray (map to_json cs))
           | None => None
           end)
     ++ optional_member (u "parent") (option_map JString (parent n))).

Definition forest_to_json (f : list FileNode) : json := JArray (map to_json f).

(** *** JSON.stringify: QuoteJSONString *)

Definition is_lead (c : char) : bool := ((55296 <=? c) && (c <=? 56319))%N.
Definition is_trail (c : char) : bool := ((56320 <=? c) && (c <=? 57343))%N.

Definition hex_digit (n : N) : char :=
  if (n <? 10)%N then (48 + n)%N else (87 + n)%N.

(** [\uXXXX], in lower case. *)
Definition unicode_escape (c : char) : jstring :=
  [BACKSLASH; 117%N;
   hex_digit (c / 4096); hex_digit ((c / 256) mod 16);
   hex_digit ((c / 16) mod 16); hex_digit (c mod 16)]%N.

(** A unit that is not half of a surrogate pair. *)
Definition quote_unit (c : char) : jstring :=
  if (c =? 8)%N then [BACKSLASH; 98%N]
  else if (c =? 9)%N then [BACKSLASH; 116%N]
  else if (c =? 10)%N then [BACKSLASH; 110%N]
  else if (c =? 12)%N then [BACKSLASH; 102%N]
  else if (c =? 13)%N then [BACKSLASH; 114%N]
  else if (c =? DQUOTE)%N then [BACKSLASH; DQUOTE]
  else if (c =? BACKSLASH)%N then [BACKSLASH; BACKSLASH]
  else if (c <? 32)%N || is_lead c || is_trail c then unicode_escape c
  else [c].

Fixpoint quote_body (s : jstring) : jstring :=
  match s with
  | [] => []
  | c :: s1 =>
      if is_lead c then
        match s1 with
        | d :: s2 => if is_trail d then c :: d :: quote_body s2
                     else quote_unit c ++ quote_body s1
        | [] => quote_unit c
        end
      else quote_unit c ++ quote_body s1
  end.

Definition quote (s : jstring) : jstring := [DQUOTE] ++ quote_body s ++ [DQUOTE].

(** *** JSON.stringify: SerializeJSONArray and SerializeJSONObject with the
    gap of two spaces *)

Definition indent (level : nat) : jstring := replicate (2 * level) SPACE.

Definition LBRACKET : char := 91%N.
Definition RBRACKET : char := 93%N.
Definition LBRACE : char := 123%N.
Definition RBRACE : char := 125%N.
Definition COMMA : char := 44%N.
Definition COLON : char := 58%N.

(** One more element or member: the separator [,\n], the indentation and
    the text. *)
Definition next_item (level : nat) (text : jstring) : jstring :=
  [COMMA; LF] ++ indent level ++ text.

Definition member_text (key value_text : jstring) : jstring :=
  quote key ++ [COLON; SPACE] ++ value_text.

Fixpoint print (level : nat) (v : json) : jstring :=
  match v with
  | JNull => u "null"
  | JBool true => u "true"
  | JBool false => u "false"
  | JString s => quote s
  | JArray [] => u "[]"
  | JArray (e :: es) =>
      [LBRACKET; LF] ++ indent (S level) ++ print (S level) e
      ++ flat_map (fun e' => next_item (S level) (print (S level) e')) es
      ++ [LF] ++ indent level ++ [RBRACKET]
  | JObject [] => u "{}"
  | JObject (m :: ms) =>
      [LBRACE; LF] ++ indent (S level)
      ++ member_text (fst m) (print (S level) (snd m))
      ++ flat_map (fun m' => next_item (S level)
                               (member_text (fst m') (print (S level) (snd m')))) ms
      ++ [LF] ++ indent level ++ [RBRACE]
  end.

(** [JSON.stringify(fileTree, null, 2)]. *)
Definition JSON_stringify (f : list FileNode) : jstring := print 0 (forest_to_json f).

(** *** Reading the document back *)

(** Modelled from the spec: the repository has no import of the exported
    document; "parsed back" is [JSON.parse] followed by reading the value
    as [FileNode[]]. The reader is ECMAScript's JSON grammar for the values
    such a document holds: strings with every escape, arrays, objects and
    the three literals, with JSON white space between tokens; a number
    token is refused. *)
Definition is_json_ws (c : char) : bool :=
  (c =? 9)%N || (c =? 10)%N || (c =? 13)%N || (c =? 32)%N.

Fixpoint skip_ws (s : jstring) : jstring :=
  match s with
  | [] => []
  | c :: s' => if is_json_ws c then skip_ws s' else s
  end.

Definition hex_value (c : char) : option N :=
  if ((48 <=? c) && (c <=? 57))%N then Some (c - 48)%N
  else if ((97 <=? c) && (c <=? 102))%N then Some (c - 87)%N
  else if ((65 <=? c) && (c <=? 70))%N then Some (c - 55)%N
  else None.

Definition hex4 (a b c d : char) : option char :=
  match hex_value a, hex_value b, hex_value c, hex_value d with
  | Some x, Some y, Some z, Some w => Some (((x * 16 + y) * 16 + z) * 16 + w)%N
  | _, _, _, _ => None
  end.

(** The unit that [\e] stands for. *)
Definition unescape (e : char) : option char :=
  if (e =? DQUOTE)%N then Some DQUOTE
  else if (e =? BACKSLASH)%N then Some BACKSLASH
  else if (e =? SLASH)%N then Some SLASH
  else if (e =? 98)%N then Some 8%N
  else if (e =? 102)%N then Some 12%N
  else if (e =? 110)%N then Some 10%N
  else if (e =? 114)%N then Some 13%N
  else if (e =? 116)%N then Some 9%N
  else None.

Definition cons_result (c : char) (r : option (jstring * jstring))
  : option (jstring * jstring) :=
  match r with
  | Some (str, rest) => Some (c :: str, rest)
  | None => None
  end.

(** Modelled from the spec: the units of a JSON string after its opening
    quote, up to the closing one. *)
Fixpoint read_string (s : jstring) : option (jstring * jstring) :=
  match s with
  | [] => None
  | c :: s1 =>
      if (c =? DQUOTE)%N then Some ([], s1)
      else if (c =? BACKSLASH)%N then
        match s1 with
        | [] => None
        | e :: s2 =>
            if (e =? 117)%N then
              match s2 with
              | h1 :: h2 :: h3 :: h4 :: s6 =>
                  match hex4 h1 h2 h3 h4 with
                  | Some x => cons_result x (read_string s6)
                  | None => None
                  end
              | _ => None
              end
            else
              match unescape e with
              | Some x => cons_result x (read_string s2)
              | None => None
              end
        end
      else if (c <? 32)%N then None
      else cons_result c (read_string s1)
  end.

Definition read_literal (s : jstring) : option (json * jstring) :=
  if is_prefix (u "null") s then Some (JNull, drop 4 s)
  else if is_prefix (u "true") s then Some (JBool true, drop 4 s)
  else if is_prefix (u "false") s then Some (JBool false, drop 5 s)
  else None.

Fixpoint read_value (fuel : nat) (s : jstring) : option (json * jstring) :=
  match fuel with
  | 0 => None
  | S k =>
      match skip_ws s with
      | [] => None
      | c :: s1 =>
          if (c =? DQUOTE)%N then
            match read_string s1 with
            | Some (str, s2) => Some (JString str, s2)
            | None => None
            end
          else if (c =? LBRACKET)%N then
            match skip_ws s1 with
            | [] => None
            | d :: s2 =>
                if (d =? RBRACKET)%N then Some (JArray [], s2)
                else match read_elements k s1 with
                     | Some (es, s3) => Some (JArray es, s3)
                     | None => None
                     end
            end
          else if (c =? LBRACE)%N then
            match skip_ws s1 with
            | [] => None
            | d :: s2 =>
                if (d =? RBRACE)%N then Some (JObject [], s2)
                else match read_members k s1 with
                     | Some (ms, s3) => Some (JObject ms, s3)
                     | None => None
                     end
            end
          else read_literal (c :: s1)
      end
  end
with read_elements (fuel : nat) (s : jstring) : option (list json * jstring) :=
  match fuel with
  | 0 => None
  | S k =>
      match read_value k s with
      | None => None
      | Some (v, s1) =>
          match skip_ws s1 with
          | [] => None
          | c :: s2 =>
              if (c =? COMMA)%N then
                match read_elements k s2 with
                | Some (vs, s3) => Some (v :: vs, s3)
                | None => None
                end
              else if (c =? RBRACKET)%N then Some ([v], s2)
              else None
          end
      end
  end
with read_members (fuel : nat) (s : jstring) : option (list (jstring * json) * jstring) :=
  match fuel with
  | 0 => None
  | S k =>
      match skip_ws s with
      | [] => None
      | q :: s1 =>
          if (q =? DQUOTE)%N then
            match read_string s1 with
            | None => None
            | Some (key, s2) =>
                match skip_ws s2 with
                | [] => None
                | c :: s3 =>
                    if (c =? COLON)%N then
                      match read_value k s3 with
                      | None => None
                      | Some (v, s4) =>
                          match skip_ws s4 with
                          | [] => None
                          | e :: s5 =>
                              if (e =? COMMA)%N then
                                match read_members k s5 with
                                | Some (ms, s6) => Some ((key, v) :: ms, s6)
                                | None => None
                                end
                              else if (e =? RBRACE)%N then Some ([(key, v)], s5)
                              else None
                          end
                      end
                    else None
                end
            end
          else None
      end
  end.

(** Modelled from the spec: [JSON.parse(text)], which reads one value and
    then only white space. *)
Definition JSON_parse (text : jstring) : option json :=
  match read_value (S (length text)) text with
  | Some (v, rest) => match skip_ws rest with [] => Some v | _ :: _ => None end
  | None => None
  end.

(** The member of an object that a property read finds: the last one of
    that name. *)
Fixpoint member (key : jstring) (ms : list (jstring * json)) : option json :=
  match ms with
  | [] => None
  | (k, v) :: ms' =>
      match member key ms' with
      | Some w => Some w
      | None => if jeqb k key then Some v else None
      end
  end.

Definition as_string (v : option json) : option jstring :=
  match v with
  | Some (JString s) => Some s
  | _ => None
  end.

(** An optional string member: absent, or a string. *)
Definition as_optional_string (v : option json) : option (option jstring) :=
  match v with
  | None => Some None
  | Some (JString s) => Some (Some s)
  | Some _ => None
  end.

Definition as_type (v : option json) : option FileType :=
  match as_string v with
  | Some s => if jeqb s (u "file") then Some file
              else if jeqb s (u "folder") then Some folder
              else None
  | None => None
  end.

(** Modelled from the spec: reading a parsed value as a [FileNode]. *)
Fixpoint node_of_json (v : json) : option FileNode :=
  match v with
  | JObject ms =>
      match as_string (member (u "id") ms), as_string (member (u "name") ms),
            as_type (member (u "type") ms),
            as_optional_string (member (u "content") ms),
            (fix kids (ms : list (jstring * json)) : option (option (option (list FileNode))) :=
               match ms with
               | [] => None
               | (k, w) :: ms' =>
                   match kids ms' with
                   | Some r => Some r
                   | None =>
                       if jeqb k (u "children") then
                         Some match w with
                              | JArray es => option_map Some (mapM node_of_json es)
                              | _ => None
                              end
                       else None
                   end
               end) ms,
            as_optional_string (member (u "parent") ms) with
      | Some i, Some n, Some t, Some c, None, Some p =>
          Some (mkFileNode i n t c None p)
      | Some i, Some n, Some t, Some c, Some (Some ch), Some p =>
          Some (mkFileNode i n t c ch p)
      | _, _, _, _, _, _ => None
      end
  | _ => None
  end.

Definition forest_of_json (v : json) : option (list FileNode) :=
  match v with
  | JArray es => mapM node_of_json es
  | _ => None
  end.

(** Modelled from the spec: the exported document parsed back into a
    forest. *)
Definition import_forest (text : jstring) : option (list FileNode) :=
  match JSON_parse text with
  | Some v => forest_of_json v
  | None => None
  end.

(** * Induction principles

    ** Trees, the children of a node included *)

Definition child_list (ch : option (list FileNode)) : list FileNode :=
  match ch with
  | Some cs => cs
  | None => []
  end.

Section FileNode_induction.
Variable P : FileNode -> Prop.
Hypothesis step :
    forall i n t c ch p,
      Forall P (child_list ch) -> P (mkFileNode i n t c ch p).

Fixpoint FileNode_ind (n : FileNode) : P n :=
    match n with
    | mkFileNode i nm t c ch p =>
        step i nm t c ch p
          (match ch as ch0 return Forall P (child_list ch0) with
           | Some l =>
               (fix all (l : list FileNode) : Forall P l :=
                  match l with
                  | [] => @List.Forall_nil _ P
                  | c :: l' => @List.Forall_cons _ P c l' (FileNode_ind c) (all l')
                  end) l
           | None => @List.Forall_nil _ P
           end)
    end.
End FileNode_induction.

(** ** JSON values, elements and members included *)

Section json_induction.
Variable P : json -> Prop.
Hypothesis Pnull : P JNull.
Hypothesis Pbool : forall b, P (JBool b).
Hypothesis Pstring : forall s, P (JString s).
Hypothesis Parray : forall es, Forall P es -> P (JArray es).
Hypothesis Pobject : forall ms, Forall (fun m => P (snd m)) ms -> P (JObject ms).

Fixpoint json_ind (v : json) : P v :=
    match v with
    | JNull => Pnull
    | JBool b => Pbool b
    | JString s => Pstring s
    | JArray es =>
        Parray es
          ((fix all (l : list json) : Forall P l :=
              match l with
              | [] => @List.Forall_nil _ P
              | e :: l' => @List.Forall_cons _ P e l' (json_ind e) (all l')
              end) es)
    | JObject ms =>
        Pobject ms
          ((fix all (l : list (jstring * json)) : Forall (fun m => P (snd m)) l :=
              match l with
              | [] => @List.Forall_nil _ (fun m => P (snd m))
              | m :: l' =>
                  @List.Forall_cons _ (fun m => P (snd m)) m l'
                    (json_ind (snd m)) (all l')
              end) ms)
    end.
End json_induction.

(** * Notions of the statements

    ** The specification's wording, for comparison with the code *)

(** "a line containing [/], with no leading space and no box-drawing
    prefix": any of the four glyphs counts as a prefix. *)
Definition spec_root_label (line : jstring) : bool :=
  includes SLASH line && negb (startsWith SPACE line)
  && negb (match line with c :: _ => is_box c | [] => false end).

(** "[(original_length - trimmed_length) / 4] (integer division)". *)
Definition spec_depth (line : jstring) : Z :=
  (Z.of_nat (length line) - Z.of_nat (length (trim (cleanLine line)))) / 4.

(** The frame depths grow strictly from the bottom of the stack to its top
    (the head of the list). *)
Fixpoint stack_increasing (s : list frame) : Prop :=
  match s with
  | [] => True
  | top :: below =>
      Forall (fun f => (depth f < depth top)%Q) below /\ stack_increasing below
  end.

(** ** The parser and the retry loop *)


(** The delays of [k] successive sleeps, from [delay] on. *)
Fixpoint backoff (delay : Q) (k : nat) : list Q :=
  match k with
  | 0 => []
  | S k' => delay :: backoff (next_delay delay) k'
  end.

(** What a run with [retries] retried attempts does, from attempt [t]. *)
Fixpoint retry_trace (t : nat) (delay : Q) (retries : nat) : list event :=
  match retries with
  | 0 => [Fetch t]
  | S r => Fetch t :: Sleep delay :: retry_trace (S t) (next_delay delay) r
  end.

Definition nondecreasing (l : list Q) : Prop :=
  forall i a b, l !! i = Some a -> l !! S i = Some b -> (a <= b)%Q.

Definition thrown_message (path : jstring) (res : response) : jstring :=
  match body_error res with
  | Some e => e
  | None => failure_message path (status res)
  end.

(** ** The object graph and the forest it stands for *)

(** An object is allocated before its children. *)
Definition heap_ordered (h : list obj) : Prop :=
  forall r o cs, h !! r = Some o -> o_children o = Some cs ->
                 Forall (fun c => r < c < length h) cs.

(** The graph below [r] reads as the tree [t]. *)
Definition closed (h : list obj) (r : ref) (t : FileNode) : Prop :=
  exists k, reify k h r = Some t.

(** [spine h sp rs ts]: the references [rs] read as the trees [ts], and the
    open folders [sp] (the stack, bottom first) are the last elements, level
    by level; what stands left of an open folder was allocated before it. *)
Fixpoint spine (h : list obj) (sp : list ref) (rs : list ref) (ts : list FileNode) : Prop :=
  match sp with
  | [] => Forall2 (closed h) rs ts
  | r :: sp' =>
      exists rs0 ts0 o cs tcs,
        rs = rs0 ++ [r] /\ ts = ts0 ++ [tree_of o (Some tcs)]
        /\ Forall2 (closed (take r h)) rs0 ts0
        /\ h !! r = Some o /\ o_children o = Some cs
        /\ Forall (fun x => r < x) sp'
        /\ spine h sp' cs tcs
  end.

(** The children a node is created with (lines 64). *)
Definition born (is_folder : bool) : option (list FileNode) :=
  if is_folder then Some [] else None.

(** What a line decides of its node: id, name, kind and content. *)
Definition label : Type := jstring * jstring * FileType * option jstring.
Definition label_of (t : FileNode) : label := (id t, name t, type t, content t).
Definition olabel (o : obj) : label := (o_id o, o_name o, o_type o, o_content o).

Fixpoint preorder (t : FileNode) : list FileNode :=
  t :: match children t with
       | Some cs => flat_map preorder cs
       | None => []
       end.

Definition forest_nodes (f : list FileNode) : list FileNode := flat_map preorder f.
Definition forest_labels (f : list FileNode) : list label := map label_of (forest_nodes f).

(** The lines that get a node: neither skipped at line 23 nor at line 36. *)
Definition contributes (line : jstring) : bool :=
  negb (is_root_label line) && negb (bool_decide (line_name line = [])).

Definition node_lines (text : jstring) : list jstring :=
  List.filter contributes (input_lines text).

Definition invariant (st : pstate) (forest : list FileNode) : Prop :=
  heap_ordered (heap st)
  /\ spine (heap st) (rev (map node (stack st))) (result st) forest
  /\ forest_labels forest = map olabel (heap st).

(** Line 82-84: the frame pushed for a folder. *)
Definition frames_for (is_folder : bool) (n : ref) (d : Q) : list frame :=
  if is_folder then [mkFrame n d] else [].

(** [holds h p c]: in the heap [h] the object [p] has [c] in its
    [children] array. *)
Definition holds (h : list obj) (p c : ref) : Prop :=
  exists o cs, h !! p = Some o /\ o_children o = Some cs /\ c ∈ cs.

(** [below h r c]: [c] is reached from [r] through one or more [children]
    arrays, so that the node of [c] is a descendant of the node of [r]. *)
Inductive below (h : list obj) (r : ref) : ref -> Prop :=
  | below_child c : holds h r c -> below h r c
  | below_step p c : below h r p -> holds h p c -> below h r c.

(** The same-depth rule, once a folder line and the deeper line after it
    are read: the folder [r2] has the node [r2 + 1] of the deeper line for
    first child, no other object holds that node, and it is no root. *)
Definition attached (r2 : ref) (st : pstate) : Prop :=
  S r2 < length (heap st)
  /\ (exists o2 rest, heap st !! r2 = Some o2 /\ o_children o2 = Some (S r2 :: rest))
  /\ (forall p, holds (heap st) p (S r2) -> p = r2)
  /\ S r2 ∉ result st.

(** Every object is a root or in the [children] of another. *)
Definition all_attached (st : pstate) : Prop :=
  forall r, r < length (heap st) -> r ∈ result st \/ exists p, holds (heap st) p r.

(** ** Reading a value back from its text *)

(** The text after the first element of an array, and after the first
    member of an object. *)
Definition more_elements (level : nat) (es : list json) : jstring :=
  flat_map (fun e' => next_item level (print level e')) es.

Definition more_members (level : nat) (ms : list (jstring * json)) : jstring :=
  flat_map (fun m' => next_item level (member_text (fst m') (print level (snd m')))) ms.

(** What the reader is to do with the text of a value, at any level and
    before any rest, given fuel for its length. *)
Definition reads_back (v : json) : Prop :=
  forall level rest fuel,
    length (print level v) <= fuel ->
    read_value fuel (print level v ++ rest) = Some (v, rest).

(** * Sample inputs *)

Definition branch (glyph : char) : jstring := [glyph; BOX_HORIZ; BOX_HORIZ; SPACE].

(** The listing of the depth-inference example: [app/], [├── main.py],
    [└── sub/], [    └── deep.py]. *)
Definition listing : jstring :=
  u "app/" ++ [LF]
  ++ branch BOX_TEE ++ u "main.py" ++ [LF]
  ++ branch BOX_CORNER ++ u "sub/" ++ [LF]
  ++ u "    " ++ branch BOX_CORNER ++ u "deep.py".

(** A nested folder line as [tree] prints it: [│   └── sub/]. *)
Definition nested_folder_line : jstring :=
  [BOX_VERT] ++ u "   " ++ branch BOX_CORNER ++ u "sub/".

(** A listing with that line: [├── app/], [│   └── sub/],
    [│       └── x.py]. *)
Definition nested_listing : jstring :=
  branch BOX_TEE ++ u "app/" ++ [LF]
  ++ nested_folder_line ++ [LF]
  ++ [BOX_VERT] ++ u "       " ++ branch BOX_CORNER ++ u "x.py".

Definition sample_gen (k : nat) : jstring := u "node-" ++ decimal (Z.of_nat k).

Definition names_of (f : list FileNode) : list jstring :=
  flat_map (fix names (n : FileNode) : list jstring :=
              name n :: match children n with
                        | Some cs => flat_map names cs
                        | None => []
                        end) f.

(** A remote still provisioning, whose 404 carries the Hub's JSON body. *)
Definition not_found_remote (t : nat) : response :=
  mkResponse 404 (Some (u "Repository not found")).

Definition sample_folder (cs : list FileNode) : FileNode :=
  mkFileNode (u "1") (u "src") folder None (Some cs) None.

Definition sample_file : FileNode :=
  mkFileNode (u "2") (u "main.py") file (Some (u "print(1)")) None (Some (u "1")).

(** A remote whose 404 has no JSON [error] member. *)
Definition silent_remote (t : nat) : response := mkResponse 404 None.

(** The path [bad\ud800.txt]: a lead surrogate with no trail after it. *)
Definition lone_path : jstring := u "bad" ++ [55296%N] ++ u ".txt".

(** The forest parsed from [listing] under [sample_gen]. *)
Definition listing_sample_forest : list FileNode :=
  [ mkFileNode (u "node-0") (u "main.py") file
      (Some (u "# main.py" ++ [LF] ++ u "# TODO: Implement functionality"))
      None None;
    mkFileNode (u "node-1") (u "sub") folder None
      (Some [ mkFileNode (u "node-2") (u "deep.py") file
                (Some (u "# deep.py" ++ [LF] ++ u "# TODO: Implement functionality"))
                None (Some (u "node-1")) ])
      None ].

(** Two folders of equal depth and a deeper line. *)
Definition two_folders : jstring :=
  u " a/" ++ [LF] ++ u " b/" ++ [LF] ++ u "     c.py".

(** Two folders of equal depth with a file of the first in between, and
    a deeper line after the second. *)
Definition two_folders_apart : jstring :=
  u " a/" ++ [LF] ++ u "     x.py" ++ [LF] ++ u " b/" ++ [LF] ++ u "     c.py".

(** Two folder lines without indentation and an indented line: [a/],
    [b/], [    c.py]. *)
Definition flat_folders : jstring :=
  u "a/" ++ [LF] ++ u "b/" ++ [LF] ++ u "    c.py".

(** Two folders inside another as [tree] prints them: [├── app/],
    [│   ├── a/], [│   ├── b/], [│   │   └── c.py]. *)
Definition boxed_folders : jstring :=
  branch BOX_TEE ++ u "app/" ++ [LF]
  ++ [BOX_VERT] ++ u "   " ++ branch BOX_TEE ++ u "a/" ++ [LF]
  ++ [BOX_VERT] ++ u "   " ++ branch BOX_TEE ++ u "b/" ++ [LF]
  ++ [BOX_VERT] ++ u "   " ++ [BOX_VERT] ++ u "   " ++ branch BOX_CORNER ++ u "c.py".

(** Two folder lines indented by one space, the second with two spaces
    after its name, and a line indented by two spaces. *)
Definition trailing_space_folders : jstring :=
  u " a/" ++ [LF] ++ u " b/  " ++ [LF] ++ u "  c.py".

(** * The rest of the components *)

(** ** Index.updateFileContent *)

(** [updateNode] on one node of the [map]: a node with the id gets the
    content and is not looked into; any other node with children is
    rebuilt over its updated children. *)
Fixpoint update_one (fileId content' : jstring) (n : FileNode) : FileNode :=
  if bool_decide (id n = fileId) then
    mkFileNode (id n) (name n) (type n) (Some content') (children n) (parent n)
  else
    match children n with
    | Some cs =>
        mkFileNode (id n) (name n) (type n) (content n)
                   (Some (map (update_one fileId content') cs)) (parent n)
    | None => n
    end.

Definition updateNode (fileId content' : jstring) (nodes : list FileNode) : list FileNode :=
  map (update_one fileId content') nodes.

(** [setFileTree(updateNode(fileTree))]: the selection is not written. *)
Definition updateFileContent (fileId content' : jstring) (st : explorer) : explorer :=
  mkExplorer (updateNode fileId content' (fileTree st)) (selectedFile st).

(** ** FileExplorer: addNewItem, handleStructureImport, toggleFolder *)

(** [addNewItem], with [now] the text of [Date.now()] that [generateId]
    returns. *)
Definition addNewItem (now newItemName : jstring) (newItemType : FileType)
    (tree : list FileNode) : list FileNode :=
  if bool_decide (trim newItemName = []) then tree
  else
    tree ++ [mkFileNode now newItemName newItemType
               (match newItemType with file => Some [] | folder => None end)
               (match newItemType with folder => Some [] | file => None end)
               None].

(** [handleStructureImport]: [[...fileTree, ...importedStructure]]. *)
Definition handleStructureImport (importedStructure tree : list FileNode) : list FileNode :=
  tree ++ importedStructure.

(** StructureImporter.handleImport, followed through [onImport]: nothing
    happens for a blank text. *)
Definition handleImport (gen : nat -> jstring) (structureText : jstring)
    (tree : list FileNode) : list FileNode :=
  if bool_decide (trim structureText = []) then tree
  else
    match parseStructure gen structureText with
    | Some parsedStructure => handleStructureImport parsedStructure tree
    | None => tree
    end.

(** [toggleFolder] on the set of expanded folders. *)
Definition toggleFolder (folderId : jstring) (expandedFolders : gset jstring) : gset jstring :=
  if bool_decide (folderId ∈ expandedFolders)
  then expandedFolders ∖ {[folderId]}
  else expandedFolders ∪ {[folderId]}.

(** What a node is but for its content and children. *)
Definition frame_of (n : FileNode) : jstring * jstring * FileType * option jstring :=
  (id n, name n, type n, parent n).

(** An update leaves a node as it is, or gives it the content [c] when the
    node has the id [i]. *)
Definition updated_from (i c : jstring) (n' n : FileNode) : Prop :=
  frame_of n' = frame_of n
  /\ length (child_list (children n')) = length (child_list (children n))
  /\ (children n' = None <-> children n = None)
  /\ (content n' = content n \/ (id n = i /\ content n' = Some c)).

(** ** The shape of a parsed forest *)


(** Every node of a tree, paired with the id of the node whose [children]
    holds it ([p] for the root of the tree). *)
Fixpoint edges (p : option jstring) (t : FileNode) : list (option jstring * FileNode) :=
  (p, t) :: match children t with
            | Some cs => flat_map (edges (Some (id t))) cs
            | None => []
            end.

Definition forest_edges (f : list FileNode) : list (option jstring * FileNode) :=
  flat_map (edges None) f.

(** What lines 59-65 give a node, and what the loop keeps: a folder has a
    [children] array and no content, a file has the stub of its name for
    content and no [children]. *)
Definition node_ok (n : FileNode) : Prop :=
  name n <> []
  /\ match type n with
     | folder => content n = None /\ children n <> None
     | file => content n = Some (default_content (name n)) /\ children n = None
     end.

Definition obj_ok (o : obj) : Prop :=
  o_name o <> []
  /\ match o_type o with
     | folder => o_content o = None /\ o_children o <> None
     | file => o_content o = Some (default_content (o_name o)) /\ o_children o = None
     end.

(** Lines 75-76 and 79: a child names its parent, a root names none. *)
Definition links_ok (st : pstate) : Prop :=
  (forall r o cs, heap st !! r = Some o -> o_children o = Some cs ->
     Forall (fun c => exists oc, heap st !! c = Some oc
                                 /\ o_parent oc = Some (o_id o)) cs)
  /\ Forall (fun r => exists o, heap st !! r = Some o /\ o_parent o = None)
       (result st).

(** A name as lines 28-34 leave it: no glyph of the listing, no white
    space other than U+0020, and none in front. *)
Definition clean_name (nm : jstring) : Prop :=
  nm <> []
  /\ Forall (fun c => is_box c = false /\ (is_space c = true -> c = SPACE)) nm
  /\ (forall c, head nm = Some c -> is_space c = false).

(** ** ExportPanel: what is sent to a Space *)

(** [f.path === "app.py" || f.path.startsWith("app.")]. *)
Definition is_app_entry (f : jstring * jstring) : bool :=
  jeqb (fst f) (u "app.py") || is_prefix (u "app.") (fst f).

Definition app_py : jstring * jstring :=
  (u "app.py", u "# This file is required for running your Space" ++ [LF]).

Definition ensureAppPy (hfFiles : list (jstring * jstring)) (sdk : jstring)
  : list (jstring * jstring) :=
  if negb (jeqb sdk (u "gradio")) && negb (jeqb sdk (u "streamlit")) then hfFiles
  else if negb (existsb is_app_entry hfFiles) then hfFiles ++ [app_py]
  else hfFiles.

(** Lines 335-339: the list of uploads, given the text of the README. *)
Definition hf_upload_list (readmeContent : jstring) (fileTree : list FileNode)
    (sdk : jstring) : list (jstring * jstring) :=
  ensureAppPy ((u "README.md", readmeContent) :: getFilesForHFUpload fileTree []) sdk.

(** *** utf8ToBase64 *)

(** The two exceptions of [encodeURIComponent] and [btoa]. *)
Inductive thrown := URIError | InvalidCharacterError.

Inductive attempt (A : Type) :=
  | Done (a : A)
  | Thrown (e : thrown).
Arguments Done {A} a.
Arguments Thrown {A} e.

Definition attempt_map {A B} (f : A -> B) (x : attempt A) : attempt B :=
  match x with
  | Done a => Done (f a)
  | Thrown e => Thrown e
  end.

Definition PERCENT : char := 37%N.

(** uriAlpha, DecimalDigit and uriMark [- _ . ! ~ * ' ( )]. *)
Definition uri_unreserved (c : char) : bool :=
  ((97 <=? c) && (c <=? 122))%N || ((65 <=? c) && (c <=? 90))%N
  || ((48 <=? c) && (c <=? 57))%N
  || existsb (N.eqb c) [45; 95; 46; 33; 126; 42; 39; 40; 41]%N.

Definition hex_upper (n : N) : char :=
  if (n <? 10)%N then (48 + n)%N else (55 + n)%N.

(** [%XX] for one octet. *)
Definition percent_octet (b : N) : jstring :=
  [PERCENT; hex_upper (b / 16); hex_upper (b mod 16)]%N.

(** The UTF-8 octets of a code point. *)
Definition utf8_octets (cp : N) : list N :=
  (if cp <? 128 then [cp]
   else if cp <? 2048 then [192 + cp / 64; 128 + cp mod 64]
   else if cp <? 65536 then
     [224 + cp / 4096; 128 + (cp / 64) mod 64; 128 + cp mod 64]
   else [240 + cp / 262144; 128 + (cp / 4096) mod 64;
         128 + (cp / 64) mod 64; 128 + cp mod 64])%N.

Definition pair_code_point (lead trail : char) : N :=
  ((lead - 55296) * 1024 + (trail - 56320) + 65536)%N.

Definition escaped (cp : N) : jstring := flat_map percent_octet (utf8_octets cp).

(** [encodeURIComponent]: Encode of ECMAScript with the unreserved set
    above; a surrogate that is not half of a pair is a URIError. *)
Fixpoint encodeURIComponent (s : jstring) : attempt jstring :=
  match s with
  | [] => Done []
  | c :: s1 =>
      if uri_unreserved c then attempt_map (cons c) (encodeURIComponent s1)
      else if is_trail c then Thrown URIError
      else if is_lead c then
        match s1 with
        | d :: s2 =>
            if is_trail d
            then attempt_map (app (escaped (pair_code_point c d)))
                   (encodeURIComponent s2)
            else Thrown URIError
        | [] => Thrown URIError
        end
      else attempt_map (app (escaped c)) (encodeURIComponent s1)
  end.

Definition is_hex_upper (c : char) : bool :=
  ((48 <=? c) && (c <=? 57))%N || ((65 <=? c) && (c <=? 70))%N.

Definition hex_upper_value (c : char) : N :=
  if (c <? 58)%N then (c - 48)%N else (c - 55)%N.

(** [.replace(/%([0-9A-F]{2})/g, (match, p1) =>
    String.fromCharCode(parseInt(p1, 16)))]. *)
Fixpoint unpercent (s : jstring) : jstring :=
  match s with
  | [] => []
  | c :: t =>
      match t with
      | h :: l :: rest =>
          if (c =? PERCENT)%N && is_hex_upper h && is_hex_upper l
          then (16 * hex_upper_value h + hex_upper_value l)%N :: unpercent rest
          else c :: unpercent t
      | _ => c :: unpercent t
      end
  end.

Definition b64_digit (d : N) : char :=
  (if d <? 26 then 65 + d
   else if d <? 52 then 71 + d
   else if d <? 62 then d - 4
   else if d =? 62 then 43
   else 47)%N.

Definition PAD : char := 61%N.

Fixpoint base64 (bytes : list N) : jstring :=
  match bytes with
  | [] => []
  | a :: t1 =>
      match t1 with
      | [] => [b64_digit (a / 4); b64_digit (a mod 4 * 16); PAD; PAD]%N
      | b :: t2 =>
          match t2 with
          | [] =>
              [b64_digit (a / 4); b64_digit (a mod 4 * 16 + b / 16);
               b64_digit (b mod 16 * 4); PAD]%N
          | c :: rest =>
              [b64_digit (a / 4); b64_digit (a mod 4 * 16 + b / 16);
               b64_digit (b mod 16 * 4 + c / 64); b64_digit (c mod 64)]%N
              ++ base64 rest
          end
      end
  end.

(** [btoa]: a unit above U+00FF is an InvalidCharacterError. *)
Definition btoa (s : jstring) : attempt jstring :=
  if forallb (fun c => (c <=? 255)%N) s then Done (base64 s)
  else Thrown InvalidCharacterError.

Definition utf8ToBase64 (str : jstring) : attempt jstring :=
  match encodeURIComponent str with
  | Done e => btoa (unpercent e)
  | Thrown e => Thrown e
  end.

(** *** The uploads *)

(** [uploadWithRetry(file, tries)] for the file of path [fst file] and
    content [snd file], against a remote that answers attempt [t] with
    [remote t]: the requests and sleeps made, and how it ends. Line 343
    builds the URL with [encodeURIComponent(file.path)] before the loop,
    and line 356 the body with [utf8ToBase64(file.content)] before each
    request: when either throws, no request has been made. With
    [tries = 0] the loop is not entered and no body is built. *)
Definition uploadWithRetry (remote : nat -> response) (file : jstring * jstring)
    (tries : nat) : list event * attempt outcome :=
  match encodeURIComponent (fst file) with
  | Thrown e => ([], Thrown e)
  | Done _ =>
      match tries, utf8ToBase64 (snd file) with
      | S _, Thrown e => ([], Thrown e)
      | _, _ =>
          let '(evs, out) := retry_loop remote tries tries 0 first_delay None in
          (evs, Done (loop_outcome (fst file) out))
      end
  end.

(** One [await uploadWithRetry(file)] of lines 385-387: the URL (line 343)
    and the body of the first request (line 356) are built before any
    request, and [tries] has its default. *)
Definition upload_one (remote : nat -> response) (file : jstring * jstring)
  : list event * attempt outcome :=
  uploadWithRetry remote file default_tries.

(** The loop of lines 385-387 from the [k]-th file on; [remote k] answers
    the requests for the [k]-th file. It gives the events of each file it
    came to and, when an upload threw, the index of the file and how. *)
Fixpoint upload_all (remote : nat -> nat -> response) (k : nat)
    (files : list (jstring * jstring))
  : list (list event) * option (nat * attempt outcome) :=
  match files with
  | [] => ([], None)
  | f :: rest =>
      let '(evs, out) := upload_one (remote k) f in
      match out with
      | Done Returned =>
          let '(log, failure) := upload_all remote (S k) rest in
          (evs :: log, failure)
      | _ => ([evs], Some (k, out))
      end
  end.

(** ** Notions for the encoders *)

(** Every surrogate is half of a pair. *)
Fixpoint well_formed (s : jstring) : bool :=
  match s with
  | [] => true
  | c :: s1 =>
      if is_trail c then false
      else if is_lead c then
        match s1 with
        | d :: s2 => is_trail d && well_formed s2
        | [] => false
        end
      else well_formed s1
  end.

(** The UTF-8 octets of a string, pair by pair. *)
Fixpoint utf8_of (s : jstring) : list N :=
  match s with
  | [] => []
  | c :: s1 =>
      if is_lead c then
        match s1 with
        | d :: s2 =>
            if is_trail d then utf8_octets (pair_code_point c d) ++ utf8_of s2
            else utf8_octets c ++ utf8_of s1
        | [] => utf8_octets c
        end
      else utf8_octets c ++ utf8_of s1
  end.

(** Strings of 16-bit units. *)
Definition units16 (s : jstring) : Prop := Forall (fun c => (c < 65536)%N) s.

(** Reading a Base64 text and UTF-8 octets back, to state that
    [utf8ToBase64] loses nothing. *)
Definition b64_value (c : char) : N :=
  (if c =? 43 then 62
   else if c =? 47 then 63
   else if c <? 58 then c + 4
   else if c <? 91 then c - 65
   else c - 71)%N.

Fixpoint unbase64 (s : jstring) : list N :=
  match s with
  | w :: x :: y :: z :: rest =>
      let a := (b64_value w * 4 + b64_value x / 16)%N in
      let b := (b64_value x mod 16 * 16 + b64_value y / 4)%N in
      let c := (b64_value y mod 4 * 64 + b64_value z)%N in
      if (y =? PAD)%N then [a]
      else if (z =? PAD)%N then [a; b]
      else a :: b :: c :: unbase64 rest
  | _ => []
  end.

Fixpoint utf8_units (bs : list N) : jstring :=
  match bs with
  | [] => []
  | b0 :: t0 =>
      if (b0 <? 128)%N then b0 :: utf8_units t0
      else
        match t0 with
        | [] => []
        | b1 :: t1 =>
            if (b0 <? 224)%N
            then ((b0 - 192) * 64 + (b1 - 128))%N :: utf8_units t1
            else
              match t1 with
              | [] => []
              | b2 :: t2 =>
                  if (b0 <? 240)%N
                  then ((b0 - 224) * 4096 + (b1 - 128) * 64 + (b2 - 128))%N
                       :: utf8_units t2
                  else
                    match t2 with
                    | [] => []
                    | b3 :: t3 =>
                        let cp := ((b0 - 240) * 262144 + (b1 - 128) * 4096
                                   + (b2 - 128) * 64 + (b3 - 128))%N in
                        (55296 + (cp - 65536) / 1024)%N
                        :: (56320 + (cp - 65536) mod 1024)%N
                        :: utf8_units t3
                    end
              end
        end
  end.

(** ** FileExplorer: the rows drawn *)

(** [renderFileNode(node, depth)]: the row of the node, then the rows of
    its children when it is a folder, is expanded and has a [children]
    array. A row is the node and its depth; it is drawn with a left
    padding of [depth * 16 + 8] pixels. *)
Fixpoint renderFileNode (expandedFolders : gset jstring) (depth : nat)
    (node : FileNode) : list (FileNode * nat) :=
  (node, depth)
  :: match type node, children node with
     | folder, Some cs =>
         if bool_decide (id node ∈ expandedFolders)
         then flat_map (renderFileNode expandedFolders (S depth)) cs
         else []
     | _, _ => []
     end.

Definition rows (expandedFolders : gset jstring) (fileTree : list FileNode)
  : list (FileNode * nat) :=
  flat_map (renderFileNode expandedFolders 0) fileTree.

(** ** Paths and the tree *)

(** [filePath.split('/')] of createProjectWithFileSystemAPI: all parts but
    the last are directories to create, the last is the file. *)
Definition pathParts (filePath : jstring) : list jstring := split SLASH filePath.

(** The names on the way from a node down to each thing the flatteners
    publish below it: a file, or the [.gitkeep] of a folder with no child. *)
Fixpoint leaf_chains (n : FileNode) : list (list jstring) :=
  match type n with
  | file => [[name n]]
  | folder =>
      match children n with
      | Some (c :: cs) => map (cons (name n)) (flat_map leaf_chains (c :: cs))
      | _ => [[name n; u ".gitkeep"]]
      end
  end.

(** [createFilesForVSCode] of createProjectZip: the record of paths and
    contents that createProjectWithFileSystemAPI writes out; its own
    properties, as for [convertFileTreeToGitHubFiles]. *)
Fixpoint vscode_files_of_node (basePath : jstring) (node : FileNode)
    (files : gmap jstring jstring) : gmap jstring jstring :=
  let path := fullPath basePath (name node) in
  match type node with
  | file => assign_key path (content_or_stub node) files
  | folder =>
      match children node with
      | Some cs =>
          let childFiles :=
            fold_left (fun acc c => vscode_files_of_node path c acc) cs ∅ in
          let files' := childFiles ∪ files in
          match cs with
          | [] => assign_key (gitkeep path) [] files'
          | _ :: _ => files'
          end
      | None => files
      end
  end.

Definition createFilesForVSCode (nodes : list FileNode) (basePath : jstring)
  : gmap jstring jstring :=
  fold_left (fun acc node => vscode_files_of_node basePath node acc) nodes ∅.

(** The time slept in all, in milliseconds. *)
Definition total_sleep (evs : list event) : Q :=
  fold_right Qplus 0%Q (sleeps evs).

(** ** The folder a line lands in *)

(** Walking up the listing from a line: [above] holds the lines before it
    that get a node, the nearest first, and [bound] the least depth met so
    far, the depth of the line itself included. The line lands in the first
    folder line above whose depth is below [bound]; that line is the
    [length above']-th of the listing. *)
Fixpoint enclosing (above : list jstring) (bound : Q) : option nat :=
  match above with
  | [] => None
  | l :: above' =>
      if isFolder l (line_name l) && negb (Qle_bool bound (line_depth l))
      then Some (length above')
      else enclosing above'
             (if Qle_bool bound (line_depth l) then bound else line_depth l)
  end.

(** * Properties *)

(** ** Lengths of the cleaned line *)

Lemma drop_while_length p s : length (drop_while p s) <= length s.
Proof.
  induction s as [|c s IH]; simpl; [lia|].
  destruct (p c); simpl; lia.
Qed.

Lemma trim_length s : length (trim s) <= length s.
Proof.
  unfold trim, trimEnd, trimStart.
  rewrite length_rev.
  etransitivity; [apply drop_while_length|].
  rewrite length_rev. apply drop_while_length.
Qed.

Lemma collapse_from_length b s : length (collapse_from b s) <= length s.
Proof.
  revert b. induction s as [|c s IH]; intros b; simpl; [lia|].
  pose proof (IH true). pose proof (IH false).
  destruct (is_space c); [destruct b|]; simpl; lia.
Qed.

Lemma cleanLine_length line : length (cleanLine line) <= length line.
Proof.
  unfold cleanLine, collapse_ws, strip_box.
  etransitivity; [apply collapse_from_length|]. apply length_filter.
Qed.

Lemma trimmed_length line : length (trim (cleanLine line)) <= length line.
Proof.
  etransitivity; [apply trim_length | apply cleanLine_length].
Qed.

(** ** C1: the depth-inference example *)

(** C1, as the code behaves: on the four-line listing [app/],
    [├── main.py], [└── sub/], [    └── deep.py] the line [app/] is
    skipped as the root project name, so the forest has the two roots
    [main.py] and [sub], with [deep.py] the only child of [sub]; whatever
    ids are drawn. *)
Theorem listing_forest (gen : nat -> jstring) :
  parseStructure gen listing =
  Some [ mkFileNode (gen 0) (u "main.py") file
           (Some (u "# main.py" ++ [LF] ++ u "# TODO: Implement functionality"))
           None None;
         mkFileNode (gen 1) (u "sub") folder None
           (Some [ mkFileNode (gen 2) (u "deep.py") file
                     (Some (u "# deep.py" ++ [LF] ++ u "# TODO: Implement functionality"))
                     None (Some (gen 1)) ])
           None ].
Proof. reflexivity. Qed.

(** C1 fails as stated: the forest parsed from the listing has no node
    named [app], and [main.py] and [sub] are roots without a parent. *)
Lemma listing_has_no_app_node :
  exists f, parseStructure sample_gen listing = Some f
    /\ ~ In (u "app") (names_of f)
    /\ map name f = [u "main.py"; u "sub"]
    /\ map parent f = [None; None].
Proof.
  eexists. split; [reflexivity|]. split; [|split; reflexivity].
  vm_compute. intros H.
  repeat (destruct H as [H|H]; [discriminate H|]). exact H.
Qed.

(** ** C3: the root-label test *)

Lemma is_root_label_spec line :
  is_root_label line
  = spec_root_label line
    || (includes SLASH line && (startsWith BOX_VERT line || startsWith BOX_HORIZ line)).
Proof.
  unfold is_root_label, spec_root_label, is_box.
  destruct line as [|c s]; [reflexivity|]. cbn [startsWith].
  destruct (includes SLASH (c :: s)); [|reflexivity]. cbn [andb].
  destruct (N.eqb_spec c SPACE) as [->|_]; [reflexivity|].
  destruct (N.eqb_spec c BOX_TEE) as [->|_]; [reflexivity|].
  destruct (N.eqb_spec c BOX_CORNER) as [->|_]; [reflexivity|].
  destruct (N.eqb_spec c BOX_VERT) as [->|_]; [reflexivity|].
  by destruct (N.eqb_spec c BOX_HORIZ).
Qed.

(** C3 at the line [│   └── sub/]: it contains [/], has no leading space
    and starts with the box glyph [│], so by the claim it is no root label;
    the code tests only [├] and [└], skips it and makes no node for it, so
    that in a listing the file below [sub/] lands in the folder above. The
    code's test and the claim's differ on exactly the lines that contain
    [/] and start with [│] or [─]. *)
Theorem nested_folder_line_skipped :
  is_root_label nested_folder_line = true
  /\ spec_root_label nested_folder_line = false
  /\ startsWith BOX_VERT nested_folder_line = true
  /\ line_name nested_folder_line = u "sub"
  /\ (forall gen st, process_line gen st nested_folder_line = st)
  /\ (forall gen,
        parseStructure gen nested_listing
        = Some [ mkFileNode (gen 0) (u "app") folder None
                   (Some [ mkFileNode (gen 1) (u "x.py") file
                             (Some (u "# x.py" ++ [LF] ++ u "# TODO: Implement functionality"))
                             None (Some (gen 0)) ])
                   None ])
  /\ (forall line,
        is_root_label line
        = spec_root_label line
          || (includes SLASH line
              && (startsWith BOX_VERT line || startsWith BOX_HORIZ line))).
Proof.
  repeat split; try reflexivity. apply is_root_label_spec.
Qed.

(** ** C4: the depth of a line *)

(** C4 fails as stated: the line [ a] (one space) is not skipped and its
    depth is 1/4, which is neither an integer nor the integer quotient. *)
Lemma quarter_depth_line :
  is_root_label (u " a") = false
  /\ line_name (u " a") = u "a"
  /\ (line_depth (u " a") == 1 # 4)%Q
  /\ ~ (exists z : Z, (line_depth (u " a") == inject_Z z)%Q)
  /\ ~ (line_depth (u " a") == inject_Z (spec_depth (u " a")))%Q.
Proof.
  repeat split; try reflexivity.
  - intros [z Hz]. unfold Qeq in Hz. simpl in Hz. lia.
  - intros H. vm_compute in H. discriminate H.
Qed.

(** C4, as the code behaves: the depth is the exact quotient of the length
    difference by 4, a non-negative multiple of 1/4; it is an integer
    exactly when the difference is a multiple of 4, and is then the integer
    quotient. *)
Theorem line_depth_exact (line : jstring) :
  let diff := (Z.of_nat (length line) - Z.of_nat (length (trim (cleanLine line))))%Z in
  (line_depth line * inject_Z 4 == inject_Z diff)%Q
  /\ (0 <= diff <= Z.of_nat (length line))%Z
  /\ (0 <= line_depth line)%Q
  /\ ((exists z : Z, (line_depth line == inject_Z z)%Q) <-> (diff mod 4 = 0)%Z)
  /\ ((diff mod 4 = 0)%Z -> (line_depth line == inject_Z (spec_depth line))%Q).
Proof.
  intros diff.
  pose proof (trimmed_length line) as Hle.
  assert (Hd : (0 <= diff <= Z.of_nat (length line))%Z) by (unfold diff; lia).
  pose proof (Z.div_mod diff 4 ltac:(lia)) as E.
  unfold line_depth, spec_depth. fold diff.
  split; [|split; [exact Hd|split; [|split; [split|]]]].
  - unfold Qeq, Qmult, inject_Z. simpl. lia.
  - unfold Qle. simpl. lia.
  - intros [z Hz]. unfold Qeq, inject_Z in Hz. simpl in Hz.
    replace diff with (z * 4)%Z by lia. apply Z.mod_mul. lia.
  - intros Hm. exists (diff / 4)%Z. unfold Qeq, inject_Z. simpl. lia.
  - intros Hm. unfold Qeq, inject_Z. simpl. lia.
Qed.

Lemma line_depth_exact_witness :
  (line_depth (u "    " ++ branch BOX_CORNER ++ u "deep.py") == inject_Z 2)%Q.
Proof.
  apply (proj2 (proj2 (proj2 (proj2
           (line_depth_exact (u "    " ++ branch BOX_CORNER ++ u "deep.py")))))).
  reflexivity.
Defined.

(** ** The stack of frames *)

Lemma attach_stack n st : stack (attach n st) = stack st.
Proof.
  unfold attach. destruct (stack st) as [|top below] eqn:E; simpl; [done|].
  destruct (heap st !! node top) as [p|]; [|done].
  destruct (o_children p); simpl; done.
Qed.

Lemma pop_frames_top d s top below :
  pop_frames d s = top :: below -> (depth top < d)%Q.
Proof.
  induction s as [|f s IH]; simpl; [discriminate|].
  destruct (Qle_bool d (depth f)) eqn:E; [exact IH|].
  intros [= <- _]. apply Qnot_le_lt. intros H.
  apply Qle_bool_iff in H. congruence.
Qed.

Lemma pop_frames_increasing d s :
  stack_increasing s -> stack_increasing (pop_frames d s).
Proof.
  induction s as [|f s IH]; simpl; [done|].
  intros [Hall Hs]. destruct (Qle_bool d (depth f)); [auto|].
  simpl. auto.
Qed.

Lemma push_increasing n d s :
  stack_increasing s ->
  (forall top below, s = top :: below -> (depth top < d)%Q) ->
  stack_increasing (mkFrame n d :: s).
Proof.
  intros Hs Htop. simpl. split; [|exact Hs].
  destruct s as [|top below]; [constructor|].
  pose proof (Htop top below eq_refl) as Hlt.
  destruct Hs as [Hall _]. constructor; [exact Hlt|].
  eapply Forall_impl; [exact Hall|]. simpl. intros f Hf.
  eapply Qlt_trans; eassumption.
Qed.

Lemma process_line_stack_increasing gen st line :
  stack_increasing (stack st) -> stack_increasing (stack (process_line gen st line)).
Proof.
  intros Hs. unfold process_line.
  destruct (is_root_label line); [exact Hs|].
  destruct (bool_decide (line_name line = [])); [exact Hs|].
  destruct (isFolder line (line_name line)); cbn [stack]; rewrite attach_stack; cbn [stack].
  - apply push_increasing; [by apply pop_frames_increasing|].
    intros top below. apply pop_frames_top.
  - by apply pop_frames_increasing.
Qed.

Lemma run_lines_stack_increasing gen lines st :
  stack_increasing (stack st) -> stack_increasing (stack (run_lines gen lines st)).
Proof.
  revert st. induction lines as [|l lines IH]; intros st Hs; simpl; [exact Hs|].
  apply IH. by apply process_line_stack_increasing.
Qed.

(** ** C6: the empty-folder sentinel *)

Lemma gitkeep_not_proto path : gitkeep path <> u "__proto__".
Proof.
  unfold gitkeep. intros H. apply (f_equal (@rev char)) in H.
  rewrite rev_app_distr in H. discriminate H.
Qed.

Lemma assign_key_gitkeep path value record :
  assign_key (gitkeep path) value record = <[gitkeep path := value]> record.
Proof.
  unfold assign_key. by rewrite (bool_decide_eq_false_2 _ (gitkeep_not_proto path)).
Qed.

(** C6: an empty folder flattens to the single entry of path
    [path/.gitkeep] and empty content, [path] being its joined path; a folder with
    children flattens to what its children flatten to under [path], with
    no entry of its own. Both flatteners agree on this, and the entries of
    a node stand in the forest's flattening between those of its
    neighbours. *)
Theorem empty_folder_sentinel (basePath : jstring) (n : FileNode) :
  type n = folder ->
  let path := fullPath basePath (name n) in
  match children n with
  | Some [] =>
      hf_files_of_node basePath n = [(path ++ u "/.gitkeep", [])]
      /\ forall result,
           github_files_of_node basePath n result = <[path ++ u "/.gitkeep" := []]> result
  | Some (c :: cs) =>
      hf_files_of_node basePath n = getFilesForHFUpload (c :: cs) path
      /\ forall result,
           github_files_of_node basePath n result
           = convertFileTreeToGitHubFiles (c :: cs) path ∪ result
  | None => True
  end
  /\ forall before after,
       getFilesForHFUpload (before ++ n :: after) basePath
       = getFilesForHFUpload before basePath ++ hf_files_of_node basePath n
         ++ getFilesForHFUpload after basePath.
Proof.
  intros Ht path. split.
  - destruct n as [i nm t c ch p]. simpl in *. subst t.
    destruct ch as [[|c0 cs]|]; [| |exact I].
    + split; [reflexivity|]. intros result. simpl.
      rewrite (left_id_L ∅ (∪)). apply assign_key_gitkeep.
    + split; [reflexivity|]. intros result. reflexivity.
  - intros before after. unfold getFilesForHFUpload.
    rewrite flat_map_app. reflexivity.
Qed.

Lemma empty_folder_sentinel_witness :
  getFilesForHFUpload [sample_file; sample_folder []] (u "app")
  = [(u "app/main.py", u "print(1)"); (u "app/src/.gitkeep", [])]
  /\ convertFileTreeToGitHubFiles [sample_folder []] [] = {[ u "src/.gitkeep" := [] ]}.
Proof.
  destruct (empty_folder_sentinel (u "app") (sample_folder []) eq_refl) as [[Hhf _] Happ].
  destruct (empty_folder_sentinel [] (sample_folder []) eq_refl) as [[_ Hgh] _].
  split.
  - change [sample_file; sample_folder []] with ([sample_file] ++ sample_folder [] :: []).
    rewrite (Happ [sample_file] []). rewrite Hhf. reflexivity.
  - change (convertFileTreeToGitHubFiles [sample_folder []] [])
      with (github_files_of_node [] (sample_folder []) ∅).
    rewrite Hgh. exact (insert_empty (M := gmap jstring) (u "src/.gitkeep") []).
Defined.

(** ** C8: deleting a node *)

Lemma rebuild_children itemId n :
  children (rebuild itemId n) = option_map (filterNodes itemId) (children n).
Proof.
  destruct n as [i nm t c [cs|] p]; simpl; [|done]. f_equal.
  induction cs as [|c0 cs IH]; simpl; [done|].
  destruct (bool_decide (id c0 = itemId)); [done|]. by rewrite IH.
Qed.

Lemma filterNodes_filter_map itemId nodes :
  filterNodes itemId nodes
  = map (rebuild itemId) (List.filter (fun n => negb (bool_decide (id n = itemId))) nodes).
Proof.
  induction nodes as [|c rest IH]; simpl; [done|].
  destruct (bool_decide (id c = itemId)); simpl; [done|]. by rewrite IH.
Qed.

Lemma ids_of_rebuild itemId n :
  ids_of (rebuild itemId n)
  = id n :: flat_map ids_of (filterNodes itemId (child_list (children n))).
Proof.
  pose proof (rebuild_children itemId n) as H.
  destruct n as [i nm t c [cs|] p]; [|reflexivity].
  simpl in H. injection H as H. simpl. by rewrite H.
Qed.

Lemma filterNodes_forgets_id itemId nodes :
  ~ In itemId (forest_ids (filterNodes itemId nodes)).
Proof.
  unfold forest_ids. induction nodes as [|n rest IH]; simpl; [tauto|].
  destruct (bool_decide (id n = itemId)) eqn:E; [exact IH|].
  apply bool_decide_eq_false in E.
  simpl. rewrite in_app_iff. intros [Hn|Hrest]; [|tauto].
  clear IH rest. revert E Hn.
  induction n as [i nm t c ch p IHch] using FileNode_ind.
  intros Hne. rewrite ids_of_rebuild. simpl in *.
  intros [Heq|Hin]; [congruence|].
  induction IHch as [|c0 cs Hc0 _ IHcs]; simpl in Hin; [tauto|].
  destruct (bool_decide (id c0 = itemId)) eqn:E0; [tauto|].
  apply bool_decide_eq_false in E0.
  simpl in Hin. rewrite in_app_iff in Hin. destruct Hin; [|tauto].
  by apply Hc0.
Qed.

(** C8: after [deleteItem itemId], no node of the tree carries [itemId] at
    any depth; what is kept are the nodes whose id differs, each rebuilt
    with its children filtered in the same way; and a selected file with
    that id is deselected (any other selection is kept). *)
Theorem delete_removes_everywhere (itemId : jstring) (st : explorer) :
  ~ In itemId (forest_ids (fileTree (deleteItem itemId st)))
  /\ fileTree (deleteItem itemId st)
     = map (rebuild itemId)
         (List.filter (fun n => negb (bool_decide (id n = itemId))) (fileTree st))
  /\ (forall n, children (rebuild itemId n) = option_map (filterNodes itemId) (children n))
  /\ selectedFile (deleteItem itemId st)
     = match selectedFile st with
       | Some f => if bool_decide (id f = itemId) then None else Some f
       | None => None
       end
  /\ (forall f, selectedFile st = Some f -> id f = itemId ->
                selectedFile (deleteItem itemId st) = None).
Proof.
  split; [apply filterNodes_forgets_id|].
  split; [apply filterNodes_filter_map|].
  split; [apply rebuild_children|].
  split; [reflexivity|].
  intros f Hsel Hid. unfold deleteItem. simpl. rewrite Hsel.
  by rewrite bool_decide_eq_true_2.
Qed.

Lemma delete_removes_witness :
  let st := mkExplorer [sample_folder [sample_file]; sample_file] (Some sample_file) in
  deleteItem (u "2") st = mkExplorer [sample_folder []] None.
Proof.
  intros st.
  pose proof (proj2 (proj2 (proj2 (proj2 (delete_removes_everywhere (u "2") st))))
                sample_file eq_refl eq_refl) as Hsel.
  destruct (deleteItem (u "2") st) as [tree sel] eqn:E.
  simpl in Hsel. subst sel.
  vm_compute in E. injection E as <-. reflexivity.
Defined.

(** ** The retry loop *)

Lemma is_prefix_app p s : is_prefix p (p ++ s) = true.
Proof.
  induction p as [|a p IH]; simpl; [done|]. by rewrite N.eqb_refl.
Qed.

Lemma contains_unfold p s :
  contains p s
  = is_prefix p s || match s with [] => false | _ :: s' => contains p s' end.
Proof. by destruct s. Qed.

Lemma contains_app a p b : contains p (a ++ p ++ b) = true.
Proof.
  induction a as [|c a IH].
  - rewrite contains_unfold. simpl app. by rewrite is_prefix_app.
  - simpl. rewrite IH. apply orb_true_r.
Qed.

Lemma failure_message_names path st :
  contains path (failure_message path st) = true
  /\ contains (decimal st) (failure_message path st) = true.
Proof.
  unfold failure_message. split.
  - apply contains_app.
  - match goal with
    | |- contains _ (?a ++ path ++ ?b ++ decimal st ++ ?c) = true =>
        replace (a ++ path ++ b ++ decimal st ++ c)
          with ((a ++ path ++ b) ++ decimal st ++ c)
          by (by rewrite <- !app_assoc)
    end.
    apply contains_app.
Qed.

Lemma fetches_retry_trace t delay r : fetches (retry_trace t delay r) = seq t (S r).
Proof.
  revert t delay. induction r as [|r IH]; intros t delay; [done|].
  change (fetches (retry_trace t delay (S r)))
    with (t :: fetches (retry_trace (S t) (next_delay delay) r)).
  by rewrite IH.
Qed.

Lemma sleeps_retry_trace t delay r : sleeps (retry_trace t delay r) = backoff delay r.
Proof.
  revert t delay. induction r as [|r IH]; intros t delay; [done|].
  change (sleeps (retry_trace t delay (S r)))
    with (delay :: sleeps (retry_trace (S t) (next_delay delay) r)).
  by rewrite IH.
Qed.

Lemma next_delay_bounds d :
  (0 <= d)%Q -> (d <= max_delay)%Q ->
  (d <= next_delay d)%Q /\ (next_delay d <= max_delay)%Q.
Proof.
  intros Hd Hcap. unfold next_delay.
  assert (Hgrow : (d <= Qred (d * (5 # 4)))%Q).
  { rewrite Qred_correct. unfold Qle, Qmult in *. simpl in *. nia. }
  destruct (Qle_bool (Qred (d * (5 # 4))) max_delay) eqn:E.
  - apply Qle_bool_iff in E. by split.
  - split; [exact Hcap|apply Qle_refl].
Qed.

Lemma backoff_capped d k :
  (0 <= d)%Q -> (d <= max_delay)%Q ->
  Forall (fun x => (x <= max_delay)%Q) (backoff d k) /\ nondecreasing (backoff d k).
Proof.
  revert d. induction k as [|k IH]; intros d Hd Hcap; simpl.
  - split; [constructor|]. intros i a b H. by rewrite lookup_nil in H.
  - destruct (next_delay_bounds d Hd Hcap) as [Hup Hcap'].
    destruct (IH (next_delay d)) as [Hall Hmono];
      [eapply Qle_trans; eassumption|exact Hcap'|].
    split; [by constructor|].
    intros [|i] a b Ha Hb; simpl in Ha, Hb.
    + injection Ha as <-. destruct k; simpl in Hb; [discriminate|].
      by injection Hb as <-.
    + eapply Hmono; eassumption.
Qed.

Lemma not_found_not_ok res : status res = 404%Z -> ok res = false.
Proof. unfold ok. intros ->. reflexivity. Qed.

(** The loop stops at attempt [T] when the attempts before it were retried
    404s and attempt [T] fails with another status or is the last one. *)
Lemma retry_loop_stops remote tries T :
  T < tries ->
  (forall k, k < T -> status (remote k) = 404%Z) ->
  ok (remote T) = false ->
  status (remote T) <> 404%Z \/ T = tries - 1 ->
  forall left t delay lastErr,
    t + left = tries -> t <= T ->
    retry_loop remote tries left t delay lastErr
    = (retry_trace t delay (T - t), Some (Some (remote T))).
Proof.
  intros HT Hbefore Hfail Hstop.
  induction left as [|left IH]; intros t delay lastErr Hsum Hle; [lia|].
  simpl. destruct (decide (t = T)) as [->|Hne].
  - rewrite Hfail. replace (T - T) with 0 by lia. simpl.
    destruct Hstop as [Hst| ->].
    + apply Z.eqb_neq in Hst. by rewrite Hst.
    + rewrite (proj2 (Nat.ltb_ge _ _)) by lia. by rewrite andb_false_r.
  - assert (Hlt : t < T) by lia.
    rewrite (not_found_not_ok _ (Hbefore t Hlt)), (Hbefore t Hlt).
    rewrite (proj2 (Nat.ltb_lt _ _)) by lia. simpl.
    rewrite (IH (S t) (next_delay delay) (Some (remote t))) by lia.
    replace (T - t) with (S (T - S t)) by lia. reflexivity.
Qed.

(** ** Reading trees off the heap *)

Lemma mapM_Some_impl {A B} (f g : A -> option B) (l : list A) (k : list B) :
  Forall (fun x => forall y, f x = Some y -> g x = Some y) l ->
  mapM f l = Some k -> mapM g l = Some k.
Proof.
  intros Hall Hf. apply mapM_Some_2. apply mapM_Some_1 in Hf.
  induction Hf as [|x y l k Hxy _ IH]; [constructor|].
  inversion Hall as [|? ? Hx Hl]; subst. constructor; auto.
Qed.

Lemma reify_mono k k' h r t :
  k <= k' -> reify k h r = Some t -> reify k' h r = Some t.
Proof.
  revert k' r t. induction k as [|k IH]; intros k' r t Hle; [discriminate|].
  destruct k' as [|k']; [lia|]. simpl.
  destruct (h !! r) as [o|]; [|done].
  destruct (o_children o) as [cs|]; [|done].
  destruct (mapM (reify k h) cs) as [ts|] eqn:E; [|done].
  intros [= <-].
  rewrite (mapM_Some_impl (reify k h) (reify k' h) cs ts); [done| |done].
  apply Forall_forall. intros c _ y. apply IH. lia.
Qed.

Lemma reify_app k h h2 r t :
  reify k h r = Some t -> reify k (h ++ h2) r = Some t.
Proof.
  revert r t. induction k as [|k IH]; intros r t; [discriminate|]. simpl.
  destruct (h !! r) as [o|] eqn:Hr; [|done].
  rewrite (lookup_app_l_Some _ _ _ _ Hr).
  destruct (o_children o) as [cs|]; [|done].
  destruct (mapM (reify k h) cs) as [ts|] eqn:E; [|done].
  intros [= <-].
  rewrite (mapM_Some_impl (reify k h) (reify k (h ++ h2)) cs ts); [done| |done].
  apply Forall_forall. intros c _ y. apply IH.
Qed.

Lemma closed_app h h2 r t : closed h r t -> closed (h ++ h2) r t.
Proof. intros [k Hk]. exists k. by apply reify_app. Qed.

Lemma closed_take n h r t : closed (take n h) r t -> closed h r t.
Proof. intros H. rewrite <- (take_drop n h). by apply closed_app. Qed.

Lemma closed_lt h r t : closed h r t -> r < length h.
Proof.
  intros [[|k] Hk]; [discriminate|]. simpl in Hk.
  destruct (h !! r) as [o|] eqn:Hr; [|done]. by apply lookup_lt_Some in Hr.
Qed.

(** Altering an object leaves the trees of later objects alone. *)
Lemma reify_alter_below f s h :
  heap_ordered h ->
  forall k r, s < r -> reify k (alter f s h) r = reify k h r.
Proof.
  intros Hord. induction k as [|k IH]; intros r Hlt; [done|]. simpl.
  rewrite list_lookup_alter_ne by lia.
  destruct (h !! r) as [o|] eqn:Hr; [|done].
  destruct (o_children o) as [cs|] eqn:Hc; [|done].
  pose proof (Hord r o cs Hr Hc) as Hcs.
  assert (E : mapM (reify k (alter f s h)) cs = mapM (reify k h) cs).
  { clear -IH Hcs Hlt. induction Hcs as [|c cs Hc _ IHcs]; [done|].
    change (mapM ?g (c :: cs)) with (x ← g c; k ← mapM g cs; mret (x :: k)).
    rewrite IH by lia. by rewrite IHcs. }
  by rewrite E.
Qed.

Lemma closed_alter_below f s h r t :
  heap_ordered h -> s < r -> closed h r t -> closed (alter f s h) r t.
Proof. intros Hord Hlt [k Hk]. exists k. by rewrite reify_alter_below. Qed.

(** Fuel: the objects left above [r] bound the height of its tree. *)
Lemma reify_enough h :
  heap_ordered h ->
  forall k r t, reify k h r = Some t ->
  forall k', length h - r <= k' -> reify k' h r = Some t.
Proof.
  intros Hord. induction k as [|k IH]; intros r t; [discriminate|]. simpl.
  destruct (h !! r) as [o|] eqn:Hr; [|done].
  pose proof (lookup_lt_Some _ _ _ Hr) as Hlen.
  intros Ht k' Hk'. destruct k' as [|k']; [lia|]. simpl. rewrite Hr.
  destruct (o_children o) as [cs|] eqn:Hc; [|done].
  destruct (mapM (reify k h) cs) as [ts|] eqn:E; [|done].
  injection Ht as <-.
  rewrite (mapM_Some_impl (reify k h) (reify k' h) cs ts); [done| |done].
  pose proof (Hord r o cs Hr Hc) as Hcs.
  eapply Forall_impl; [exact Hcs|]. simpl. intros c Hc' y Hy.
  eapply IH; [exact Hy|lia].
Qed.

Lemma closed_reify h r t :
  heap_ordered h -> closed h r t -> reify (length h) h r = Some t.
Proof.
  intros Hord [k Hk]. eapply reify_enough; [done|exact Hk|lia].
Qed.

Lemma closed_all_fuel h rs ts :
  Forall2 (closed h) rs ts ->
  exists k, Forall2 (fun r t => reify k h r = Some t) rs ts.
Proof.
  induction 1 as [|r t rs ts [k Hk] _ [k' IH]]; [by exists 0|].
  exists (k `max` k'). constructor.
  - eapply reify_mono; [|exact Hk]. lia.
  - eapply Forall2_impl; [exact IH|]. simpl. intros r' t' H.
    eapply reify_mono; [|exact H]. lia.
Qed.

Lemma closed_node h r o cs tcs :
  h !! r = Some o -> o_children o = Some cs ->
  Forall2 (closed h) cs tcs -> closed h r (tree_of o (Some tcs)).
Proof.
  intros Hr Hc Hcs. destruct (closed_all_fuel _ _ _ Hcs) as [k Hk].
  exists (S k). simpl. rewrite Hr, Hc.
  by rewrite (mapM_Some_2 _ _ _ Hk).
Qed.

Lemma closed_leaf h r o :
  h !! r = Some o -> o_children o = None -> closed h r (tree_of o None).
Proof. intros Hr Hc. exists 1. simpl. by rewrite Hr, Hc. Qed.

(** ** The stack is the right spine of the forest *)

Lemma Forall2_impl_Forall {A B} (P Q : A -> B -> Prop) (R : A -> Prop) l k :
  Forall2 P l k -> Forall R l ->
  (forall x y, R x -> P x y -> Q x y) -> Forall2 Q l k.
Proof.
  intros HP HR Himp. induction HP as [|x y l k Hxy _ IH]; [constructor|].
  inversion HR; subst. constructor; auto.
Qed.

Lemma spine_close h sp rs ts : spine h sp rs ts -> Forall2 (closed h) rs ts.
Proof.
  revert rs ts. induction sp as [|r sp IH]; intros rs ts; simpl; [done|].
  intros (rs0 & ts0 & o & cs & tcs & -> & -> & H0 & Hr & Hc & _ & Hsp).
  apply Forall2_app.
  - eapply Forall2_impl; [exact H0|]. intros x y. apply closed_take.
  - constructor; [|constructor]. eapply closed_node; eauto.
Qed.

Lemma spine_pop h sp sp2 rs ts : spine h (sp ++ sp2) rs ts -> spine h sp rs ts.
Proof.
  revert rs ts. induction sp as [|r sp IH]; intros rs ts; simpl.
  - apply spine_close.
  - intros (rs0 & ts0 & o & cs & tcs & -> & -> & H0 & Hr & Hc & Hlt & Hsp).
    exists rs0, ts0, o, cs, tcs. repeat split; try done.
    + apply Forall_app in Hlt. tauto.
    + by apply IH.
Qed.

Lemma spine_valid h sp rs ts :
  spine h sp rs ts ->
  Forall (fun r => exists o cs, h !! r = Some o /\ o_children o = Some cs) sp.
Proof.
  revert rs ts. induction sp as [|r sp IH]; intros rs ts; simpl; [constructor|].
  intros (rs0 & ts0 & o & cs & tcs & -> & -> & H0 & Hr & Hc & _ & Hsp).
  constructor; eauto.
Qed.

Lemma spine_refs_lt h sp rs ts :
  spine h sp rs ts -> Forall (fun r => r < length h) rs.
Proof.
  intros H. apply spine_close in H.
  induction H as [|r t rs ts Hrt _ IH]; constructor; [|done].
  by eapply closed_lt.
Qed.

Lemma forest_labels_app f g : forest_labels (f ++ g) = forest_labels f ++ forest_labels g.
Proof. unfold forest_labels, forest_nodes. by rewrite flat_map_app, map_app. Qed.

Lemma forest_labels_node o tcs :
  forest_labels [tree_of o (Some tcs)] = olabel o :: forest_labels tcs.
Proof.
  unfold forest_labels, forest_nodes. simpl. by rewrite app_nil_r.
Qed.

Lemma forest_labels_leaf o ch :
  ch = None \/ ch = Some [] -> forest_labels [tree_of o ch] = [olabel o].
Proof. by intros [-> | ->]. Qed.

(** The new object [n], appended to the heap and to the list [rs]. *)
Lemma spine_new_leaf hmid rs ts on (pushed : bool) :
  Forall2 (closed hmid) rs ts ->
  o_children on = (if pushed then Some [] else None) ->
  spine (hmid ++ [on]) (if pushed then [length hmid] else [])
        (rs ++ [length hmid]) (ts ++ [tree_of on (born pushed)]).
Proof.
  intros Hrs Hon.
  assert (Hn : (hmid ++ [on]) !! length hmid = Some on).
  { by rewrite list_lookup_middle. }
  destruct pushed; simpl.
  - exists rs, ts, on, [], []. repeat split; try done.
    by rewrite take_app_length.
  - apply Forall2_app.
    + eapply Forall2_impl; [exact Hrs|]. intros x y. apply closed_app.
    + constructor; [|constructor]. by apply closed_leaf.
Qed.

Lemma tree_of_push_child n o ch : tree_of (push_child n o) ch = tree_of o ch.
Proof. reflexivity. Qed.

(** Attaching the new object [n = length h] under the open folder [s] at
    the top of the stack. *)
Lemma spine_attach_under h on (pushed : bool) s :
  heap_ordered h ->
  o_children on = (if pushed then Some [] else None) ->
  forall sp rs ts,
    spine h sp rs ts -> last sp = Some s ->
    exists ts',
      spine (alter (push_child (length h)) s h ++ [on])
            (sp ++ (if pushed then [length h] else [])) rs ts'
      /\ forest_labels ts' = forest_labels ts ++ [olabel on].
Proof.
  intros Hord Hon. set (n := length h).
  set (h' := alter (push_child n) s h ++ [on]).
  induction sp as [|r sp IH]; intros rs ts Hsp Hlast; [discriminate|].
  simpl in Hsp.
  destruct Hsp as (rs0 & ts0 & o & cs & tcs & -> & -> & H0 & Hr & Hc & Hlt & Hsp).
  pose proof (lookup_lt_Some _ _ _ Hr) as Hrn.
  destruct sp as [|r' sp'].
  - (* [r] is the top of the stack *)
    injection Hlast as ->. simpl in Hsp.
    assert (Hmid : Forall2 (closed (alter (push_child n) s h)) cs tcs).
    { eapply Forall2_impl_Forall; [exact Hsp|exact (Hord s o cs Hr Hc)|].
      intros c t [Hsc _] Hct. by apply closed_alter_below. }
    pose proof (spine_new_leaf _ _ _ on pushed Hmid Hon) as Hnew.
    rewrite length_alter in Hnew. fold n h' in Hnew.
    exists (ts0 ++ [tree_of o (Some (tcs ++ [tree_of on (born pushed)]))]).
    split.
    + simpl. exists rs0, ts0, (push_child n o), (cs ++ [n]),
        (tcs ++ [tree_of on (born pushed)]).
      repeat split; try done.
      * unfold h'. rewrite take_app_le by (rewrite length_alter; lia).
        by rewrite take_alter_ge by lia.
      * unfold h'. rewrite lookup_app_l by (rewrite length_alter; lia).
        by rewrite list_lookup_alter_eq, Hr.
      * simpl. by rewrite Hc.
      * destruct pushed; repeat constructor. exact Hrn.
    + rewrite !forest_labels_app, !forest_labels_node, forest_labels_app.
      rewrite (forest_labels_leaf on (born pushed)) by (destruct pushed; auto).
      by rewrite <- app_assoc.
  - (* [r] lies below the top *)
    assert (Hrs : r < s).
    { rewrite Forall_forall in Hlt. apply Hlt.
      change (last (r :: r' :: sp')) with (last (r' :: sp')) in Hlast.
      by apply last_Some_elem_of. }
    change (last (r :: r' :: sp')) with (last (r' :: sp')) in Hlast.
    destruct (IH cs tcs Hsp Hlast) as (tcs' & Hsp' & Hlab).
    exists (ts0 ++ [tree_of o (Some tcs')]). split.
    + simpl. exists rs0, ts0, o, cs, tcs'. repeat split; try done.
      * unfold h'. rewrite take_app_le by (rewrite length_alter; lia).
        by rewrite take_alter_ge by lia.
      * unfold h'. rewrite lookup_app_l by (rewrite length_alter; lia).
        by rewrite list_lookup_alter_ne by lia.
      * rewrite app_comm_cons. apply Forall_app. split; [exact Hlt|].
        destruct pushed; repeat constructor. exact Hrn.
    + rewrite !forest_labels_app, !forest_labels_node, Hlab.
      by rewrite <- app_assoc.
Qed.

(** ** One turn of the loop keeps the invariant *)

Lemma pop_frames_suffix d s : exists popped, s = popped ++ pop_frames d s.
Proof.
  induction s as [|f s [popped IH]]; simpl; [by exists []|].
  destruct (Qle_bool d (depth f)).
  - exists (f :: popped). simpl. by rewrite <- IH.
  - by exists [].
Qed.

Lemma heap_ordered_app h on :
  heap_ordered h ->
  (forall cs, o_children on = Some cs -> cs = []) ->
  heap_ordered (h ++ [on]).
Proof.
  intros Hord Hon r o cs Hr Hc. rewrite length_app. simpl.
  destruct (decide (r < length h)) as [Hlt|Hge].
  - rewrite lookup_app_l in Hr by done.
    eapply Forall_impl; [exact (Hord r o cs Hr Hc)|]. simpl. lia.
  - rewrite lookup_app_r in Hr by lia.
    apply list_lookup_singleton_Some in Hr as [_ <-].
    rewrite (Hon cs Hc). constructor.
Qed.

Lemma heap_ordered_attach h s on :
  heap_ordered h -> s < length h ->
  (forall cs, o_children on = Some cs -> cs = []) ->
  heap_ordered (alter (push_child (length h)) s h ++ [on]).
Proof.
  intros Hord Hs Hon r o cs Hr Hc.
  rewrite length_app, length_alter. simpl.
  destruct (decide (r < length h)) as [Hlt|Hge].
  - rewrite lookup_app_l in Hr by (by rewrite length_alter).
    destruct (decide (s = r)) as [<-|Hne].
    + rewrite list_lookup_alter_eq in Hr.
      destruct (h !! s) as [os|] eqn:Hos; [|discriminate]. injection Hr as <-.
      simpl in Hc. destruct (o_children os) as [cs0|] eqn:Hc0; [|discriminate].
      injection Hc as <-. apply Forall_app. split.
      * eapply Forall_impl; [exact (Hord s os cs0 Hos Hc0)|]. simpl. lia.
      * repeat constructor; lia.
    + rewrite list_lookup_alter_ne in Hr by done.
      eapply Forall_impl; [exact (Hord r o cs Hr Hc)|]. simpl. lia.
  - rewrite lookup_app_r in Hr by (rewrite length_alter; lia).
    apply list_lookup_singleton_Some in Hr as [_ <-].
    rewrite (Hon cs Hc). constructor.
Qed.

Lemma attach_normal h o res top below os cs :
  h !! node top = Some os -> o_children os = Some cs ->
  attach (length h) (mkState (h ++ [o]) res (top :: below))
  = mkState (alter (push_child (length h)) (node top) h ++ [set_parent (o_id os) o])
            res (top :: below).
Proof.
  intros Hr Hc. unfold attach. simpl.
  rewrite (lookup_app_l_Some _ _ _ _ Hr), Hc. f_equal.
  pose proof (lookup_lt_Some _ _ _ Hr) as Hlt.
  rewrite alter_app_l by done.
  rewrite <- (length_alter (push_child (length h)) h (node top)) at 1.
  rewrite <- (Nat.add_0_r (length (alter _ _ h))).
  by rewrite alter_app_r.
Qed.

Lemma newNode_children gen_id line :
  o_children (newNode gen_id line)
  = if isFolder line (line_name line) then Some [] else None.
Proof. unfold newNode. simpl. by destruct (isFolder _ _). Qed.

Lemma contributes_spec line :
  contributes line = true ->
  is_root_label line = false /\ bool_decide (line_name line = []) = false.
Proof.
  unfold contributes. intros H. apply andb_true_iff in H as [H1 H2].
  by rewrite negb_true_iff in H1, H2.
Qed.

Lemma process_line_skip gen st line :
  contributes line = false -> process_line gen st line = st.
Proof.
  unfold contributes, process_line. intros H.
  destruct (is_root_label line); [done|].
  by destruct (bool_decide (line_name line = [])).
Qed.

Lemma process_line_invariant gen st forest line :
  invariant st forest -> contributes line = true ->
  exists forest',
    invariant (process_line gen st line) forest'
    /\ forest_labels forest'
       = forest_labels forest ++ [olabel (newNode (gen (length (heap st))) line)].
Proof.
  intros (Hord & Hsp & Hlab) Hline.
  destruct (contributes_spec line Hline) as [Hroot Hname].
  unfold process_line. rewrite Hroot, Hname.
  set (d := line_depth line). set (n := length (heap st)).
  set (o := newNode (gen n) line).
  pose proof (newNode_children (gen n) line) as Hoc. fold o in Hoc.
  set (pushed := isFolder line (line_name line)) in *.
  destruct (pop_frames_suffix d (stack st)) as [popped Hpop].
  assert (Hsp1 : spine (heap st) (rev (map node (pop_frames d (stack st))))
                   (result st) forest).
  { rewrite Hpop, map_app, rev_app_distr in Hsp. by apply spine_pop in Hsp. }
  destruct (pop_frames d (stack st)) as [|top below] eqn:Epop.
  - (* no open folder is left: a new root *)
    exists (forest ++ [tree_of o (born pushed)]).
    pose proof (spine_new_leaf (heap st) (result st) forest o pushed Hsp1 Hoc) as Hnew.
    assert (Hord' : heap_ordered (heap st ++ [o])).
    { apply heap_ordered_app; [done|]. intros cs. rewrite Hoc.
      destruct pushed; congruence. }
    assert (Hlab' : forest_labels (forest ++ [tree_of o (born pushed)])
                    = map olabel (heap st ++ [o])).
    { rewrite forest_labels_app, map_app, Hlab.
      by rewrite forest_labels_leaf by (destruct pushed; auto). }
    split; [|by rewrite forest_labels_app,
               forest_labels_leaf by (destruct pushed; auto)].
    unfold attach. simpl. destruct pushed; simpl; repeat split; done.
  - (* attached under the folder of the top frame *)
    pose proof (spine_valid _ _ _ _ Hsp1) as Hval.
    simpl in Hval, Hsp1. apply Forall_app in Hval as [_ Hval].
    inversion Hval as [|? ? (os & cs & Hos & Hcs) _]; subst.
    rewrite (attach_normal _ o _ top below os cs Hos Hcs).
    set (o' := set_parent (o_id os) o).
    assert (Hoc' : o_children o' = if pushed then Some [] else None) by exact Hoc.
    destruct (spine_attach_under (heap st) o' pushed (node top) Hord Hoc'
                _ _ _ Hsp1) as (forest' & Hsp' & Hlab').
    { by rewrite last_snoc. }
    exists forest'. split; [|exact Hlab'].
    assert (Hord' : heap_ordered
                      (alter (push_child (length (heap st))) (node top) (heap st) ++ [o'])).
    { apply heap_ordered_attach; [done|by eapply lookup_lt_Some|].
      intros cs0. rewrite Hoc'. destruct pushed; congruence. }
    assert (Hl : forest_labels forest'
                 = map olabel (alter (push_child (length (heap st))) (node top) (heap st) ++ [o'])).
    { rewrite Hlab', Hlab, map_app. f_equal.
      clear. generalize (node top). intros s.
      apply list_eq. intros i. rewrite !list_lookup_fmap.
      destruct (decide (s = i)) as [<-|Hne].
      - rewrite list_lookup_alter_eq. by destruct (heap st !! s).
      - by rewrite list_lookup_alter_ne. }
    destruct pushed; simpl; repeat split; try done.
    by rewrite <- app_assoc in Hsp'.
Qed.

Lemma invariant_init : invariant init_state [].
Proof.
  split; [|split].
  - intros r o cs Hr. simpl in Hr. by rewrite lookup_nil in Hr.
  - simpl. constructor.
  - reflexivity.
Qed.

Lemma invariant_heap_length st forest :
  invariant st forest -> length (heap st) = length (forest_nodes forest).
Proof.
  intros (_ & _ & Hlab).
  apply (f_equal length) in Hlab. unfold forest_labels in Hlab.
  by rewrite !length_map in Hlab.
Qed.

Lemma run_lines_invariant gen lines st forest :
  invariant st forest ->
  exists forest',
    invariant (run_lines gen lines st) forest'
    /\ forest_labels forest'
       = forest_labels forest
         ++ imap (fun k line => olabel (newNode (gen (length (heap st) + k)) line))
              (List.filter contributes lines).
Proof.
  revert st forest. induction lines as [|line lines IH]; intros st forest Hinv.
  - exists forest. split; [done|]. simpl. by rewrite app_nil_r.
  - simpl. destruct (contributes line) eqn:Hline.
    + destruct (process_line_invariant gen st forest line Hinv Hline)
        as (forest1 & Hinv1 & Hlab1).
      destruct (IH _ _ Hinv1) as (forest' & Hinv' & Hlab').
      exists forest'. split; [exact Hinv'|].
      rewrite Hlab', Hlab1, <- app_assoc. f_equal. simpl.
      rewrite Nat.add_0_r. f_equal.
      apply imap_ext. intros k l _. simpl.
      assert (Hlen : length (heap (process_line gen st line)) = S (length (heap st))).
      { rewrite (invariant_heap_length _ _ Hinv1), (invariant_heap_length _ _ Hinv).
        apply (f_equal length) in Hlab1. unfold forest_labels in Hlab1.
        rewrite length_app, !length_map in Hlab1. simpl in Hlab1. lia. }
      rewrite Hlen. do 3 f_equal. lia.
    + rewrite (process_line_skip gen st line Hline). by apply IH.
Qed.

Lemma invariant_reify st forest :
  invariant st forest -> reify_all (heap st) (result st) = Some forest.
Proof.
  intros (Hord & Hsp & _). apply spine_close in Hsp.
  apply mapM_Some_2. eapply Forall2_impl; [exact Hsp|].
  intros r t. by apply closed_reify.
Qed.

(** ** C5: the parser is total *)

(** C5: [parseStructure] returns a forest for every text, and the nodes of
    that forest, read in pre-order, are exactly the nodes of the lines that
    pass the two skip tests, one node per line and in the order of the
    lines; every other line adds nothing. *)
Theorem parse_is_total (gen : nat -> jstring) (text : jstring) :
  exists forest,
    parseStructure gen text = Some forest
    /\ forest_labels forest
       = imap (fun k line => olabel (newNode (gen k) line)) (node_lines text)
    /\ length (forest_nodes forest) = length (node_lines text)
    /\ forall st line, contributes line = false -> process_line gen st line = st.
Proof.
  destruct (run_lines_invariant gen (input_lines text) init_state [] invariant_init)
    as (forest & Hinv & Hlab).
  exists forest. simpl in Hlab.
  split; [by apply invariant_reify|].
  split; [exact Hlab|].
  split.
  - apply (f_equal length) in Hlab. unfold forest_labels in Hlab.
    by rewrite length_map, length_imap in Hlab.
  - intros st line. apply process_line_skip.
Qed.

Lemma parse_is_total_witness :
  process_line sample_gen init_state (u "app/") = init_state.
Proof.
  destruct (parse_is_total sample_gen listing) as (forest & _ & _ & _ & Hskip).
  apply Hskip. reflexivity.
Defined.

(** ** The state after one line *)

Lemma invariant_stack_valid st forest :
  invariant st forest ->
  Forall (fun f => exists o cs, heap st !! node f = Some o /\ o_children o = Some cs)
         (stack st).
Proof.
  intros (_ & Hsp & _). apply spine_valid in Hsp.
  rewrite Forall_forall in Hsp. apply Forall_forall. intros f Hf.
  apply Hsp. apply list_elem_of_In. rewrite <- in_rev. apply in_map.
  by apply list_elem_of_In.
Qed.

Lemma invariant_stack_lt st forest :
  invariant st forest -> Forall (fun f => node f < length (heap st)) (stack st).
Proof.
  intros H. eapply Forall_impl; [exact (invariant_stack_valid _ _ H)|].
  simpl. intros f (o & cs & Ho & _). by eapply lookup_lt_Some.
Qed.

Lemma pop_frames_sublist d s f : f ∈ pop_frames d s -> f ∈ s.
Proof.
  destruct (pop_frames_suffix d s) as [popped E]. intros H.
  rewrite E. apply elem_of_app. by right.
Qed.

Lemma process_line_shape gen st forest line :
  invariant st forest -> contributes line = true ->
  let n := length (heap st) in
  let o := newNode (gen n) line in
  let d := line_depth line in
  let pushed := isFolder line (line_name line) in
  match pop_frames d (stack st) with
  | [] =>
      process_line gen st line
      = mkState (heap st ++ [o]) (result st ++ [n]) (frames_for pushed n d)
  | top :: below =>
      exists os cs,
        heap st !! node top = Some os /\ o_children os = Some cs
        /\ process_line gen st line
           = mkState (alter (push_child n) (node top) (heap st)
                        ++ [set_parent (o_id os) o])
                     (result st) (frames_for pushed n d ++ top :: below)
  end.
Proof.
  intros Hinv Hline n o d pushed.
  destruct (contributes_spec line Hline) as [Hroot Hname].
  unfold process_line. rewrite Hroot, Hname. fold n o d pushed.
  destruct (pop_frames d (stack st)) as [|top below] eqn:Epop.
  - unfold attach. simpl. by destruct pushed.
  - pose proof (invariant_stack_valid _ _ Hinv) as Hval.
    rewrite Forall_forall in Hval.
    destruct (Hval top) as (os & cs & Hos & Hcs).
    { apply (pop_frames_sublist d). rewrite Epop. left. }
    exists os, cs. split; [done|]. split; [done|].
    rewrite (attach_normal _ o _ top below os cs Hos Hcs).
    by destruct pushed.
Qed.

Lemma lookup_attached_old h s on r o :
  h !! r = Some o ->
  (alter (push_child (length h)) s h ++ [on]) !! r
  = Some (if decide (s = r) then push_child (length h) o else o).
Proof.
  intros Hr. pose proof (lookup_lt_Some _ _ _ Hr) as Hlt.
  rewrite lookup_app_l by (by rewrite length_alter).
  destruct (decide (s = r)) as [->|Hne].
  - by rewrite list_lookup_alter_eq, Hr.
  - by rewrite list_lookup_alter_ne.
Qed.

Lemma lookup_attached_inv h s on r o' :
  (alter (push_child (length h)) s h ++ [on]) !! r = Some o' ->
  (exists o, h !! r = Some o /\ o' = if decide (s = r) then push_child (length h) o else o)
  \/ (r = length h /\ o' = on).
Proof.
  intros Hr. destruct (decide (r < length h)) as [Hlt|Hge].
  - left. destruct (lookup_lt_is_Some_2 h r Hlt) as [o Ho]. exists o.
    split; [done|]. rewrite (lookup_attached_old h s on r o Ho) in Hr. congruence.
  - right. rewrite lookup_app_r in Hr by (rewrite length_alter; lia).
    rewrite length_alter in Hr.
    apply list_lookup_singleton_Some in Hr as [Hr <-]. split; [lia|done].
Qed.

Lemma lookup_app_inv (h : list obj) on r o' :
  (h ++ [on]) !! r = Some o' ->
  h !! r = Some o' \/ (r = length h /\ o' = on).
Proof.
  intros Hr. destruct (decide (r < length h)) as [Hlt|Hge].
  - left. by rewrite lookup_app_l in Hr.
  - right. rewrite lookup_app_r in Hr by lia.
    apply list_lookup_singleton_Some in Hr as [Hr <-]. split; [lia|done].
Qed.

Lemma elem_of_frames_for pushed n d f : f ∈ frames_for pushed n d -> node f = n.
Proof.
  destruct pushed; simpl; [|by intros ?%elem_of_nil].
  by intros ->%list_elem_of_singleton.
Qed.

Lemma newNode_children_cases new_id line cs :
  o_children (newNode new_id line) = Some cs -> cs = [].
Proof. rewrite newNode_children. destruct (isFolder _ _); congruence. Qed.

Lemma process_line_invariant_any gen st forest line :
  invariant st forest -> exists forest', invariant (process_line gen st line) forest'.
Proof.
  intros Hinv. destruct (contributes line) eqn:Hline.
  - destruct (process_line_invariant gen st forest line Hinv Hline) as (f' & H & _).
    by exists f'.
  - rewrite (process_line_skip gen st line Hline). by exists forest.
Qed.

(** What one contributing line does to the state. *)
Lemma process_line_summary gen st forest line :
  invariant st forest -> contributes line = true ->
  let n := length (heap st) in
  let d := line_depth line in
  let pushed := isFolder line (line_name line) in
  let P := pop_frames d (stack st) in
  let st' := process_line gen st line in
  exists on,
    stack st' = frames_for pushed n d ++ P
    /\ length (heap st') = S n
    /\ heap st' !! n = Some on
    /\ o_name on = line_name line /\ o_id on = gen n
    /\ o_children on = (if pushed then Some [] else None)
    /\ o_parent on = match P with
                     | top :: _ => o_id <$> heap st !! node top
                     | [] => None
                     end
    /\ (forall r o, heap st !! r = Some o ->
          heap st' !! r
          = Some match P with
                 | top :: _ => if decide (node top = r) then push_child n o else o
                 | [] => o
                 end)
    /\ result st' = match P with
                    | [] => result st ++ [n]
                    | _ :: _ => result st
                    end.
Proof.
  intros Hinv Hline n d pushed P st'.
  pose proof (process_line_shape gen st forest line Hinv Hline) as Hshape.
  simpl in Hshape. fold n d pushed P in Hshape. unfold st'.
  pose proof (newNode_children (gen n) line) as Hoc. fold pushed in Hoc.
  destruct P as [|top below].
  - rewrite Hshape. exists (newNode (gen n) line). simpl.
    rewrite length_app, list_lookup_middle by done. simpl.
    repeat split; try done; try lia.
    + by rewrite app_nil_r.
    + intros r o Hr. by apply lookup_app_l_Some.
  - destruct Hshape as (os & cs & Hos & Hcs & ->).
    exists (set_parent (o_id os) (newNode (gen n) line)). simpl.
    rewrite length_app, length_alter.
    rewrite list_lookup_middle by (by rewrite length_alter). simpl.
    repeat split; try done; try lia.
    + by rewrite Hos.
    + intros r o Hr. by apply lookup_attached_old.
Qed.

(** ** C10: the depths on the stack *)



Lemma pop_frames_split d s :
  exists popped,
    s = popped ++ pop_frames d s /\ Forall (fun f => (d <= depth f)%Q) popped.
Proof.
  induction s as [|f s (popped & IH & Hall)]; simpl; [by exists []|].
  destruct (Qle_bool d (depth f)) eqn:E.
  - exists (f :: popped). split; [simpl; by rewrite <- IH|].
    constructor; [by apply Qle_bool_iff|done].
  - by exists [].
Qed.

Lemma pop_frames_all_below d s :
  stack_increasing s -> Forall (fun f => (depth f < d)%Q) (pop_frames d s).
Proof.
  intros Hs. pose proof (pop_frames_increasing d s Hs) as Hinc.
  destruct (pop_frames d s) as [|top below] eqn:E; [constructor|].
  pose proof (pop_frames_top d s top below E) as Htop.
  destruct Hinc as [Hall _]. constructor; [done|].
  eapply Forall_impl; [exact Hall|]. simpl. intros f Hf.
  eapply Qlt_trans; eassumption.
Qed.

Lemma Forall2_exists {A B} (P : A -> B -> Prop) (l : list A) :
  Forall (fun x => exists y, P x y) l -> exists k, Forall2 P l k.
Proof.
  induction 1 as [|x l [y Hy] _ [k IH]]; [by exists []|].
  exists (y :: k). by constructor.
Qed.

Lemma reify_total h :
  heap_ordered h -> forall m r, length h - r <= m -> r < length h ->
  exists t, closed h r t.
Proof.
  intros Hord. induction m as [|m IH]; intros r Hm Hr; [lia|].
  destruct (lookup_lt_is_Some_2 h r Hr) as [o Ho].
  destruct (o_children o) as [cs|] eqn:Hc.
  - assert (Hts : exists ts, Forall2 (closed h) cs ts).
    { apply Forall2_exists.
      eapply Forall_impl; [exact (Hord r o cs Ho Hc)|]. simpl.
      intros c Hc'. apply IH; lia. }
    destruct Hts as [ts Hts]. exists (tree_of o (Some ts)).
    by eapply closed_node.
  - exists (tree_of o None). by apply closed_leaf.
Qed.

Lemma closed_obj h r t o :
  closed h r t -> h !! r = Some o ->
  name t = o_name o /\ id t = o_id o /\ parent t = o_parent o.
Proof.
  intros [[|k] Hk] Ho; [discriminate|]. simpl in Hk. rewrite Ho in Hk.
  destruct (o_children o); [destruct (mapM _ _)|]; by simplify_eq.
Qed.

Lemma run_lines_app gen l1 l2 st :
  run_lines gen (l1 ++ l2) st = run_lines gen l2 (run_lines gen l1 st).
Proof. unfold run_lines. by rewrite fold_left_app. Qed.

(** ** C9: the exported document reads back as the same forest *)

Lemma hex_value_digit n : (n < 16)%N -> hex_value (hex_digit n) = Some n.
Proof.
  intros H. destruct n as [|p]; [reflexivity|].
  do 4 (destruct p as [p|p|]; try reflexivity; try (exfalso; lia)).
Qed.

Lemma hex4_digits c :
  (c < 65536)%N ->
  hex4 (hex_digit (c / 4096)) (hex_digit ((c / 256) mod 16))
       (hex_digit ((c / 16) mod 16)) (hex_digit (c mod 16)) = Some c.
Proof.
  intros Hc. unfold hex4.
  rewrite !hex_value_digit;
    try (apply N.mod_lt; lia);
    try (apply N.Div0.div_lt_upper_bound; lia).
  f_equal.
  pose proof (N.div_mod c 16 ltac:(lia)) as E1.
  pose proof (N.div_mod (c / 16) 16 ltac:(lia)) as E2.
  pose proof (N.div_mod (c / 256) 16 ltac:(lia)) as E3.
  replace (c / 16 / 16)%N with (c / 256)%N in E2
    by (by rewrite N.Div0.div_div).
  replace (c / 256 / 16)%N with (c / 4096)%N in E3
    by (by rewrite N.Div0.div_div).
  assert (E4 : ((c / 4096) mod 16 = c / 4096)%N).
  { apply N.mod_small. apply N.Div0.div_lt_upper_bound; lia. }
  lia.
Qed.

Lemma read_string_cons c s1 :
  read_string (c :: s1)
  = if (c =? DQUOTE)%N then Some ([], s1)
    else if (c =? BACKSLASH)%N then
      match s1 with
      | [] => None
      | e :: s2 =>
          if (e =? 117)%N then
            match s2 with
            | h1 :: h2 :: h3 :: h4 :: s6 =>
                match hex4 h1 h2 h3 h4 with
                | Some x => cons_result x (read_string s6)
                | None => None
                end
            | _ => None
            end
          else
            match unescape e with
            | Some x => cons_result x (read_string s2)
            | None => None
            end
      end
    else if (c <? 32)%N then None
    else cons_result c (read_string s1).
Proof. reflexivity. Qed.

Lemma read_string_raw c s1 :
  (32 <= c)%N -> c <> DQUOTE -> c <> BACKSLASH ->
  read_string (c :: s1) = cons_result c (read_string s1).
Proof.
  intros H32 Hq Hb. rewrite read_string_cons.
  apply N.eqb_neq in Hq, Hb. rewrite Hq, Hb.
  by rewrite (proj2 (N.ltb_ge c 32) H32).
Qed.

Lemma read_string_unicode_escape c X :
  (c < 65536)%N ->
  read_string (unicode_escape c ++ X) = cons_result c (read_string X).
Proof.
  intros Hc. unfold unicode_escape.
  change (read_string ([BACKSLASH; 117%N; ?a; ?b; ?d; ?e] ++ X))
    with (match hex4 a b d e with
          | Some x => cons_result x (read_string X)
          | None => None
          end).
  by rewrite hex4_digits.
Qed.

Lemma read_string_quote_unit c X :
  read_string (quote_unit c ++ X) = cons_result c (read_string X).
Proof.
  unfold quote_unit.
  destruct (c =? 8)%N eqn:E8; [apply N.eqb_eq in E8 as ->; reflexivity|].
  destruct (c =? 9)%N eqn:E9; [apply N.eqb_eq in E9 as ->; reflexivity|].
  destruct (c =? 10)%N eqn:E10; [apply N.eqb_eq in E10 as ->; reflexivity|].
  destruct (c =? 12)%N eqn:E12; [apply N.eqb_eq in E12 as ->; reflexivity|].
  destruct (c =? 13)%N eqn:E13; [apply N.eqb_eq in E13 as ->; reflexivity|].
  destruct (c =? DQUOTE)%N eqn:Eq; [apply N.eqb_eq in Eq as ->; reflexivity|].
  destruct (c =? BACKSLASH)%N eqn:Eb; [apply N.eqb_eq in Eb as ->; reflexivity|].
  apply N.eqb_neq in Eq, Eb.
  destruct ((c <? 32)%N || is_lead c || is_trail c) eqn:Ee.
  - apply read_string_unicode_escape.
    unfold is_lead, is_trail in Ee.
    apply orb_true_iff in Ee as [Ee|Ee]; [apply orb_true_iff in Ee as [Ee|Ee]|].
    + apply N.ltb_lt in Ee. lia.
    + apply andb_true_iff in Ee as [_ Ee]. apply N.leb_le in Ee. lia.
    + apply andb_true_iff in Ee as [_ Ee]. apply N.leb_le in Ee. lia.
  - apply orb_false_iff in Ee as [Ee _]. apply orb_false_iff in Ee as [Ee _].
    apply N.ltb_ge in Ee. by apply read_string_raw.
Qed.

Lemma surrogate_raw c : is_lead c = true \/ is_trail c = true ->
  (32 <= c)%N /\ c <> DQUOTE /\ c <> BACKSLASH.
Proof.
  unfold is_lead, is_trail, DQUOTE, BACKSLASH.
  intros [H|H]; apply andb_true_iff in H as [H _]; apply N.leb_le in H; lia.
Qed.

Lemma read_string_quote_body_bounded n s rest :
  length s <= n ->
  read_string (quote_body s ++ DQUOTE :: rest) = Some (s, rest).
Proof.
  revert s. induction n as [|n IH]; intros s Hlen.
  - destruct s; [reflexivity|simpl in Hlen; lia].
  - destruct s as [|c s1]; [reflexivity|]. simpl in Hlen.
    assert (Hplain : read_string ((quote_unit c ++ quote_body s1) ++ DQUOTE :: rest)
                     = Some (c :: s1, rest)).
    { rewrite <- app_assoc, read_string_quote_unit, IH by lia. reflexivity. }
    simpl quote_body. destruct (is_lead c) eqn:Hl; [|exact Hplain].
    destruct s1 as [|d s2].
    + rewrite read_string_quote_unit. reflexivity.
    + destruct (is_trail d) eqn:Ht; [|exact Hplain].
      destruct (surrogate_raw c (or_introl Hl)) as (Hc1 & Hc2 & Hc3).
      destruct (surrogate_raw d (or_intror Ht)) as (Hd1 & Hd2 & Hd3).
      simpl app. rewrite read_string_raw by done.
      rewrite read_string_raw by done.
      simpl in Hlen. rewrite IH by lia. reflexivity.
Qed.

Lemma read_string_quote_body s rest :
  read_string (quote_body s ++ DQUOTE :: rest) = Some (s, rest).
Proof. by apply (read_string_quote_body_bounded (length s)). Qed.

Lemma skip_ws_app ws s :
  Forall (fun c => is_json_ws c = true) ws -> skip_ws (ws ++ s) = skip_ws s.
Proof.
  induction 1 as [|c ws Hc _ IH]; [done|]. simpl. by rewrite Hc.
Qed.

Lemma indent_ws level : Forall (fun c => is_json_ws c = true) (indent level).
Proof. unfold indent. apply Forall_replicate. reflexivity. Qed.

Lemma newline_indent_ws level :
  Forall (fun c => is_json_ws c = true) (LF :: indent level).
Proof. constructor; [reflexivity|apply indent_ws]. Qed.

Lemma read_value_skip fuel ws s :
  Forall (fun c => is_json_ws c = true) ws ->
  read_value fuel (ws ++ s) = read_value fuel s.
Proof.
  intros Hws. destruct fuel as [|k]; [done|]. simpl.
  by rewrite skip_ws_app.
Qed.

Lemma read_members_skip fuel ws s :
  Forall (fun c => is_json_ws c = true) ws ->
  read_members fuel (ws ++ s) = read_members fuel s.
Proof.
  intros Hws. destruct fuel as [|k]; [done|]. simpl.
  by rewrite skip_ws_app.
Qed.

Lemma read_elements_skip fuel ws s :
  Forall (fun c => is_json_ws c = true) ws ->
  read_elements fuel (ws ++ s) = read_elements fuel s.
Proof.
  intros Hws. destruct fuel as [|k]; [done|]. simpl.
  by rewrite read_value_skip.
Qed.

(** The first unit of the text of a value is no white space and closes
    nothing. *)
Lemma print_head level v :
  exists c s, print level v = c :: s
    /\ is_json_ws c = false /\ (c =? RBRACKET)%N = false /\ (c =? RBRACE)%N = false.
Proof.
  destruct v as [|[|]|str|[|e es]|[|m ms]]; simpl; eauto 10.
Qed.

Lemma skip_ws_closing c rest :
  is_json_ws c = false -> skip_ws (c :: rest) = c :: rest.
Proof. intros H. simpl. by rewrite H. Qed.

Lemma print_array_cons level e es :
  print level (JArray (e :: es))
  = [LBRACKET] ++ (LF :: indent (S level)) ++ print (S level) e
    ++ more_elements (S level) es ++ (LF :: indent level) ++ [RBRACKET].
Proof. reflexivity. Qed.

Lemma print_object_cons level m ms :
  print level (JObject (m :: ms))
  = [LBRACE] ++ (LF :: indent (S level))
    ++ member_text (fst m) (print (S level) (snd m))
    ++ more_members (S level) ms ++ (LF :: indent level) ++ [RBRACE].
Proof. reflexivity. Qed.

Lemma more_elements_cons level e es :
  more_elements level (e :: es)
  = [COMMA] ++ (LF :: indent level) ++ print level e ++ more_elements level es.
Proof.
  unfold more_elements, next_item. simpl. by rewrite <- !app_assoc.
Qed.

Lemma more_members_cons level m ms :
  more_members level (m :: ms)
  = [COMMA] ++ (LF :: indent level)
    ++ member_text (fst m) (print level (snd m)) ++ more_members level ms.
Proof.
  unfold more_members, next_item. cbn [flat_map app]. by rewrite <- !app_assoc.
Qed.

Lemma read_elements_step k s :
  read_elements (S k) s
  = match read_value k s with
    | None => None
    | Some (v, s1) =>
        match skip_ws s1 with
        | [] => None
        | c :: s2 =>
            if (c =? COMMA)%N then
              match read_elements k s2 with
              | Some (vs, s3) => Some (v :: vs, s3)
              | None => None
              end
            else if (c =? RBRACKET)%N then Some ([v], s2)
            else None
        end
    end.
Proof. reflexivity. Qed.

(** The elements of an array after its opening bracket. *)
Lemma read_elements_print level rest es :
  Forall reads_back es ->
  forall e ws fuel,
    reads_back e ->
    Forall (fun c => is_json_ws c = true) ws ->
    1 + length (print (S level) e) + length (more_elements (S level) es) <= fuel ->
    read_elements fuel
      (ws ++ print (S level) e ++ more_elements (S level) es
          ++ (LF :: indent level) ++ [RBRACKET] ++ rest)
    = Some (e :: es, rest).
Proof.
  induction 1 as [|e' es He' _ IH]; intros e ws fuel He Hws Hfuel.
  - destruct fuel as [|k]; [lia|].
    rewrite read_elements_skip by done.
    rewrite read_elements_step, He by lia.
    change (more_elements (S level) [] ++ ?x) with x.
    rewrite (skip_ws_app (LF :: indent level)) by apply newline_indent_ws.
    reflexivity.
  - destruct fuel as [|k]; [lia|].
    rewrite read_elements_skip by done.
    rewrite read_elements_step, He by lia.
    rewrite more_elements_cons in *. rewrite <- !app_assoc.
    change (skip_ws ([COMMA] ++ ?x)) with (COMMA :: x).
    change (COMMA =? COMMA)%N with true. cbv iota.
    rewrite !length_app in Hfuel. cbn [length] in Hfuel.
    rewrite (IH e' (LF :: indent (S level)) k He' (newline_indent_ws _)) by lia.
    reflexivity.
Qed.

Lemma read_members_step k s :
  read_members (S k) s
  = match skip_ws s with
    | [] => None
    | q :: s1 =>
        if (q =? DQUOTE)%N then
          match read_string s1 with
          | None => None
          | Some (key, s2) =>
              match skip_ws s2 with
              | [] => None
              | c :: s3 =>
                  if (c =? COLON)%N then
                    match read_value k s3 with
                    | None => None
                    | Some (v, s4) =>
                        match skip_ws s4 with
                        | [] => None
                        | e :: s5 =>
                            if (e =? COMMA)%N then
                              match read_members k s5 with
                              | Some (ms, s6) => Some ((key, v) :: ms, s6)
                              | None => None
                              end
                            else if (e =? RBRACE)%N then Some ([(key, v)], s5)
                            else None
                        end
                    end
                  else None
              end
          end
        else None
    end.
Proof. reflexivity. Qed.

Lemma member_text_app key text X :
  member_text key text ++ X
  = [DQUOTE] ++ quote_body key ++ DQUOTE :: [COLON] ++ [SPACE] ++ text ++ X.
Proof.
  unfold member_text, quote. rewrite <- !app_assoc. reflexivity.
Qed.

Lemma length_member_text key text :
  length text < length (member_text key text).
Proof.
  unfold member_text. rewrite !length_app. simpl. lia.
Qed.

(** The members of an object after its opening brace. *)
Lemma read_members_print level rest ms :
  Forall (fun m => reads_back (snd m)) ms ->
  forall m ws fuel,
    reads_back (snd m) ->
    Forall (fun c => is_json_ws c = true) ws ->
    1 + length (member_text (fst m) (print (S level) (snd m)))
      + length (more_members (S level) ms) <= fuel ->
    read_members fuel
      (ws ++ member_text (fst m) (print (S level) (snd m))
          ++ more_members (S level) ms
          ++ (LF :: indent level) ++ [RBRACE] ++ rest)
    = Some (m :: ms, rest).
Proof.
  induction 1 as [|m' ms Hm' _ IH]; intros [key v] ws fuel Hv Hws Hfuel;
    simpl fst in *; simpl snd in *.
  - destruct fuel as [|k]; [lia|].
    pose proof (length_member_text key (print (S level) v)) as Hlen.
    rewrite read_members_skip by done.
    rewrite read_members_step, member_text_app.
    change (skip_ws ([DQUOTE] ++ ?x)) with (DQUOTE :: x).
    change (DQUOTE =? DQUOTE)%N with true. cbv iota.
    rewrite read_string_quote_body.
    change (skip_ws ([COLON] ++ ?x)) with (COLON :: x).
    change (COLON =? COLON)%N with true. cbv iota.
    rewrite (read_value_skip k [SPACE]) by (by repeat constructor).
    rewrite Hv by lia.
    change (more_members (S level) [] ++ ?x) with x.
    rewrite (skip_ws_app (LF :: indent level)) by apply newline_indent_ws.
    reflexivity.
  - destruct fuel as [|k]; [lia|].
    pose proof (length_member_text key (print (S level) v)) as Hlen.
    rewrite read_members_skip by done.
    rewrite read_members_step, member_text_app.
    change (skip_ws ([DQUOTE] ++ ?x)) with (DQUOTE :: x).
    change (DQUOTE =? DQUOTE)%N with true. cbv iota.
    rewrite read_string_quote_body.
    change (skip_ws ([COLON] ++ ?x)) with (COLON :: x).
    change (COLON =? COLON)%N with true. cbv iota.
    rewrite (read_value_skip k [SPACE]) by (by repeat constructor).
    rewrite Hv by lia.
    rewrite more_members_cons in *. rewrite <- !app_assoc.
    change (skip_ws ([COMMA] ++ ?x)) with (COMMA :: x).
    change (COMMA =? COMMA)%N with true. cbv iota.
    rewrite !length_app in Hfuel. cbn [length] in Hfuel.
    rewrite (IH m' (LF :: indent (S level)) k Hm' (newline_indent_ws _)) by lia.
    reflexivity.
Qed.

Lemma read_value_step k s :
  read_value (S k) s
  = match skip_ws s with
    | [] => None
    | c :: s1 =>
        if (c =? DQUOTE)%N then
          match read_string s1 with
          | Some (str, s2) => Some (JString str, s2)
          | None => None
          end
        else if (c =? LBRACKET)%N then
          match skip_ws s1 with
          | [] => None
          | d :: s2 =>
              if (d =? RBRACKET)%N then Some (JArray [], s2)
              else match read_elements k s1 with
                   | Some (es, s3) => Some (JArray es, s3)
                   | None => None
                   end
          end
        else if (c =? LBRACE)%N then
          match skip_ws s1 with
          | [] => None
          | d :: s2 =>
              if (d =? RBRACE)%N then Some (JObject [], s2)
              else match read_members k s1 with
                   | Some (ms, s3) => Some (JObject ms, s3)
                   | None => None
                   end
          end
        else read_literal (c :: s1)
    end.
Proof. reflexivity. Qed.

Ltac decide_units :=
  repeat (cbv iota;
          match goal with
          | |- context [(?a =? ?b)%N] =>
              let r := eval vm_compute in (a =? b)%N in
              lazymatch r with
              | true => change (a =? b)%N with true
              | false => change (a =? b)%N with false
              end
          end);
  cbv iota.

Lemma skip_ws_print level v X :
  exists d s2,
    skip_ws (print level v ++ X) = d :: s2
    /\ (d =? RBRACKET)%N = false /\ (d =? RBRACE)%N = false.
Proof.
  destruct (print_head level v) as (c & s & Hc & Hws & Hnb & Hnc).
  exists c, (s ++ X). rewrite Hc. cbn [app]. by rewrite skip_ws_closing.
Qed.

(** Every value reads back from its text. *)
Lemma print_reads_back v : reads_back v.
Proof.
  induction v as [|b|str|es IHes|ms IHms] using json_ind;
    intros level rest fuel Hfuel.
  - destruct fuel as [|k]; [simpl in Hfuel; lia|]. reflexivity.
  - destruct fuel as [|k]; [destruct b; simpl in Hfuel; lia|].
    by destruct b.
  - destruct fuel as [|k]; [simpl in Hfuel; lia|].
    rewrite read_value_step. cbn [print]. unfold quote. rewrite <- !app_assoc.
    change (skip_ws ([DQUOTE] ++ ?x)) with (DQUOTE :: x). decide_units.
    change (quote_body str ++ [DQUOTE] ++ rest)
      with (quote_body str ++ DQUOTE :: rest).
    by rewrite read_string_quote_body.
  - destruct es as [|e es].
    { destruct fuel as [|k]; [simpl in Hfuel; lia|]. reflexivity. }
    inversion IHes as [|? ? He Hes]; subst.
    rewrite print_array_cons in *.
    destruct fuel as [|k]; [simpl in Hfuel; lia|].
    rewrite read_value_step. rewrite <- !app_assoc.
    change (skip_ws ([LBRACKET] ++ ?x)) with (LBRACKET :: x). decide_units.
    rewrite (skip_ws_app (LF :: indent (S level))) by apply newline_indent_ws.
    destruct (skip_ws_print (S level) e
                (more_elements (S level) es ++ (LF :: indent level) ++ [RBRACKET] ++ rest))
      as (d & s2 & -> & -> & _).
    rewrite !length_app in Hfuel. cbn [length] in Hfuel.
    rewrite (read_elements_print level rest es Hes e _ k He (newline_indent_ws _))
      by lia.
    reflexivity.
  - destruct ms as [|m ms].
    { destruct fuel as [|k]; [simpl in Hfuel; lia|]. reflexivity. }
    inversion IHms as [|? ? Hm Hms]; subst.
    rewrite print_object_cons in *.
    destruct fuel as [|k]; [simpl in Hfuel; lia|].
    rewrite read_value_step. rewrite <- !app_assoc.
    change (skip_ws ([LBRACE] ++ ?x)) with (LBRACE :: x). decide_units.
    rewrite (skip_ws_app (LF :: indent (S level))) by apply newline_indent_ws.
    rewrite member_text_app at 1.
    change (skip_ws ([DQUOTE] ++ ?x)) with (DQUOTE :: x). decide_units.
    pose proof (length_member_text (fst m) (print (S level) (snd m))) as Hlen.
    rewrite !length_app in Hfuel. cbn [length] in Hfuel.
    rewrite (read_members_print level rest ms Hms m _ k Hm (newline_indent_ws _))
      by lia.
    reflexivity.
Qed.

Lemma mapM_map_Some {A B} (f : B -> option A) (g : A -> B) (l : list A) :
  Forall (fun x => f (g x) = Some x) l -> mapM f (map g l) = Some l.
Proof.
  induction 1 as [|x l Hx _ IH]; [done|].
  change (mapM f (map g (x :: l)))
    with (y ← f (g x); k ← mapM f (map g l); mret (y :: k)).
  by rewrite Hx, IH.
Qed.

Lemma node_of_json_to_json t : node_of_json (to_json t) = Some t.
Proof.
  induction t as [i n t c ch p IH] using FileNode_ind.
  destruct ch as [cs|]; simpl in IH.
  - pose proof (mapM_map_Some node_of_json to_json cs IH) as Hcs.
    destruct c, p, t; simpl; rewrite Hcs; reflexivity.
  - destruct c, p, t; reflexivity.
Qed.

Lemma stringify_reads_back f :
  JSON_parse (JSON_stringify f) = Some (forest_to_json f).
Proof.
  unfold JSON_parse, JSON_stringify.
  pose proof (print_reads_back (forest_to_json f) 0 []
                (S (length (print 0 (forest_to_json f)))) ltac:(lia)) as H.
  rewrite app_nil_r in H. by rewrite H.
Qed.

(** C9: a forest returned by [parseStructure], written as the JSON document
    of [JSON.stringify(fileTree, null, 2)] and read back, is the same
    forest: the same nodes with the same ids, names, kinds, contents and
    parents, the same children in the same order at every level. The
    document parses to the value that was written. *)
Theorem export_round_trip (gen : nat -> jstring) (text : jstring) (forest : list FileNode) :
  parseStructure gen text = Some forest ->
  JSON_parse (JSON_stringify forest) = Some (forest_to_json forest)
  /\ import_forest (JSON_stringify forest) = Some forest.
Proof.
  intros _. split; [apply stringify_reads_back|].
  unfold import_forest. rewrite stringify_reads_back. simpl.
  apply mapM_map_Some. apply Forall_forall. intros t _.
  apply node_of_json_to_json.
Qed.

Lemma export_round_trip_witness :
  parseStructure sample_gen listing = Some listing_sample_forest
  /\ import_forest (JSON_stringify listing_sample_forest) = Some listing_sample_forest.
Proof.
  split; [reflexivity|].
  apply (export_round_trip sample_gen listing listing_sample_forest). reflexivity.
Defined.

(** * Properties of the other operations *)

(** ** Updating a content *)

Lemma FileNode_eta n :
  mkFileNode (id n) (name n) (type n) (content n) (children n) (parent n) = n.
Proof. by destruct n. Qed.

Lemma update_one_hit i c n :
  id n = i ->
  update_one i c n
  = mkFileNode (id n) (name n) (type n) (Some c) (children n) (parent n).
Proof.
  intros H. destruct n as [i0 nm t c0 ch p]. simpl in *.
  by rewrite bool_decide_eq_true_2.
Qed.

Lemma update_one_miss i c n :
  id n <> i ->
  update_one i c n
  = match children n with
    | Some cs =>
        mkFileNode (id n) (name n) (type n) (content n)
                   (Some (updateNode i c cs)) (parent n)
    | None => n
    end.
Proof.
  intros H. destruct n as [i0 nm t c0 ch p]. simpl in *.
  by rewrite bool_decide_eq_false_2.
Qed.

Lemma update_one_id i c n : id (update_one i c n) = id n.
Proof.
  destruct (decide (id n = i)) as [H|H].
  - by rewrite update_one_hit.
  - rewrite update_one_miss by done. by destruct (children n).
Qed.

Lemma updateNode_absent_nodes i c (cs : list FileNode) :
  Forall (fun n => ~ In i (ids_of n) -> update_one i c n = n) cs ->
  ~ In i (flat_map ids_of cs) -> updateNode i c cs = cs.
Proof.
  induction 1 as [|n cs Hn _ IH]; intros Hnot; [done|].
  change (updateNode i c (n :: cs)) with (update_one i c n :: updateNode i c cs).
  simpl in Hnot. rewrite in_app_iff in Hnot.
  rewrite Hn by tauto. rewrite IH by tauto. done.
Qed.

Lemma update_one_absent i c n : ~ In i (ids_of n) -> update_one i c n = n.
Proof.
  induction n as [i0 nm t c0 ch p IH] using FileNode_ind. intros Hnot.
  simpl in Hnot. rewrite update_one_miss by (simpl; tauto). simpl.
  destruct ch as [cs|]; [|done]. simpl in IH.
  rewrite (updateNode_absent_nodes i c cs IH) by tauto. done.
Qed.

Lemma updateNode_absent i c f : ~ In i (forest_ids f) -> updateNode i c f = f.
Proof.
  apply updateNode_absent_nodes. apply Forall_forall. intros n _.
  apply update_one_absent.
Qed.

Lemma map_ext_Forall {A B} (f g : A -> B) (l : list A) :
  Forall (fun x => f x = g x) l -> map f l = map g l.
Proof. induction 1 as [|x l Hx _ IH]; [done|]. simpl. by rewrite Hx, IH. Qed.

Lemma update_one_twice i c1 c2 n :
  update_one i c2 (update_one i c1 n) = update_one i c2 n.
Proof.
  induction n as [i0 nm t c0 ch p IH] using FileNode_ind.
  simpl. destruct (decide (i0 = i)) as [H|H].
  - rewrite !(bool_decide_eq_true_2 _ H). simpl.
    by rewrite (bool_decide_eq_true_2 _ H).
  - rewrite !(bool_decide_eq_false_2 _ H).
    destruct ch as [cs|]; simpl; rewrite (bool_decide_eq_false_2 _ H); [|done].
    rewrite map_map. do 2 f_equal. by apply map_ext_Forall.
Qed.

Lemma update_one_comm i j c d n :
  i <> j ->
  update_one i c (update_one j d n) = update_one j d (update_one i c n).
Proof.
  intros Hij. induction n as [i0 nm t c0 ch p IH] using FileNode_ind.
  simpl.
  destruct (decide (i0 = i)) as [Hi|Hi]; destruct (decide (i0 = j)) as [Hj|Hj];
    [congruence| | |].
  - rewrite !(bool_decide_eq_true_2 _ Hi), !(bool_decide_eq_false_2 _ Hj).
    destruct ch as [cs|]; simpl;
      by rewrite !(bool_decide_eq_true_2 _ Hi), ?(bool_decide_eq_false_2 _ Hj).
  - rewrite !(bool_decide_eq_true_2 _ Hj), !(bool_decide_eq_false_2 _ Hi).
    destruct ch as [cs|]; simpl;
      by rewrite !(bool_decide_eq_true_2 _ Hj), ?(bool_decide_eq_false_2 _ Hi).
  - rewrite !(bool_decide_eq_false_2 _ Hi), !(bool_decide_eq_false_2 _ Hj).
    destruct ch as [cs|]; simpl;
      rewrite !(bool_decide_eq_false_2 _ Hi), ?(bool_decide_eq_false_2 _ Hj);
      [|done].
    rewrite !map_map. do 2 f_equal. by apply map_ext_Forall.
Qed.

Lemma updateNode_twice i c1 c2 f :
  updateNode i c2 (updateNode i c1 f) = updateNode i c2 f.
Proof.
  unfold updateNode. rewrite map_map. apply map_ext. intros n.
  apply update_one_twice.
Qed.

Lemma updateNode_comm i j c d f :
  i <> j ->
  updateNode i c (updateNode j d f) = updateNode j d (updateNode i c f).
Proof.
  intros Hij. unfold updateNode. rewrite !map_map. apply map_ext. intros n.
  by apply update_one_comm.
Qed.

Lemma updated_from_refl i c n : updated_from i c n n.
Proof. unfold updated_from. tauto. Qed.

Lemma Forall2_flat_map_map {A B} (R : B -> B -> Prop) (F : A -> list B)
    (g : A -> A) (l : list A) :
  Forall (fun x => Forall2 R (F (g x)) (F x)) l ->
  Forall2 R (flat_map F (map g l)) (flat_map F l).
Proof.
  induction 1 as [|x l Hx _ IH]; [constructor|]. simpl. by apply Forall2_app.
Qed.

Lemma Forall2_same {A} (R : A -> A -> Prop) (l : list A) :
  (forall x, R x x) -> Forall2 R l l.
Proof. intros H. induction l; constructor; auto. Qed.

Lemma preorder_update_one i c n :
  Forall2 (updated_from i c) (preorder (update_one i c n)) (preorder n).
Proof.
  induction n as [i0 nm t c0 ch p IH] using FileNode_ind.
  simpl update_one. destruct (decide (i0 = i)) as [H|H].
  - rewrite (bool_decide_eq_true_2 _ H). simpl. constructor.
    + unfold updated_from. simpl. split; [done|]. split; [done|].
      split; [done|]. by right.
    + apply Forall2_same. apply updated_from_refl.
  - rewrite (bool_decide_eq_false_2 _ H).
    destruct ch as [cs|]; [|apply Forall2_same, updated_from_refl].
    simpl. constructor.
    + unfold updated_from. simpl. rewrite length_map.
      split; [done|]. split; [done|]. split; [done|]. by left.
    + by apply Forall2_flat_map_map.
Qed.

Lemma forest_nodes_updateNode i c f :
  Forall2 (updated_from i c) (forest_nodes (updateNode i c f)) (forest_nodes f).
Proof.
  unfold forest_nodes, updateNode. apply Forall2_flat_map_map.
  apply Forall_forall. intros n _. apply preorder_update_one.
Qed.

Lemma ids_of_preorder n : map id (preorder n) = ids_of n.
Proof.
  induction n as [i0 nm t c0 ch p IH] using FileNode_ind. simpl. f_equal.
  destruct ch as [cs|]; [|done]. simpl in IH.
  induction IH as [|n cs Hn _ IHcs]; [done|]. simpl.
  by rewrite map_app, Hn, IHcs.
Qed.

Lemma forest_ids_nodes f : map id (forest_nodes f) = forest_ids f.
Proof.
  unfold forest_nodes, forest_ids. induction f as [|n f IH]; [done|].
  simpl. by rewrite map_app, ids_of_preorder, IH.
Qed.

Lemma Forall2_map_eq {A B} (R : A -> A -> Prop) (g : A -> B) l k :
  Forall2 R l k -> (forall x y, R x y -> g x = g y) -> map g l = map g k.
Proof.
  intros H Hg. induction H as [|x y l k Hxy _ IH]; [done|]. simpl.
  by rewrite (Hg x y Hxy), IH.
Qed.

Lemma forest_ids_updateNode i c f : forest_ids (updateNode i c f) = forest_ids f.
Proof.
  rewrite <- !forest_ids_nodes.
  eapply Forall2_map_eq; [apply forest_nodes_updateNode|].
  intros x y (Hf & _). unfold frame_of in Hf. congruence.
Qed.

(** X1: [updateFileContent] keeps the shape of the tree: read in pre-order,
    the nodes after the update are the nodes before with the same id, name,
    kind and parent and as many children, and a content that is either
    unchanged or, on a node with the id, the new content; the selection is
    left as it was. *)
Theorem update_keeps_shape (fileId content' : jstring) (st : explorer) :
  let st' := updateFileContent fileId content' st in
  Forall2 (updated_from fileId content')
          (forest_nodes (fileTree st')) (forest_nodes (fileTree st))
  /\ forest_ids (fileTree st') = forest_ids (fileTree st)
  /\ map name (fileTree st') = map name (fileTree st)
  /\ selectedFile st' = selectedFile st.
Proof.
  simpl. split; [apply forest_nodes_updateNode|].
  split; [apply forest_ids_updateNode|]. split; [|done].
  unfold updateNode. rewrite map_map. apply map_ext. intros n.
  destruct n as [i0 nm t c0 ch p]. simpl.
  destruct (bool_decide (i0 = fileId)); [done|]. by destruct ch.
Qed.

Lemma update_one_unique i c n :
  NoDup (ids_of n) ->
  Forall (fun n' => id n' = i -> content n' = Some c) (preorder (update_one i c n)).
Proof.
  induction n as [i0 nm t c0 ch p IH] using FileNode_ind. intros Hnd.
  simpl update_one. destruct (decide (i0 = i)) as [H|H].
  - rewrite (bool_decide_eq_true_2 _ H). simpl. constructor; [done|].
    apply Forall_forall. intros m Hm Hid. exfalso.
    simpl in Hnd. apply NoDup_cons in Hnd as [Hnot _]. apply Hnot.
    destruct ch as [cs|]; [|by apply elem_of_nil in Hm]. simpl in Hm.
    change (flat_map ids_of cs) with (forest_ids cs).
    rewrite <- forest_ids_nodes, H, <- Hid.
    by apply (list_elem_of_fmap_2 id).
  - rewrite (bool_decide_eq_false_2 _ H).
    destruct ch as [cs|].
    + simpl. constructor; [done|]. simpl in IH, Hnd.
      apply NoDup_cons in Hnd as [_ Hnd].
      induction IH as [|n cs Hn _ IHcs]; [constructor|]. simpl in *.
      apply NoDup_app in Hnd as (Hn1 & _ & Hn2).
      apply Forall_app. auto.
    + simpl. constructor; [done|constructor].
Qed.

Lemma updateNode_unique i c f :
  NoDup (forest_ids f) ->
  Forall (fun n' => id n' = i -> content n' = Some c)
         (forest_nodes (updateNode i c f)).
Proof.
  unfold forest_ids, forest_nodes, updateNode.
  induction f as [|n f IH]; intros Hnd; [constructor|]. simpl in *.
  apply NoDup_app in Hnd as (Hn1 & _ & Hn2).
  apply Forall_app. split; [by apply update_one_unique|auto].
Qed.

(** X2: when the ids of the tree are all different, every node that has the
    id after [updateFileContent] has the new content, and there is such a
    node whenever the id is in the tree. *)
Theorem update_sets_the_content (fileId content' : jstring) (st : explorer) :
  NoDup (forest_ids (fileTree st)) ->
  let nodes' := forest_nodes (fileTree (updateFileContent fileId content' st)) in
  Forall (fun n' => id n' = fileId -> content n' = Some content') nodes'
  /\ (In fileId (forest_ids (fileTree st)) ->
      exists n', In n' nodes' /\ id n' = fileId /\ content n' = Some content').
Proof.
  intros Hnd nodes'.
  assert (Hall : Forall (fun n' => id n' = fileId -> content n' = Some content') nodes')
    by (by apply updateNode_unique).
  split; [exact Hall|]. intros Hin.
  rewrite <- (forest_ids_updateNode fileId content'), <- forest_ids_nodes in Hin.
  apply in_map_iff in Hin as (n' & Hid & Hn'). exists n'.
  split; [exact Hn'|]. split; [exact Hid|].
  rewrite Forall_forall in Hall. apply Hall; [by apply list_elem_of_In|done].
Qed.

Lemma update_sets_the_content_witness :
  forest_nodes (updateNode (u "2") (u "x") [sample_folder [sample_file]])
  = [ sample_folder [mkFileNode (u "2") (u "main.py") file (Some (u "x")) None (Some (u "1"))];
      mkFileNode (u "2") (u "main.py") file (Some (u "x")) None (Some (u "1")) ]
  /\ exists n', In n' (forest_nodes (updateNode (u "2") (u "x") [sample_folder [sample_file]]))
       /\ id n' = u "2" /\ content n' = Some (u "x").
Proof.
  split; [reflexivity|].
  apply (update_sets_the_content (u "2") (u "x")
           (mkExplorer [sample_folder [sample_file]] None)).
  - refine (bool_decide_unpack _ _). vm_compute. exact I.
  - vm_compute. auto.
Defined.

Lemma explorer_eta st : mkExplorer (fileTree st) (selectedFile st) = st.
Proof. by destruct st. Qed.

(** X3: [updateFileContent] with an id that no node has changes nothing. *)
Theorem update_unknown_id (fileId content' : jstring) (st : explorer) :
  ~ In fileId (forest_ids (fileTree st)) ->
  updateFileContent fileId content' st = st.
Proof.
  intros H. unfold updateFileContent. rewrite updateNode_absent by done.
  apply explorer_eta.
Qed.

Lemma update_unknown_id_witness :
  updateFileContent (u "9") (u "x") (mkExplorer [sample_folder [sample_file]] None)
  = mkExplorer [sample_folder [sample_file]] None.
Proof.
  apply update_unknown_id. vm_compute. intros [H|[H|H]]; [discriminate H|discriminate H|exact H].
Defined.

(** X4: of two updates of the same id the last one wins; in particular
    an update done twice is the update done once. *)
Theorem update_last_write_wins (fileId c1 c2 : jstring) (st : explorer) :
  updateFileContent fileId c2 (updateFileContent fileId c1 st)
  = updateFileContent fileId c2 st.
Proof. unfold updateFileContent. simpl. by rewrite updateNode_twice. Qed.

(** X5: updates of two different ids give the same tree in either order. *)
Theorem updates_commute (i j c d : jstring) (st : explorer) :
  i <> j ->
  updateFileContent i c (updateFileContent j d st)
  = updateFileContent j d (updateFileContent i c st).
Proof.
  intros Hij. unfold updateFileContent. simpl. by rewrite updateNode_comm.
Qed.

Lemma updates_commute_witness :
  let st := mkExplorer [sample_folder [sample_file]] None in
  updateFileContent (u "1") (u "a") (updateFileContent (u "2") (u "b") st)
  = updateFileContent (u "2") (u "b") (updateFileContent (u "1") (u "a") st).
Proof.
  intros st. apply updates_commute. intros H. discriminate H.
Defined.

(** ** Deleting, adding and importing *)

Lemma rebuild_eq i n :
  rebuild i n
  = mkFileNode (id n) (name n) (type n) (content n)
               (option_map (filterNodes i) (children n)) (parent n).
Proof.
  pose proof (rebuild_children i n) as H.
  destruct n as [i0 nm t c0 ch p]. simpl in *. by rewrite H.
Qed.

Lemma filterNodes_cons i n f :
  filterNodes i (n :: f)
  = if bool_decide (id n = i) then filterNodes i f else rebuild i n :: filterNodes i f.
Proof. reflexivity. Qed.

Lemma filterNodes_absent_nodes i (cs : list FileNode) :
  Forall (fun n => ~ In i (ids_of n) -> rebuild i n = n) cs ->
  ~ In i (flat_map ids_of cs) -> filterNodes i cs = cs.
Proof.
  induction 1 as [|n cs Hn _ IH]; intros Hnot; [done|].
  rewrite filterNodes_cons. simpl in Hnot. rewrite in_app_iff in Hnot.
  rewrite bool_decide_eq_false_2.
  - rewrite Hn by tauto. by rewrite IH by tauto.
  - intros E. apply Hnot. left. destruct n; simpl in *. by left.
Qed.

Lemma rebuild_absent i n : ~ In i (ids_of n) -> rebuild i n = n.
Proof.
  induction n as [i0 nm t c0 ch p IH] using FileNode_ind. intros Hnot.
  rewrite rebuild_eq. simpl in *. destruct ch as [cs|]; [|done]. simpl.
  rewrite (filterNodes_absent_nodes i cs IH) by tauto. done.
Qed.

Lemma filterNodes_absent i f : ~ In i (forest_ids f) -> filterNodes i f = f.
Proof.
  apply filterNodes_absent_nodes. apply Forall_forall. intros n _.
  apply rebuild_absent.
Qed.

Lemma rebuild_id i n : id (rebuild i n) = id n.
Proof. by rewrite rebuild_eq. Qed.

Lemma filter_update_nodes i c (cs : list FileNode) :
  Forall (fun n => id n <> i -> rebuild i (update_one i c n) = rebuild i n) cs ->
  filterNodes i (updateNode i c cs) = filterNodes i cs.
Proof.
  induction 1 as [|n cs Hn _ IH]; [done|].
  change (updateNode i c (n :: cs)) with (update_one i c n :: updateNode i c cs).
  rewrite !filterNodes_cons, update_one_id, IH.
  destruct (decide (id n = i)) as [E|E].
  - by rewrite !(bool_decide_eq_true_2 _ E).
  - rewrite !(bool_decide_eq_false_2 _ E). by rewrite Hn.
Qed.

Lemma rebuild_update_same i c n :
  id n <> i -> rebuild i (update_one i c n) = rebuild i n.
Proof.
  induction n as [i0 nm t c0 ch p IH] using FileNode_ind. intros Hne.
  rewrite update_one_miss by done. cbn [children child_list] in *.
  destruct ch as [cs|]; [|done]. rewrite !rebuild_eq. simpl.
  by rewrite (filter_update_nodes i c cs IH).
Qed.

Lemma filterNodes_updateNode_same i c f :
  filterNodes i (updateNode i c f) = filterNodes i f.
Proof.
  apply filter_update_nodes. apply Forall_forall. intros n _.
  apply rebuild_update_same.
Qed.

Lemma filter_update_comm_nodes i j c (cs : list FileNode) :
  Forall (fun n => id n <> j -> rebuild j (update_one i c n) = update_one i c (rebuild j n)) cs ->
  filterNodes j (updateNode i c cs) = updateNode i c (filterNodes j cs).
Proof.
  induction 1 as [|n cs Hn _ IH]; [done|].
  change (updateNode i c (n :: cs)) with (update_one i c n :: updateNode i c cs).
  rewrite !filterNodes_cons, update_one_id, IH.
  destruct (decide (id n = j)) as [E|E].
  - by rewrite !(bool_decide_eq_true_2 _ E).
  - rewrite !(bool_decide_eq_false_2 _ E).
    change (updateNode i c (?x :: ?l)) with (update_one i c x :: updateNode i c l).
    by rewrite Hn.
Qed.

Lemma rebuild_update_comm i j c n :
  id n <> j -> rebuild j (update_one i c n) = update_one i c (rebuild j n).
Proof.
  induction n as [i0 nm t c0 ch p IH] using FileNode_ind. intros Hne.
  destruct (decide (i0 = i)) as [E|E].
  - rewrite (update_one_hit i c) by done.
    rewrite (update_one_hit i c (rebuild j _)) by (by rewrite rebuild_id).
    by rewrite !rebuild_eq.
  - rewrite (update_one_miss i c) by done.
    rewrite (update_one_miss i c (rebuild j _)) by (by rewrite rebuild_id).
    cbn [children child_list] in *.
    destruct ch as [cs|]; rewrite !rebuild_eq; simpl; [|done].
    by rewrite (filter_update_comm_nodes i j c cs IH).
Qed.

Lemma filterNodes_updateNode_comm i j c f :
  filterNodes j (updateNode i c f) = updateNode i c (filterNodes j f).
Proof.
  apply filter_update_comm_nodes. apply Forall_forall. intros n _.
  apply rebuild_update_comm.
Qed.

Lemma filter_comm_nodes i j (cs : list FileNode) :
  Forall (fun n => rebuild i (rebuild j n) = rebuild j (rebuild i n)) cs ->
  filterNodes i (filterNodes j cs) = filterNodes j (filterNodes i cs).
Proof.
  induction 1 as [|n cs Hn _ IH]; [done|].
  rewrite !filterNodes_cons.
  destruct (decide (id n = i)) as [Ei|Ei]; destruct (decide (id n = j)) as [Ej|Ej];
    rewrite ?(bool_decide_eq_true_2 _ Ei), ?(bool_decide_eq_true_2 _ Ej),
      ?(bool_decide_eq_false_2 _ Ei), ?(bool_decide_eq_false_2 _ Ej);
    rewrite ?filterNodes_cons, ?rebuild_id;
    rewrite ?(bool_decide_eq_true_2 _ Ei), ?(bool_decide_eq_true_2 _ Ej),
      ?(bool_decide_eq_false_2 _ Ei), ?(bool_decide_eq_false_2 _ Ej);
    by rewrite ?Hn, IH.
Qed.

Lemma rebuild_comm i j n : rebuild i (rebuild j n) = rebuild j (rebuild i n).
Proof.
  induction n as [i0 nm t c0 ch p IH] using FileNode_ind.
  repeat rewrite rebuild_eq. cbn [children child_list id name type content parent] in *.
  destruct ch as [cs|]; simpl; [|done].
  by rewrite (filter_comm_nodes i j cs IH).
Qed.

Lemma filterNodes_comm i j f :
  filterNodes i (filterNodes j f) = filterNodes j (filterNodes i f).
Proof.
  apply filter_comm_nodes. apply Forall_forall. intros n _. apply rebuild_comm.
Qed.

Lemma filterNodes_idem i f : filterNodes i (filterNodes i f) = filterNodes i f.
Proof. apply filterNodes_absent. apply filterNodes_forgets_id. Qed.

(** X6: deleting a node after updating the content of that very id is the
    same as deleting it at once, and a deletion and an update of whatever
    ids can be done in either order. *)
Theorem delete_and_update (i j c : jstring) (st : explorer) :
  deleteItem i (updateFileContent i c st) = deleteItem i st
  /\ deleteItem j (updateFileContent i c st) = updateFileContent i c (deleteItem j st).
Proof.
  unfold deleteItem, updateFileContent. simpl. split.
  - by rewrite filterNodes_updateNode_same.
  - by rewrite filterNodes_updateNode_comm.
Qed.

(** X7: [deleteItem] with an id that no node has leaves the tree as it is. *)
Theorem delete_unknown_id (itemId : jstring) (st : explorer) :
  ~ In itemId (forest_ids (fileTree st)) ->
  fileTree (deleteItem itemId st) = fileTree st.
Proof. intros H. simpl. by apply filterNodes_absent. Qed.

Lemma delete_unknown_id_witness :
  fileTree (deleteItem (u "9") (mkExplorer [sample_folder [sample_file]] None))
  = [sample_folder [sample_file]].
Proof.
  apply (delete_unknown_id (u "9") (mkExplorer [sample_folder [sample_file]] None)).
  vm_compute. intros [H|[H|H]]; [discriminate H|discriminate H|exact H].
Defined.

(** X8: deleting the same id twice is deleting it once, and two deletions
    give the same state in either order, the selection included. *)
Theorem deletes_commute (i j : jstring) (st : explorer) :
  deleteItem i (deleteItem i st) = deleteItem i st
  /\ deleteItem i (deleteItem j st) = deleteItem j (deleteItem i st).
Proof.
  unfold deleteItem. simpl. split.
  - rewrite filterNodes_idem. f_equal.
    destruct (selectedFile st) as [f|]; [|done].
    destruct (bool_decide (id f = i)) eqn:E; [done|]. by rewrite E.
  - rewrite filterNodes_comm. f_equal.
    destruct (selectedFile st) as [f|]; [|done].
    destruct (bool_decide (id f = i)) eqn:Ei;
      destruct (bool_decide (id f = j)) eqn:Ej; by rewrite ?Ei, ?Ej.
Qed.

Lemma filterNodes_app i f g :
  filterNodes i (f ++ g) = filterNodes i f ++ filterNodes i g.
Proof.
  induction f as [|n f IH]; [done|]. simpl app. rewrite !filterNodes_cons, IH.
  by destruct (bool_decide (id n = i)).
Qed.

(** X9: deleting the id of the item that [addNewItem] has just added gives
    the tree as it was with every node of that id deleted (an id is the
    clock's reading, which an older node may share); when the id is new to
    the tree, it gives back the tree as it was. *)
Theorem add_then_delete (now newItemName : jstring) (newItemType : FileType)
    (tree : list FileNode) :
  filterNodes now (addNewItem now newItemName newItemType tree) = filterNodes now tree
  /\ (~ In now (forest_ids tree) ->
      filterNodes now (addNewItem now newItemName newItemType tree) = tree).
Proof.
  assert (H : filterNodes now (addNewItem now newItemName newItemType tree)
              = filterNodes now tree).
  { unfold addNewItem. destruct (bool_decide (trim newItemName = [])); [done|].
    rewrite filterNodes_app, filterNodes_cons. simpl.
    rewrite bool_decide_eq_true_2 by done. simpl. by rewrite app_nil_r. }
  split; [exact H|]. intros Hnew. rewrite H. by apply filterNodes_absent.
Qed.

Lemma add_then_delete_witness :
  filterNodes (u "7") (addNewItem (u "7") (u "notes.txt") file [sample_folder [sample_file]])
  = [sample_folder [sample_file]].
Proof.
  apply (proj2 (add_then_delete (u "7") (u "notes.txt") file [sample_folder [sample_file]])).
  vm_compute. intros [H|[H|H]]; [discriminate H|discriminate H|exact H].
Defined.

Lemma convert_app files more basePath :
  convertFileTreeToGitHubFiles (files ++ more) basePath
  = fold_left (fun acc f => github_files_of_node basePath f acc) more
      (convertFileTreeToGitHubFiles files basePath).
Proof. unfold convertFileTreeToGitHubFiles. by rewrite fold_left_app. Qed.

(** X10: a file added in the explorer, which has the empty content, is
    published with the generated two-line stub, and an added folder with
    the [.gitkeep] entry: in the list the entry comes after the entries of
    the tree as it was, and in the record it is assigned over them, which
    makes a property of it unless its path is [__proto__]: then the record
    is as it was. A blank name adds nothing. *)
Theorem added_item_is_published (now newItemName : jstring) (newItemType : FileType)
    (tree : list FileNode) (basePath : jstring) :
  let tree' := addNewItem now newItemName newItemType tree in
  let path := fullPath basePath newItemName in
  let entry :=
    match newItemType with
    | file => (path, u "// " ++ newItemName ++ [LF] ++ u "// Auto-generated file")
    | folder => (path ++ u "/.gitkeep", [])
    end in
  (trim newItemName = [] -> tree' = tree)
  /\ (trim newItemName <> [] ->
      getFilesForHFUpload tree' basePath
      = getFilesForHFUpload tree basePath ++ [entry]
      /\ convertFileTreeToGitHubFiles tree' basePath
         = assign_key (fst entry) (snd entry)
             (convertFileTreeToGitHubFiles tree basePath)
      /\ (fst entry <> u "__proto__" ->
          convertFileTreeToGitHubFiles tree' basePath
          = <[fst entry := snd entry]> (convertFileTreeToGitHubFiles tree basePath))
      /\ (fst entry = u "__proto__" ->
          convertFileTreeToGitHubFiles tree' basePath
          = convertFileTreeToGitHubFiles tree basePath)).
Proof.
  intros tree' path entry. unfold tree', addNewItem. split.
  - intros H. by rewrite bool_decide_eq_true_2.
  - intros H. rewrite bool_decide_eq_false_2 by done.
    assert (Hrec : convertFileTreeToGitHubFiles
                     (tree ++ [mkFileNode now newItemName newItemType
                                 (match newItemType with
                                  | file => Some []
                                  | folder => None
                                  end)
                                 (match newItemType with
                                  | folder => Some []
                                  | file => None
                                  end) None]) basePath
                   = assign_key (fst entry) (snd entry)
                       (convertFileTreeToGitHubFiles tree basePath)).
    { rewrite convert_app. unfold entry, path.
      destruct newItemType; simpl; [done|].
      by rewrite (left_id_L ∅ (∪)). }
    split; [|split; [exact Hrec|split]].
    + unfold getFilesForHFUpload. rewrite flat_map_app. f_equal.
      unfold entry, path. by destruct newItemType.
    + intros Hkey. rewrite Hrec. unfold assign_key.
      by rewrite (bool_decide_eq_false_2 _ Hkey).
    + intros Hkey. rewrite Hrec. unfold assign_key.
      by rewrite (bool_decide_eq_true_2 _ Hkey).
Qed.

Lemma added_item_is_published_witness :
  getFilesForHFUpload (addNewItem (u "7") (u "notes.txt") file [sample_file]) []
  = [(u "main.py", u "print(1)");
     (u "notes.txt", u "// notes.txt" ++ [LF] ++ u "// Auto-generated file")]
  /\ convertFileTreeToGitHubFiles
       (addNewItem (u "7") (u "__proto__") file [sample_file]) []
     = convertFileTreeToGitHubFiles [sample_file] [].
Proof.
  split.
  - apply (proj2 (added_item_is_published (u "7") (u "notes.txt") file [sample_file] [])).
    vm_compute. intros H. discriminate H.
  - apply (proj2 (added_item_is_published (u "7") (u "__proto__") file [sample_file] [])).
    + vm_compute. intros H. discriminate H.
    + reflexivity.
Defined.

(** X11: [toggleFolder] done twice gives back the set of expanded folders;
    done once, it changes the state of that folder and of no other. *)
Theorem toggle_twice (folderId : jstring) (expandedFolders : gset jstring) :
  toggleFolder folderId (toggleFolder folderId expandedFolders) = expandedFolders
  /\ (folderId ∈ toggleFolder folderId expandedFolders <-> folderId ∉ expandedFolders)
  /\ (forall other, other <> folderId ->
        (other ∈ toggleFolder folderId expandedFolders <-> other ∈ expandedFolders)).
Proof.
  assert (Hflip : forall s : gset jstring,
            folderId ∈ toggleFolder folderId s <-> folderId ∉ s).
  { intros s. unfold toggleFolder.
    destruct (decide (folderId ∈ s)) as [Hin|Hout].
    - rewrite (bool_decide_eq_true_2 _ Hin), elem_of_difference, elem_of_singleton.
      tauto.
    - rewrite (bool_decide_eq_false_2 _ Hout), elem_of_union, elem_of_singleton.
      tauto. }
  assert (Hkeep : forall (s : gset jstring) other, other <> folderId ->
            (other ∈ toggleFolder folderId s <-> other ∈ s)).
  { intros s other Hne. unfold toggleFolder.
    destruct (bool_decide (folderId ∈ s)).
    - rewrite elem_of_difference, elem_of_singleton. tauto.
    - rewrite elem_of_union, elem_of_singleton. tauto. }
  split; [|split; [apply Hflip|apply Hkeep]].
  apply set_eq. intros x. destruct (decide (x = folderId)) as [->|Hne].
  - rewrite Hflip, Hflip. destruct (decide (folderId ∈ expandedFolders)); tauto.
  - by rewrite !Hkeep.
Qed.

(** ** Importing a listing *)

Lemma drop_while_nil p s : drop_while p s = [] <-> forallb p s = true.
Proof.
  induction s as [|c s IH]; simpl; [done|].
  destruct (p c); simpl; [exact IH|]. split; discriminate.
Qed.

Lemma drop_while_forallb p s : forallb p s = true -> forallb p (drop_while p s) = true.
Proof. intros H. by apply drop_while_nil in H as ->. Qed.

Lemma forallb_drop_while p s :
  forallb p (drop_while p s) = true -> forallb p s = true.
Proof.
  induction s as [|c s IH]; simpl; [done|].
  destruct (p c) eqn:E; simpl; [exact IH|]. by rewrite E.
Qed.

Lemma forallb_rev {A} (p : A -> bool) l : forallb p (rev l) = forallb p l.
Proof.
  induction l as [|x l IH]; simpl; [done|].
  rewrite forallb_app, IH. simpl. rewrite andb_true_r. apply andb_comm.
Qed.

Lemma trim_blank s : trim s = [] <-> forallb is_space s = true.
Proof.
  unfold trim, trimEnd, trimStart. split.
  - intros H. apply forallb_drop_while.
    rewrite <- forallb_rev. apply drop_while_nil.
    apply (f_equal (@rev _)) in H. by rewrite rev_involutive in H.
  - intros H. apply drop_while_nil in H. by rewrite H.
Qed.

Lemma split_pieces p c s :
  forallb p s = true -> Forall (fun piece => forallb p piece = true) (split c s).
Proof.
  induction s as [|d s IH]; simpl; intros H.
  - by repeat constructor.
  - apply andb_prop in H as [Hd Hs]. specialize (IH Hs).
    destruct (d =? c)%N; [by constructor|].
    destruct (split c s) as [|piece rest]; [by repeat constructor; simpl; rewrite Hd|].
    inversion IH as [|? ? Hp Hr]; subst. constructor; [|done].
    simpl. by rewrite Hd.
Qed.

Lemma input_lines_blank text : trim text = [] -> input_lines text = [].
Proof.
  intros H. apply trim_blank in H. unfold input_lines.
  pose proof (split_pieces is_space LF text H) as Hall.
  induction Hall as [|piece rest Hp _ IH]; [done|].
  simpl. apply trim_blank in Hp. by rewrite (bool_decide_eq_true_2 _ Hp).
Qed.

Lemma parseStructure_invariant gen text :
  exists forest,
    parseStructure gen text = Some forest
    /\ invariant (final_state gen text) forest
    /\ forest_labels forest
       = imap (fun k line => olabel (newNode (gen k) line)) (node_lines text).
Proof.
  destruct (run_lines_invariant gen (input_lines text) init_state [] invariant_init)
    as (forest & Hinv & Hlab).
  exists forest. split; [by apply invariant_reify|]. by split.
Qed.

(** X12: [handleImport] always ends with the tree it found followed by the
    roots parsed from the text, in that order: nothing of the old tree is
    changed or dropped, and a text of white space only (which it refuses)
    would have parsed to no root at all. *)
Theorem import_appends (gen : nat -> jstring) (structureText : jstring)
    (tree : list FileNode) :
  exists parsed,
    parseStructure gen structureText = Some parsed
    /\ handleImport gen structureText tree = tree ++ parsed
    /\ (trim structureText = [] -> parsed = []).
Proof.
  destruct (parseStructure_invariant gen structureText) as (parsed & Hp & _ & _).
  exists parsed. split; [exact Hp|].
  assert (Hblank : trim structureText = [] -> parsed = []).
  { intros H. unfold parseStructure, final_state in Hp.
    rewrite (input_lines_blank _ H) in Hp. compute in Hp. congruence. }
  split; [|exact Hblank].
  unfold handleImport, handleStructureImport. rewrite Hp.
  destruct (decide (trim structureText = [])) as [H|H].
  - rewrite (bool_decide_eq_true_2 _ H), (Hblank H). by rewrite app_nil_r.
  - by rewrite (bool_decide_eq_false_2 _ H).
Qed.

Lemma import_appends_witness :
  exists parsed,
    parseStructure sample_gen (u "   ") = Some parsed
    /\ handleImport sample_gen (u "   ") [sample_file] = [sample_file] ++ parsed
    /\ parsed = [].
Proof.
  destruct (import_appends sample_gen (u "   ") [sample_file]) as (parsed & Hp & Hi & Hb).
  exists parsed. split; [exact Hp|]. split; [exact Hi|]. apply Hb. reflexivity.
Defined.

(** * The shape of what the parser returns *)

Lemma run_lines_preserves gen (P : pstate -> Prop) :
  (forall st forest line, invariant st forest -> contributes line = true ->
     P st -> P (process_line gen st line)) ->
  forall lines st forest, invariant st forest -> P st -> P (run_lines gen lines st).
Proof.
  intros Hstep. induction lines as [|l lines IH]; intros st forest Hinv HP; [done|].
  simpl. destruct (process_line_invariant_any gen st forest l Hinv) as [f' Hinv'].
  apply (IH _ f' Hinv').
  destruct (contributes l) eqn:Hl.
  - by eapply Hstep.
  - by rewrite (process_line_skip gen st l Hl).
Qed.

Lemma newNode_ok i line : line_name line <> [] -> obj_ok (newNode i line).
Proof.
  intros H. unfold newNode, obj_ok. simpl.
  split; [done|]. by destruct (isFolder line (line_name line)).
Qed.

Lemma process_line_kinds gen st forest line :
  invariant st forest -> contributes line = true ->
  Forall obj_ok (heap st) -> Forall obj_ok (heap (process_line gen st line)).
Proof.
  intros Hinv Hline Hok.
  destruct (contributes_spec line Hline) as [_ Hname].
  apply bool_decide_eq_false in Hname.
  pose proof (process_line_shape gen st forest line Hinv Hline) as Hs.
  simpl in Hs. destruct (pop_frames (line_depth line) (stack st)) as [|top below].
  - rewrite Hs. simpl. apply Forall_app. split; [done|].
    constructor; [by apply newNode_ok|constructor].
  - destruct Hs as (os & cs & _ & _ & ->). simpl. apply Forall_app. split.
    + apply Forall_alter; [done|]. intros o _ [Hn Hk]. split; [done|].
      simpl. destruct (o_type o); destruct Hk as [Hc Hch]; (split; [done|]).
      * by rewrite Hch.
      * by destruct (o_children o).
    + constructor; [|constructor].
      destruct (newNode_ok (gen (length (heap st))) line Hname) as [Hn Hk].
      by split.
Qed.

Lemma final_heap_kinds gen lines : Forall obj_ok (heap (run_lines gen lines init_state)).
Proof.
  apply (run_lines_preserves gen (fun st => Forall obj_ok (heap st)))
    with (forest := []).
  - apply process_line_kinds.
  - apply invariant_init.
  - constructor.
Qed.

Lemma mapM_reify_Forall2 k h rs ts :
  mapM (reify k h) rs = Some ts -> Forall2 (fun r t => reify k h r = Some t) rs ts.
Proof. apply mapM_Some_1. Qed.

Lemma Forall_flat_map_Forall2 {A B C} (P : C -> Prop) (R : A -> B -> Prop)
    (f : B -> list C) rs ts :
  Forall2 R rs ts -> (forall r t, R r t -> Forall P (f t)) ->
  Forall P (flat_map f ts).
Proof.
  intros H HP. induction H as [|r t rs ts Hrt _ IH]; simpl; [constructor|].
  apply Forall_app. split; [by eapply HP|done].
Qed.

Lemma reify_kinds h k r t :
  Forall obj_ok h -> reify k h r = Some t -> Forall node_ok (preorder t).
Proof.
  intros Hok. revert r t. induction k as [|k IH]; intros r t; [discriminate|].
  simpl. destruct (h !! r) as [o|] eqn:Hr; [|done].
  assert (Ho : obj_ok o).
  { rewrite Forall_forall in Hok. apply Hok. by eapply list_elem_of_lookup_2. }
  destruct (o_children o) as [cs|] eqn:Hc.
  - destruct (mapM (reify k h) cs) as [ts|] eqn:Hts; [|done].
    intros [= <-]. simpl. constructor.
    + destruct Ho as [Hn Hk]. split; [done|]. simpl.
      destruct (o_type o); destruct Hk as [Hk1 Hk2]; [congruence|done].
    + eapply Forall_flat_map_Forall2; [exact (mapM_reify_Forall2 _ _ _ _ Hts)|].
      intros c tc. apply IH.
  - intros [= <-]. simpl. constructor; [|constructor].
    destruct Ho as [Hn Hk]. split; [done|]. simpl.
    destruct (o_type o); destruct Hk as [Hk1 Hk2]; [done|congruence].
Qed.

Lemma reify_all_kinds h rs ts :
  Forall obj_ok h -> reify_all h rs = Some ts -> Forall node_ok (forest_nodes ts).
Proof.
  intros Hok H. unfold forest_nodes.
  eapply Forall_flat_map_Forall2; [exact (mapM_reify_Forall2 _ _ _ _ H)|].
  intros r t. by apply reify_kinds.
Qed.

Lemma default_content_stub nm : exists c s, default_content nm = c :: s.
Proof.
  unfold default_content.
  repeat match goal with
         | |- context [jeqb ?a ?b] => destruct (jeqb a b)
         end; simpl; eauto.
Qed.

(** X13: in the forest [parseStructure] returns, at every depth, a folder
    has a [children] array and no content, and a file has no [children]
    and the non-empty stub written for its name as content, so that the
    exporters never replace it by their own stub; no node has an empty
    name. *)
Theorem parsed_nodes_kinds (gen : nat -> jstring) (text : jstring) :
  exists forest,
    parseStructure gen text = Some forest
    /\ Forall (fun n =>
                 node_ok n
                 /\ (type n = file ->
                     content_or_stub n = default_content (name n)
                     /\ content_or_stub n <> []))
         (forest_nodes forest).
Proof.
  destruct (parseStructure_invariant gen text) as (forest & Hp & _ & _).
  exists forest. split; [exact Hp|].
  pose proof (reify_all_kinds _ _ _ (final_heap_kinds gen (input_lines text)) Hp) as H.
  eapply Forall_impl; [exact H|]. simpl. intros n Hn. split; [exact Hn|].
  intros Hf. destruct Hn as [_ Hk]. rewrite Hf in Hk. destruct Hk as [Hc _].
  unfold content_or_stub. rewrite Hc.
  destruct (default_content_stub (name n)) as (c & s & ->). done.
Qed.

(** ** Parent references *)

Lemma lookup_alter_snoc (f : obj -> obj) t (h : list obj) x c oc :
  h !! c = Some oc ->
  (alter f t h ++ [x]) !! c = Some (if decide (t = c) then f oc else oc).
Proof.
  intros Hc. apply lookup_app_l_Some.
  destruct (decide (t = c)) as [->|Hne].
  - by rewrite list_lookup_alter_eq, Hc.
  - by rewrite list_lookup_alter_ne, Hc.
Qed.

Lemma lookup_snoc_inv {A} (h : list A) x r y :
  (h ++ [x]) !! r = Some y ->
  h !! r = Some y \/ (r = length h /\ y = x).
Proof.
  intros H. destruct (decide (r < length h)) as [Hlt|Hge].
  - left. by rewrite lookup_app_l in H.
  - right. rewrite lookup_app_r in H by lia.
    destruct (r - length h) as [|k] eqn:E; simpl in H; [|by rewrite lookup_nil in H].
    split; [lia|congruence].
Qed.

Lemma process_line_links gen st forest line :
  invariant st forest -> contributes line = true ->
  links_ok st -> links_ok (process_line gen st line).
Proof.
  intros Hinv Hline [Hch Hroots].
  pose proof (process_line_shape gen st forest line Hinv Hline) as Hs.
  simpl in Hs. destruct (pop_frames (line_depth line) (stack st)) as [|top below].
  - rewrite Hs. split; simpl.
    + intros r o cs Hr Hc. apply lookup_snoc_inv in Hr as [Hr|[-> ->]].
      * eapply Forall_impl; [exact (Hch r o cs Hr Hc)|]. simpl.
        intros c (oc & Hoc & Hp). exists oc. split; [|done].
        by apply lookup_app_l_Some.
      * apply newNode_children_cases in Hc as ->. constructor.
    + apply Forall_app. split.
      * eapply Forall_impl; [exact Hroots|]. simpl.
        intros r (o & Ho & Hp). exists o. split; [|done].
        by apply lookup_app_l_Some.
      * constructor; [|constructor]. eexists. split.
        -- rewrite lookup_app_r by lia. by rewrite Nat.sub_diag.
        -- reflexivity.
  - destruct Hs as (os & cs0 & Hos & Hcs0 & ->). split; simpl.
    + intros r o cs Hr Hc. apply lookup_snoc_inv in Hr as [Hr|[_ ->]].
      * destruct (decide (node top = r)) as [<-|Hne].
        -- rewrite list_lookup_alter_eq, Hos in Hr. simpl in Hr.
           injection Hr as <-. simpl in Hc. rewrite Hcs0 in Hc. simpl in Hc.
           injection Hc as <-. apply Forall_app. split.
           ++ eapply Forall_impl; [exact (Hch _ _ _ Hos Hcs0)|]. simpl.
              intros c (oc & Hoc & Hp). eexists. split.
              ** by apply lookup_alter_snoc.
              ** by destruct (decide (node top = c)).
           ++ constructor; [|constructor]. eexists. split.
              ** rewrite lookup_app_r by (rewrite length_alter; lia).
                 by rewrite length_alter, Nat.sub_diag.
              ** reflexivity.
        -- rewrite list_lookup_alter_ne in Hr by done.
           eapply Forall_impl; [exact (Hch _ _ _ Hr Hc)|]. simpl.
           intros c (oc & Hoc & Hp). eexists. split.
           ++ by apply lookup_alter_snoc.
           ++ by destruct (decide (node top = c)).
      * simpl in Hc. destruct (isFolder line (line_name line)); [|discriminate].
        injection Hc as <-. constructor.
    + eapply Forall_impl; [exact Hroots|]. simpl.
      intros r (o & Ho & Hp). eexists. split.
      * by apply lookup_alter_snoc.
      * by destruct (decide (node top = r)).
Qed.

Lemma final_links gen lines : links_ok (run_lines gen lines init_state).
Proof.
  apply (run_lines_preserves gen links_ok) with (forest := []).
  - apply process_line_links.
  - apply invariant_init.
  - split; [|constructor]. intros r o cs Hr. simpl in Hr. by rewrite lookup_nil in Hr.
Qed.

Lemma Forall2_Forall_l {A B} (P : A -> Prop) (R Q : A -> B -> Prop) l k :
  Forall P l -> Forall2 R l k -> (forall x y, P x -> R x y -> Q x y) ->
  Forall2 Q l k.
Proof.
  intros HP HR HQ. induction HR as [|x y l k Hxy _ IH]; [constructor|].
  inversion HP as [|? ? Hx Hl]; subst. constructor; auto.
Qed.

Lemma reify_links st k r t o :
  links_ok st -> reify k (heap st) r = Some t -> heap st !! r = Some o ->
  Forall (fun e => parent e.2 = e.1) (edges (o_parent o) t).
Proof.
  intros [Hch _]. revert r t o. induction k as [|k IH]; intros r t o; [discriminate|].
  simpl. intros H Hr. rewrite Hr in H.
  destruct (o_children o) as [cs|] eqn:Hc.
  - destruct (mapM (reify k (heap st)) cs) as [ts|] eqn:Hts; [|done].
    injection H as <-. simpl. constructor; [done|].
    eapply (Forall_flat_map_Forall2 _
              (fun c tc => exists oc, heap st !! c = Some oc
                                      /\ o_parent oc = Some (o_id o)
                                      /\ reify k (heap st) c = Some tc)).
    + eapply Forall2_Forall_l;
        [exact (Hch _ _ _ Hr Hc)|exact (mapM_reify_Forall2 _ _ _ _ Hts)|].
      simpl. intros c tc (oc & Hoc & Hp) Htc. by exists oc.
    + intros c tc (oc & Hoc & Hp & Htc). simpl. rewrite <- Hp. by eapply IH.
  - injection H as <-. simpl. by repeat constructor.
Qed.

(** X14: in the forest [parseStructure] returns, every root has no
    [parent] member and every other node has the id of the node whose
    [children] array holds it. *)
Theorem parsed_parents_are_consistent (gen : nat -> jstring) (text : jstring) :
  exists forest,
    parseStructure gen text = Some forest
    /\ Forall (fun e => parent e.2 = e.1) (forest_edges forest).
Proof.
  destruct (parseStructure_invariant gen text) as (forest & Hp & _ & _).
  exists forest. split; [exact Hp|].
  pose proof (final_links gen (input_lines text)) as Hl.
  fold (final_state gen text) in Hl. unfold parseStructure in Hp. simpl in Hp.
  unfold forest_edges.
  eapply (Forall_flat_map_Forall2 _
            (fun r t => exists o, heap (final_state gen text) !! r = Some o
                                  /\ o_parent o = None
                                  /\ reify (length (heap (final_state gen text)))
                                       (heap (final_state gen text)) r = Some t)).
  - eapply Forall2_Forall_l;
      [exact (proj2 Hl)|exact (mapM_reify_Forall2 _ _ _ _ Hp)|].
    simpl. intros r t (o & Ho & Hpar) Ht. by exists o.
  - intros r t (o & Ho & Hpar & Ht). rewrite <- Hpar. by eapply reify_links.
Qed.

(** ** Lines without indentation *)


Lemma In_drop_while p x s : In x (drop_while p s) -> In x s.
Proof.
  induction s as [|c s IH]; simpl; [done|].
  destruct (p c); [by right; apply IH|done].
Qed.

Lemma In_trim x s : In x (trim s) -> In x s.
Proof.
  unfold trim, trimEnd, trimStart. intros H.
  apply in_rev, In_drop_while, in_rev in H. by eapply In_drop_while.
Qed.
















(** ** Names *)

Lemma collapse_from_units b s :
  Forall (fun c => c = SPACE \/ (In c s /\ is_space c = false)) (collapse_from b s).
Proof.
  revert b. induction s as [|c s IH]; intros b; simpl; [constructor|].
  assert (Hrest : forall b', Forall (fun x => x = SPACE
                     \/ ((c = x \/ In x s) /\ is_space x = false))
                    (collapse_from b' s)).
  { intros b'. eapply Forall_impl; [apply IH|]. simpl. tauto. }
  destruct (is_space c) eqn:E; [destruct b|]; try constructor; auto.
Qed.

Lemma cleanLine_units line :
  Forall (fun c => is_box c = false /\ (is_space c = true -> c = SPACE))
    (cleanLine line).
Proof.
  unfold cleanLine, collapse_ws. eapply Forall_impl; [apply collapse_from_units|].
  simpl. intros c [->|[Hin Hsp]]; [done|]. split; [|congruence].
  unfold strip_box in Hin. apply list_elem_of_In in Hin.
  by apply list_elem_of_filter in Hin as [Hbox _].
Qed.

Lemma trimEnd_prefix s : exists rest, s = trimEnd s ++ rest.
Proof.
  unfold trimEnd.
  assert (H : forall p (l : jstring), exists popped, l = popped ++ drop_while p l).
  { intros p l. induction l as [|c l [popped IH]]; simpl; [by exists []|].
    destruct (p c); [|by exists []]. exists (c :: popped). simpl. by rewrite <- IH. }
  destruct (H is_space (rev s)) as [popped E]. exists (rev popped).
  rewrite <- rev_app_distr, <- E. by rewrite rev_involutive.
Qed.

Lemma drop_while_head p s c : head (drop_while p s) = Some c -> p c = false.
Proof.
  induction s as [|d s IH]; simpl; [done|].
  destruct (p d) eqn:E; [exact IH|]. simpl. congruence.
Qed.

Lemma removelast_prefix {A} (l : list A) : exists rest, l = removelast l ++ rest.
Proof.
  induction l as [|x l [rest IH]]; [by exists []|]. simpl.
  destruct l as [|y l]; [by exists [x]|]. exists rest. simpl in *. by rewrite <- IH.
Qed.

Lemma clean_prefix (nm rest : jstring) :
  nm <> [] ->
  Forall (fun c => is_box c = false /\ (is_space c = true -> c = SPACE)) (nm ++ rest) ->
  (forall c, head (nm ++ rest) = Some c -> is_space c = false) ->
  clean_name nm.
Proof.
  intros Hne Hall Hhead. split; [done|]. split.
  - by apply Forall_app in Hall as [H _].
  - intros c Hc. apply Hhead. destruct nm; [done|]. exact Hc.
Qed.

Lemma line_name_clean line : line_name line <> [] -> clean_name (line_name line).
Proof.
  intros Hne.
  assert (Hall : Forall (fun c => is_box c = false /\ (is_space c = true -> c = SPACE))
                   (trim (cleanLine line))).
  { pose proof (cleanLine_units line) as H. rewrite Forall_forall in H.
    apply Forall_forall. intros c Hc. apply H.
    apply list_elem_of_In. apply list_elem_of_In in Hc. by apply In_trim. }
  assert (Hhead : forall c, head (trim (cleanLine line)) = Some c -> is_space c = false).
  { intros c Hc. unfold trim in Hc.
    destruct (trimEnd_prefix (trimStart (cleanLine line))) as [rest E].
    apply (drop_while_head is_space (cleanLine line)).
    fold (trimStart (cleanLine line)). rewrite E.
    destruct (trimEnd (trimStart (cleanLine line))); [done|]. exact Hc. }
  unfold line_name in *.
  destruct (endsWith SLASH (trim (cleanLine line))).
  - destruct (removelast_prefix (trim (cleanLine line))) as [rest E].
    apply (clean_prefix _ rest Hne); by rewrite <- E.
  - apply (clean_prefix _ [] Hne); by rewrite app_nil_r.
Qed.

Lemma map_imap_const {A B C} (g : B -> C) (h : A -> C) (l : list A) :
  forall f : nat -> A -> B, (forall k x, g (f k x) = h x) ->
  map g (imap f l) = map h l.
Proof.
  induction l as [|x l IH]; intros f H; [done|].
  simpl. rewrite H. f_equal. apply IH. intros k y. apply H.
Qed.

Lemma parsed_names gen text forest :
  parseStructure gen text = Some forest ->
  map name (forest_nodes forest) = map line_name (node_lines text).
Proof.
  intros Hp. destruct (parseStructure_invariant gen text) as (f & Hp' & _ & Hlab).
  assert (f = forest) as -> by congruence.
  apply (f_equal (map (fun l : label => l.1.1.2))) in Hlab.
  unfold forest_labels in Hlab. rewrite map_map in Hlab. simpl in Hlab.
  etransitivity; [exact Hlab|]. by apply map_imap_const.
Qed.

(** X16: the names of the nodes of a parsed forest, in pre-order, are the
    names read from the lines that get a node, in the order of the text;
    each is non-empty, holds none of the four glyphs, no white space other
    than U+0020, and does not begin with white space. *)
Theorem parsed_names_are_clean (gen : nat -> jstring) (text : jstring) :
  exists forest,
    parseStructure gen text = Some forest
    /\ map name (forest_nodes forest) = map line_name (node_lines text)
    /\ Forall (fun n => clean_name (name n)) (forest_nodes forest).
Proof.
  destruct (parseStructure_invariant gen text) as (forest & Hp & _ & _).
  exists forest. split; [exact Hp|].
  pose proof (parsed_names gen text forest Hp) as Hn. split; [exact Hn|].
  apply (Forall_map name clean_name). rewrite Hn. apply Forall_map.
  apply Forall_forall. intros line Hin. apply line_name_clean.
  unfold node_lines in Hin. apply list_elem_of_In, filter_In in Hin as [_ Hc].
  apply contributes_spec in Hc as [_ Hc]. by apply bool_decide_eq_false in Hc.
Qed.

(** * The two flatteners of the export panel *)

Lemma own_entries_app a b : own_entries (a ++ b) = own_entries a ++ own_entries b.
Proof. apply List.filter_app. Qed.

Lemma assign_key_later key value acc :
  assign_key key value acc = list_to_map (rev (own_entries [(key, value)])) ∪ acc.
Proof.
  unfold assign_key, own_entries, jeqb. simpl.
  destruct (bool_decide (key = u "__proto__")); simpl.
  - by rewrite (left_id_L ∅ (∪)).
  - by rewrite <- insert_union_l, (left_id_L ∅ (∪)).
Qed.

Lemma github_fold basePath cs :
  Forall (fun c => forall base acc,
            github_files_of_node base c acc
            = list_to_map (rev (own_entries (hf_files_of_node base c))) ∪ acc) cs ->
  forall acc,
    fold_left (fun acc c => github_files_of_node basePath c acc) cs acc
    = list_to_map (rev (own_entries (flat_map (hf_files_of_node basePath) cs))) ∪ acc.
Proof.
  induction 1 as [|c cs Hc _ IH]; intros acc; simpl.
  - by rewrite (left_id_L ∅ (∪)).
  - rewrite IH, Hc, own_entries_app, rev_app_distr, list_to_map_app.
    by rewrite (assoc_L (∪)).
Qed.

Lemma github_files_of_node_hf n :
  Forall (fun m => type m = folder -> children m <> None) (preorder n) ->
  forall basePath acc,
    github_files_of_node basePath n acc
    = list_to_map (rev (own_entries (hf_files_of_node basePath n))) ∪ acc.
Proof.
  induction n as [i nm t c ch p IH] using FileNode_ind.
  intros Hok basePath acc. inversion Hok as [|? ? Hn Hkids]; subst.
  cbn [github_files_of_node hf_files_of_node type name children] in *. destruct t.
  - apply assign_key_later.
  - destruct ch as [cs|]; [|by destruct Hn].
    assert (Hcs : Forall (fun c => forall base acc,
                     github_files_of_node base c acc
                     = list_to_map (rev (own_entries (hf_files_of_node base c))) ∪ acc) cs).
    { unfold child_list in IH. clear Hn Hok. cbn [preorder children] in Hkids.
      induction IH as [|x l Hx _ IHl]; [constructor|].
      simpl in Hkids. apply Forall_app in Hkids as [Hx' Hl'].
      constructor; [by apply Hx|by apply IHl]. }
    pose proof (github_fold (fullPath basePath nm) cs Hcs ∅) as Hfold.
    rewrite (right_id_L ∅ (∪)) in Hfold.
    destruct cs as [|c0 cs].
    + cbn [fold_left]. rewrite (left_id_L ∅ (∪)). apply assign_key_later.
    + by rewrite Hfold.
Qed.

Lemma convert_later_wins files basePath :
  Forall (fun n => type n = folder -> children n <> None) (forest_nodes files) ->
  convertFileTreeToGitHubFiles files basePath
  = list_to_map (rev (own_entries (getFilesForHFUpload files basePath))).
Proof.
  intros Hok. unfold convertFileTreeToGitHubFiles, getFilesForHFUpload.
  rewrite github_fold; [by rewrite (right_id_L ∅ (∪))|].
  unfold forest_nodes in Hok. induction files as [|f files IH]; [constructor|].
  simpl in Hok. apply Forall_app in Hok as [Hf Hfs].
  constructor; [|by apply IH].
  intros base acc. by apply github_files_of_node_hf.
Qed.

Lemma later_wins_keys (l : list (jstring * jstring)) path :
  is_Some ((list_to_map (rev l) : gmap jstring jstring) !! path) <-> In path (map fst l).
Proof.
  rewrite <- elem_of_dom, dom_list_to_map_L, elem_of_list_to_set.
  rewrite list_elem_of_fmap, in_map_iff. split.
  - intros (e & -> & He). exists e. split; [done|].
    by apply in_rev, list_elem_of_In.
  - intros (e & <- & He). exists e. split; [done|].
    apply list_elem_of_In. by apply in_rev in He.
Qed.

Lemma own_entries_keys l path :
  In path (map fst (own_entries l)) <-> In path (map fst l) /\ path <> u "__proto__".
Proof.
  unfold own_entries. rewrite !in_map_iff. split.
  - intros (e & <- & He). apply filter_In in He as [He Hk]. split; [by exists e|].
    unfold jeqb in Hk. apply negb_true_iff, bool_decide_eq_false in Hk. exact Hk.
  - intros [(e & <- & He) Hk]. exists e. split; [done|].
    apply filter_In. split; [done|].
    unfold jeqb. apply negb_true_iff. by apply bool_decide_eq_false.
Qed.

Lemma convert_keys files basePath path :
  Forall (fun n => type n = folder -> children n <> None) (forest_nodes files) ->
  is_Some (convertFileTreeToGitHubFiles files basePath !! path)
  <-> In path (map fst (getFilesForHFUpload files basePath)) /\ path <> u "__proto__".
Proof.
  intros Hok. rewrite (convert_later_wins _ _ Hok), later_wins_keys.
  apply own_entries_keys.
Qed.

(** X17: on a forest in which every folder has a [children] array, the
    record [convertFileTreeToGitHubFiles] builds is the list
    [getFilesForHFUpload] builds, less its entries of path [__proto__]
    (assigning to that key makes no property), read as a map in which a
    later entry replaces an earlier one of the same path; so the keys of
    the record are the paths of the list other than [__proto__]. *)
Theorem exporters_agree (files : list FileNode) (basePath : jstring) :
  Forall (fun n => type n = folder -> children n <> None) (forest_nodes files) ->
  convertFileTreeToGitHubFiles files basePath
  = list_to_map (rev (own_entries (getFilesForHFUpload files basePath)))
  /\ (forall path, is_Some (convertFileTreeToGitHubFiles files basePath !! path)
                   <-> In path (map fst (getFilesForHFUpload files basePath))
                       /\ path <> u "__proto__").
Proof.
  intros Hok. split; [by apply convert_later_wins|].
  intros path. by apply convert_keys.
Qed.

Lemma exporters_agree_witness :
  convertFileTreeToGitHubFiles
    [sample_folder [sample_file];
     mkFileNode (u "3") (u "__proto__") file (Some (u "x")) None None; sample_file] []
  = list_to_map [(u "main.py", u "print(1)"); (u "src/main.py", u "print(1)")].
Proof.
  apply (proj1 (exporters_agree
                  [sample_folder [sample_file];
                   mkFileNode (u "3") (u "__proto__") file (Some (u "x")) None None;
                   sample_file] []
                  ltac:(repeat constructor; discriminate))).
Defined.

(** * The list of uploads *)

Lemma is_app_entry_prefix f : is_app_entry f = is_prefix (u "app.") (fst f).
Proof.
  unfold is_app_entry, jeqb. destruct (decide (fst f = u "app.py")) as [E|E].
  - by rewrite E.
  - by rewrite (bool_decide_eq_false_2 _ E).
Qed.

Lemma existsb_app_entry l :
  existsb (fun f => is_prefix (u "app.") (fst f)) l = existsb is_app_entry l.
Proof.
  induction l as [|f l IH]; [done|].
  cbn [existsb]. by rewrite IH, is_app_entry_prefix.
Qed.

(** X19: [ensureAppPy] keeps the list it is given and adds at most the one
    entry [app.py], at the end; applied twice it adds nothing more; for
    the SDKs gradio and streamlit the list it returns has a path that
    begins with [app.] (the test for the path [app.py] is covered by the
    test for that prefix), and for any other SDK it returns the list as it
    was. *)
Theorem ensureAppPy_adds_at_most_one (hfFiles : list (jstring * jstring))
    (sdk : jstring) :
  (exists extra, ensureAppPy hfFiles sdk = hfFiles ++ extra
                 /\ (extra = [] \/ extra = [app_py]))
  /\ ensureAppPy (ensureAppPy hfFiles sdk) sdk = ensureAppPy hfFiles sdk
  /\ (sdk = u "gradio" \/ sdk = u "streamlit" ->
      existsb (fun f => is_prefix (u "app.") (fst f)) (ensureAppPy hfFiles sdk) = true)
  /\ (sdk <> u "gradio" -> sdk <> u "streamlit" -> ensureAppPy hfFiles sdk = hfFiles)
  /\ (forall f, is_app_entry f = is_prefix (u "app.") (fst f)).
Proof.
  assert (Hsome : forall l, existsb is_app_entry (l ++ [app_py]) = true).
  { intros l. rewrite existsb_app. apply orb_true_iff. by right. }
  unfold ensureAppPy.
  destruct (negb (jeqb sdk (u "gradio")) && negb (jeqb sdk (u "streamlit"))) eqn:Hsdk.
  - split; [exists []; rewrite app_nil_r; auto|]. split; [done|].
    split; [|split; [done|apply is_app_entry_prefix]].
    intros [->| ->]; discriminate Hsdk.
  - destruct (existsb is_app_entry hfFiles) eqn:Happ; cbn [negb].
    + split; [exists []; rewrite app_nil_r; auto|]. split; [by rewrite Happ|].
      split; [|split; [|apply is_app_entry_prefix]].
      * intros _. by rewrite existsb_app_entry.
      * intros H1 H2. unfold jeqb in Hsdk.
        rewrite (bool_decide_eq_false_2 _ H1), (bool_decide_eq_false_2 _ H2) in Hsdk.
        discriminate Hsdk.
    + split; [exists [app_py]; auto|]. split; [by rewrite Hsome|].
      split; [|split; [|apply is_app_entry_prefix]].
      * intros _. by rewrite existsb_app_entry.
      * intros H1 H2. unfold jeqb in Hsdk.
        rewrite (bool_decide_eq_false_2 _ H1), (bool_decide_eq_false_2 _ H2) in Hsdk.
        discriminate Hsdk.
Qed.

Lemma ensureAppPy_adds_at_most_one_witness :
  existsb (fun f => is_prefix (u "app.") (fst f))
    (ensureAppPy [(u "README.md", []); (u "src/app.py", [])] (u "gradio")) = true
  /\ ensureAppPy [(u "README.md", [])] (u "static") = [(u "README.md", [])].
Proof.
  split.
  - apply (proj1 (proj2 (proj2 (ensureAppPy_adds_at_most_one
             [(u "README.md", []); (u "src/app.py", [])] (u "gradio"))))).
    left. reflexivity.
  - apply (proj1 (proj2 (proj2 (proj2 (ensureAppPy_adds_at_most_one
             [(u "README.md", [])] (u "static")))))); discriminate.
Defined.

(** * utf8ToBase64 *)

Ltac divlia := zify; Z.to_euclidean_division_equations; lia.

Lemma hex_upper_digit d :
  (d < 16)%N -> is_hex_upper (hex_upper d) = true /\ hex_upper_value (hex_upper d) = d.
Proof.
  intros H. unfold is_hex_upper, hex_upper_value, hex_upper.
  destruct (N.ltb_spec d 10).
  - split.
    + apply orb_true_iff. left. apply andb_true_iff. split; apply N.leb_le; lia.
    + destruct (N.ltb_spec (48 + d) 58); lia.
  - split.
    + apply orb_true_iff. right. apply andb_true_iff. split; apply N.leb_le; lia.
    + destruct (N.ltb_spec (55 + d) 58); lia.
Qed.

Lemma unpercent_step c h l rest :
  unpercent (c :: h :: l :: rest)
  = if (c =? PERCENT)%N && is_hex_upper h && is_hex_upper l
    then (16 * hex_upper_value h + hex_upper_value l)%N :: unpercent rest
    else c :: unpercent (h :: l :: rest).
Proof. reflexivity. Qed.

Lemma unpercent_octet b rest :
  (b < 256)%N -> unpercent (percent_octet b ++ rest) = b :: unpercent rest.
Proof.
  intros H. unfold percent_octet. cbn [app]. rewrite unpercent_step.
  destruct (hex_upper_digit (b / 16)) as [H1 V1]; [divlia|].
  destruct (hex_upper_digit (b mod 16)) as [H2 V2]; [divlia|].
  rewrite H1, H2, V1, V2, N.eqb_refl. cbn [andb]. f_equal. divlia.
Qed.

Lemma unpercent_plain c rest :
  (c =? PERCENT)%N = false -> unpercent (c :: rest) = c :: unpercent rest.
Proof.
  intros H. destruct rest as [|h [|l rest]]; try reflexivity.
  by rewrite unpercent_step, H.
Qed.

Lemma unpercent_escaped bs rest :
  Forall (fun b => (b < 256)%N) bs ->
  unpercent (flat_map percent_octet bs ++ rest) = bs ++ unpercent rest.
Proof.
  induction 1 as [|b bs Hb _ IH]; [done|].
  cbn [flat_map]. rewrite <- app_assoc, unpercent_octet by done.
  by rewrite IH.
Qed.

Lemma utf8_octets_bytes cp :
  (cp < 2097152)%N -> Forall (fun b => (b < 256)%N) (utf8_octets cp).
Proof.
  intros H. unfold utf8_octets.
  destruct (N.ltb_spec cp 128); [repeat constructor; lia|].
  destruct (N.ltb_spec cp 2048); [repeat constructor; divlia|].
  destruct (N.ltb_spec cp 65536); repeat constructor; divlia.
Qed.

Lemma uri_unreserved_ascii c :
  uri_unreserved c = true -> (c < 128)%N /\ c <> PERCENT.
Proof.
  unfold uri_unreserved, PERCENT. cbn [existsb].
  rewrite !orb_true_iff, !andb_true_iff, !N.leb_le, !N.eqb_eq. lia.
Qed.

Lemma is_lead_bounds c : is_lead c = true -> (55296 <= c <= 56319)%N.
Proof. unfold is_lead. rewrite andb_true_iff, !N.leb_le. lia. Qed.

Lemma is_trail_bounds c : is_trail c = true -> (56320 <= c <= 57343)%N.
Proof. unfold is_trail. rewrite andb_true_iff, !N.leb_le. lia. Qed.

Lemma not_surrogate c :
  (c < 55296)%N -> is_lead c = false /\ is_trail c = false.
Proof.
  intros H. unfold is_lead, is_trail. split; apply andb_false_iff; left;
    apply N.leb_gt; lia.
Qed.

Lemma utf8_octets_ascii c : (c < 128)%N -> utf8_octets c = [c].
Proof. intros H. unfold utf8_octets. by destruct (N.ltb_spec c 128); [|lia]. Qed.

Lemma encodeURIComponent_utf8 n :
  forall s, length s <= n -> units16 s -> well_formed s = true ->
  exists e,
    encodeURIComponent s = Done e
    /\ unpercent e = utf8_of s
    /\ Forall (fun b => (b < 256)%N) (utf8_of s).
Proof.
  induction n as [|n IH]; intros s Hlen H16 Hwf.
  { destruct s; [|simpl in Hlen; lia]. exists []. by repeat split. }
  destruct s as [|c s1]; [exists []; by repeat split|].
  inversion H16 as [|? ? Hc H16']; subst. simpl in Hlen.
  simpl in Hwf |- *. destruct (uri_unreserved c) eqn:Hun.
  - apply uri_unreserved_ascii in Hun as [Hlt Hne].
    destruct (not_surrogate c) as [Hl Ht]; [lia|]. rewrite Hl, Ht in *.
    destruct (IH s1) as (e & -> & He & Hb); [lia|done|done|].
    exists (c :: e). split; [done|]. rewrite utf8_octets_ascii by done.
    split.
    + rewrite unpercent_plain by (apply N.eqb_neq; done). by rewrite He.
    + constructor; [lia|done].
  - destruct (is_trail c) eqn:Ht; [done|].
    destruct (is_lead c) eqn:Hl.
    + destruct s1 as [|d s2]; [done|].
      destruct (is_trail d) eqn:Htd; [|done]. simpl in Hwf.
      inversion H16' as [|? ? Hd H16'']; subst. simpl in Hlen.
      destruct (IH s2) as (e & -> & He & Hb); [lia|done|done|].
      apply is_lead_bounds in Hl. apply is_trail_bounds in Htd.
      assert (Hcp : Forall (fun b => (b < 256)%N) (utf8_octets (pair_code_point c d))).
      { apply utf8_octets_bytes. unfold pair_code_point. lia. }
      eexists. split; [done|]. split.
      * unfold escaped. by rewrite unpercent_escaped, He.
      * by apply Forall_app.
    + destruct (IH s1) as (e & -> & He & Hb); [lia|done|done|].
      assert (Hcp : Forall (fun b => (b < 256)%N) (utf8_octets c)).
      { apply utf8_octets_bytes. lia. }
      eexists. split; [done|]. split.
      * unfold escaped. by rewrite unpercent_escaped, He.
      * by apply Forall_app.
Qed.

Lemma encodeURIComponent_lone n :
  forall s, length s <= n -> well_formed s = false ->
  encodeURIComponent s = Thrown URIError.
Proof.
  induction n as [|n IH]; intros s Hlen Hwf.
  { destruct s; [done|simpl in Hlen; lia]. }
  destruct s as [|c s1]; [done|]. simpl in Hlen.
  simpl in Hwf |- *. destruct (uri_unreserved c) eqn:Hun.
  - apply uri_unreserved_ascii in Hun as [Hlt Hne].
    destruct (not_surrogate c) as [Hl Ht]; [lia|]. rewrite Hl, Ht in *.
    rewrite IH by (done || lia). done.
  - destruct (is_trail c) eqn:Ht; [done|].
    destruct (is_lead c) eqn:Hl.
    + destruct s1 as [|d s2]; [done|].
      destruct (is_trail d) eqn:Htd; [|done]. simpl in Hwf, Hlen.
      rewrite IH by (done || lia). done.
    + rewrite IH by (done || lia). done.
Qed.

Lemma forallb_bytes bs :
  Forall (fun b => (b < 256)%N) bs -> forallb (fun c => (c <=? 255)%N) bs = true.
Proof.
  induction 1 as [|b bs Hb _ IH]; [done|]. simpl. rewrite IH, andb_true_r.
  apply N.leb_le. lia.
Qed.

Lemma ascii_string s :
  Forall (fun c => (c < 128)%N) s ->
  units16 s /\ well_formed s = true /\ utf8_of s = s.
Proof.
  induction 1 as [|c s Hc _ (H16 & Hwf & Hu)]; [by repeat split; constructor|].
  destruct (not_surrogate c) as [Hl Ht]; [lia|].
  split; [constructor; [lia|done]|]. simpl. rewrite Hl, Ht.
  split; [done|]. by rewrite utf8_octets_ascii, Hu.
Qed.

(** X20: on a string of 16-bit units, [utf8ToBase64] throws exactly when
    a surrogate is not half of a pair, and then a URIError; otherwise it
    returns the Base64 text of the UTF-8 octets of the string: the input of
    its [btoa] never has a unit above U+00FF. On ASCII text it agrees with
    a plain [btoa], which line 231 uses and which throws as soon as the
    string has a unit above U+00FF. *)
Theorem utf8ToBase64_encodes_utf8 (str : jstring) :
  units16 str ->
  (well_formed str = true -> utf8ToBase64 str = Done (base64 (utf8_of str)))
  /\ (well_formed str = false -> utf8ToBase64 str = Thrown URIError)
  /\ utf8ToBase64 str <> Thrown InvalidCharacterError
  /\ (Forall (fun c => (c < 128)%N) str -> utf8ToBase64 str = btoa str)
  /\ (Exists (fun c => (255 < c)%N) str -> btoa str = Thrown InvalidCharacterError).
Proof.
  intros H16.
  assert (Hgood : well_formed str = true ->
                  utf8ToBase64 str = Done (base64 (utf8_of str))).
  { intros Hwf.
    destruct (encodeURIComponent_utf8 (length str) str) as (e & He & Hu & Hb);
      [lia|done|done|].
    unfold utf8ToBase64, btoa. rewrite He, Hu. by rewrite forallb_bytes. }
  assert (Hbad : well_formed str = false -> utf8ToBase64 str = Thrown URIError).
  { intros Hwf. unfold utf8ToBase64.
    by rewrite (encodeURIComponent_lone (length str)). }
  split; [exact Hgood|]. split; [exact Hbad|]. split; [|split].
  - destruct (well_formed str); [rewrite Hgood|rewrite Hbad]; done.
  - intros Hascii. destruct (ascii_string str Hascii) as (_ & Hwf & Hu).
    rewrite (Hgood Hwf), Hu. unfold btoa. rewrite forallb_bytes; [done|].
    eapply Forall_impl; [exact Hascii|]. simpl. lia.
  - intros Hwide. unfold btoa.
    destruct (forallb (fun c => (c <=? 255)%N) str) eqn:E; [|done].
    rewrite forallb_forall in E. apply Exists_exists in Hwide as (c & Hin & Hc).
    apply list_elem_of_In, E, N.leb_le in Hin. lia.
Qed.

Lemma utf8ToBase64_encodes_utf8_witness :
  utf8ToBase64 [8364%N] = Done (u "4oKs")
  /\ btoa [8364%N] = Thrown InvalidCharacterError.
Proof.
  destruct (utf8ToBase64_encodes_utf8 [8364%N]) as (Hgood & _ & _ & _ & Hwide).
  - repeat constructor.
  - split; [apply Hgood; reflexivity|]. apply Hwide. left. reflexivity.
Defined.

(** ** Nothing is lost *)

Lemma b64_digit_value d :
  (d < 64)%N -> b64_value (b64_digit d) = d /\ b64_digit d <> PAD.
Proof.
  intros H. unfold b64_value, b64_digit, PAD.
  repeat match goal with
         | |- context [(?a <? ?b)%N] => destruct (N.ltb_spec a b)
         | |- context [(?a =? ?b)%N] => destruct (N.eqb_spec a b)
         end; lia.
Qed.

Lemma unbase64_step w x y z rest :
  unbase64 (w :: x :: y :: z :: rest)
  = if (y =? PAD)%N then [(b64_value w * 4 + b64_value x / 16)%N]
    else if (z =? PAD)%N
         then [(b64_value w * 4 + b64_value x / 16)%N;
               (b64_value x mod 16 * 16 + b64_value y / 4)%N]
         else (b64_value w * 4 + b64_value x / 16)%N
              :: (b64_value x mod 16 * 16 + b64_value y / 4)%N
              :: (b64_value y mod 4 * 64 + b64_value z)%N
              :: unbase64 rest.
Proof. reflexivity. Qed.

Ltac b64_read d :=
  let V := fresh "V" in
  let P := fresh "P" in
  destruct (b64_digit_value d) as [V P]; [divlia|];
  rewrite ?V; try apply N.eqb_neq in P; rewrite ?P.

Lemma unbase64_base64 n :
  forall bs, length bs <= n -> Forall (fun b => (b < 256)%N) bs ->
  unbase64 (base64 bs) = bs.
Proof.
  induction n as [|n IH]; intros bs Hlen Hb.
  { destruct bs; [done|simpl in Hlen; lia]. }
  destruct bs as [|a [|b [|c rest]]]; [done| | |].
  - inversion Hb as [|? ? Ha _]; subst.
    cbn [base64]. rewrite unbase64_step, N.eqb_refl.
    b64_read (a / 4)%N. b64_read (a mod 4 * 16)%N. f_equal. divlia.
  - inversion Hb as [|? ? Ha Hb']; subst. inversion Hb' as [|? ? Hb0 _]; subst.
    cbn [base64]. rewrite unbase64_step, N.eqb_refl.
    b64_read (a / 4)%N. b64_read (a mod 4 * 16 + b / 16)%N.
    b64_read (b mod 16 * 4)%N. f_equal; [divlia|]. f_equal. divlia.
  - inversion Hb as [|? ? Ha Hb']; subst. inversion Hb' as [|? ? Hb0 Hb'']; subst.
    inversion Hb'' as [|? ? Hc Hrest]; subst. simpl in Hlen.
    cbn [base64 app]. rewrite unbase64_step.
    b64_read (a / 4)%N. b64_read (a mod 4 * 16 + b / 16)%N.
    b64_read (b mod 16 * 4 + c / 64)%N. b64_read (c mod 64)%N.
    rewrite IH by (done || lia).
    f_equal; [divlia|]. f_equal; [divlia|]. f_equal. divlia.
Qed.

Lemma utf8_units_step b0 t0 :
  utf8_units (b0 :: t0)
  = if (b0 <? 128)%N then b0 :: utf8_units t0
    else
      match t0 with
      | [] => []
      | b1 :: t1 =>
          if (b0 <? 224)%N
          then ((b0 - 192) * 64 + (b1 - 128))%N :: utf8_units t1
          else
            match t1 with
            | [] => []
            | b2 :: t2 =>
                if (b0 <? 240)%N
                then ((b0 - 224) * 4096 + (b1 - 128) * 64 + (b2 - 128))%N
                     :: utf8_units t2
                else
                  match t2 with
                  | [] => []
                  | b3 :: t3 =>
                      (55296 + ((b0 - 240) * 262144 + (b1 - 128) * 4096
                                + (b2 - 128) * 64 + (b3 - 128) - 65536) / 1024)%N
                      :: (56320 + ((b0 - 240) * 262144 + (b1 - 128) * 4096
                                   + (b2 - 128) * 64 + (b3 - 128) - 65536) mod 1024)%N
                      :: utf8_units t3
                  end
            end
      end.
Proof. reflexivity. Qed.

Lemma utf8_units_unit c rest :
  (c < 65536)%N -> utf8_units (utf8_octets c ++ rest) = c :: utf8_units rest.
Proof.
  intros H. unfold utf8_octets.
  destruct (N.ltb_spec c 128) as [H1|H1].
  - cbn [app]. rewrite utf8_units_step.
    by destruct (N.ltb_spec c 128); [|lia].
  - destruct (N.ltb_spec c 2048) as [H2|H2].
    + cbn [app]. rewrite utf8_units_step.
      destruct (N.ltb_spec (192 + c / 64) 128); [divlia|].
      destruct (N.ltb_spec (192 + c / 64) 224); [|divlia].
      f_equal. divlia.
    + destruct (N.ltb_spec c 65536) as [H3|H3]; [|lia].
      cbn [app]. rewrite utf8_units_step.
      destruct (N.ltb_spec (224 + c / 4096) 128); [divlia|].
      destruct (N.ltb_spec (224 + c / 4096) 224); [divlia|].
      destruct (N.ltb_spec (224 + c / 4096) 240); [|divlia].
      f_equal. divlia.
Qed.

Lemma utf8_units_pair c d rest :
  is_lead c = true -> is_trail d = true ->
  utf8_units (utf8_octets (pair_code_point c d) ++ rest) = c :: d :: utf8_units rest.
Proof.
  intros Hc Hd. apply is_lead_bounds in Hc. apply is_trail_bounds in Hd.
  assert (Hx : exists x y, (x < 1024 /\ y < 1024 /\ c = 55296 + x /\ d = 56320 + y)%N).
  { exists (c - 55296)%N, (d - 56320)%N. lia. }
  destruct Hx as (x & y & Hx & Hy & -> & ->).
  unfold pair_code_point.
  replace ((55296 + x - 55296) * 1024 + (56320 + y - 56320) + 65536)%N
    with (65536 + (x * 1024 + y))%N by lia.
  set (v := (x * 1024 + y)%N). assert (Hv : (v < 1048576)%N) by (unfold v; lia).
  unfold utf8_octets.
  destruct (N.ltb_spec (65536 + v) 128); [lia|].
  destruct (N.ltb_spec (65536 + v) 2048); [lia|].
  destruct (N.ltb_spec (65536 + v) 65536); [lia|].
  cbn [app]. rewrite utf8_units_step.
  destruct (N.ltb_spec (240 + (65536 + v) / 262144) 128); [divlia|].
  destruct (N.ltb_spec (240 + (65536 + v) / 262144) 224); [divlia|].
  destruct (N.ltb_spec (240 + (65536 + v) / 262144) 240); [divlia|].
  assert (E : ((240 + (65536 + v) / 262144 - 240) * 262144
               + (128 + (65536 + v) / 4096 mod 64 - 128) * 4096
               + (128 + (65536 + v) / 64 mod 64 - 128) * 64
               + (128 + (65536 + v) mod 64 - 128) - 65536 = v)%N) by divlia.
  rewrite E. f_equal; [unfold v; divlia|]. f_equal. unfold v. divlia.
Qed.

Lemma utf8_units_utf8_of n :
  forall s, length s <= n -> units16 s -> well_formed s = true ->
  utf8_units (utf8_of s) = s.
Proof.
  induction n as [|n IH]; intros s Hlen H16 Hwf.
  { destruct s; [done|simpl in Hlen; lia]. }
  destruct s as [|c s1]; [done|].
  inversion H16 as [|? ? Hc H16']; subst. simpl in Hlen.
  simpl in Hwf |- *. destruct (is_trail c) eqn:Ht; [done|].
  destruct (is_lead c) eqn:Hl.
  - destruct s1 as [|d s2]; [done|].
    destruct (is_trail d) eqn:Htd; [|done]. simpl in Hwf, Hlen.
    inversion H16' as [|? ? Hd H16'']; subst.
    rewrite utf8_units_pair by done. by rewrite IH by (done || lia).
  - rewrite utf8_units_unit by done. by rewrite IH by (done || lia).
Qed.

Lemma utf8ToBase64_done str x :
  units16 str -> utf8ToBase64 str = Done x ->
  well_formed str = true
  /\ x = base64 (utf8_of str)
  /\ Forall (fun b => (b < 256)%N) (utf8_of str).
Proof.
  intros H16 Hx. destruct (well_formed str) eqn:Hwf.
  - destruct (encodeURIComponent_utf8 (length str) str) as (e & He & Hu & Hb);
      [lia|done|done|].
    unfold utf8ToBase64, btoa in Hx. rewrite He, Hu, forallb_bytes in Hx by done.
    split; [done|]. split; [congruence|done].
  - unfold utf8ToBase64 in Hx.
    by rewrite (encodeURIComponent_lone (length str)) in Hx.
Qed.

Lemma base64_length n :
  forall bs, length bs <= n -> length (base64 bs) = 4 * ((length bs + 2) / 3).
Proof.
  induction n as [|n IH]; intros bs Hlen.
  { destruct bs; [done|simpl in Hlen; lia]. }
  destruct bs as [|a [|b [|c rest]]]; [done|done|done|].
  simpl in Hlen. cbn [base64 app length]. rewrite IH by lia.
  replace (S (S (S (length rest))) + 2) with (1 * 3 + (length rest + 2)) by lia.
  rewrite Nat.div_add_l by lia. lia.
Qed.

(** X21: what [utf8ToBase64] returns determines the string: reading the
    Base64 text back to octets and the octets as UTF-8 gives the string
    again, so two strings with the same result are equal; and the result
    has four characters for every three octets of the UTF-8 form, the last
    group padded. *)
Theorem utf8ToBase64_loses_nothing (str x : jstring) :
  units16 str -> utf8ToBase64 str = Done x ->
  utf8_units (unbase64 x) = str
  /\ length x = 4 * ((length (utf8_of str) + 2) / 3)
  /\ (forall other, units16 other -> utf8ToBase64 other = Done x -> other = str).
Proof.
  intros H16 Hx.
  assert (Hback : forall s, units16 s -> utf8ToBase64 s = Done x ->
                            utf8_units (unbase64 x) = s).
  { intros s Hs Hsx. destruct (utf8ToBase64_done s x Hs Hsx) as (Hwf & -> & Hb).
    rewrite (unbase64_base64 (length (utf8_of s))) by (done || lia).
    by apply (utf8_units_utf8_of (length s)). }
  split; [by apply Hback|]. split.
  - destruct (utf8ToBase64_done str x H16 Hx) as (_ & -> & _).
    by apply (base64_length (length (utf8_of str))).
  - intros other Ho Hox. rewrite <- (Hback other Ho Hox). by apply Hback.
Qed.

Lemma utf8ToBase64_loses_nothing_witness :
  utf8_units (unbase64 (u "8J+YgA==")) = [55357%N; 56832%N].
Proof.
  apply (proj1 (utf8ToBase64_loses_nothing [55357%N; 56832%N] (u "8J+YgA==")
                  ltac:(repeat constructor) eq_refl)).
Defined.

(** * One upload, against any remote *)

Lemma retry_loop_any remote tries :
  forall left t delay lastErr,
    t + left = tries -> 0 < left ->
    exists r out,
      t + r < tries
      /\ retry_loop remote tries left t delay lastErr = (retry_trace t delay r, out)
      /\ (forall k, t <= k < t + r -> status (remote k) = 404%Z)
      /\ ((out = None /\ ok (remote (t + r)) = true)
          \/ (out = Some (Some (remote (t + r)))
              /\ ok (remote (t + r)) = false
              /\ (status (remote (t + r)) <> 404%Z \/ t + r = tries - 1))).
Proof.
  induction left as [|left IH]; intros t delay lastErr Hsum Hpos; [lia|].
  simpl. destruct (ok (remote t)) eqn:Hok.
  - exists 0, None. rewrite Nat.add_0_r. split; [lia|]. split; [done|].
    split; [intros k Hk; lia|]. by left.
  - destruct (Z.eqb_spec (status (remote t)) 404) as [H404|Hne]; simpl.
    + destruct (Nat.ltb_spec t (tries - 1)) as [Hlt|Hge].
      * destruct (IH (S t) (next_delay delay) (Some (remote t)))
          as (r & out & Hr & -> & Hbefore & Hend); [lia|lia|].
        exists (S r), out. replace (t + S r) with (S t + r) by lia.
        split; [lia|]. split; [done|]. split; [|exact Hend].
        intros k Hk. destruct (decide (k = t)) as [->|Hkt]; [done|].
        apply Hbefore. lia.
      * exists 0, (Some (Some (remote t))). rewrite Nat.add_0_r.
        split; [lia|]. split; [done|]. split; [intros k Hk; lia|].
        right. split; [done|]. split; [done|]. right. lia.
    + exists 0, (Some (Some (remote t))). rewrite Nat.add_0_r.
      split; [lia|]. split; [done|]. split; [intros k Hk; lia|].
      right. split; [done|]. split; [done|]. by left.
Qed.

Lemma encodeURIComponent_well_formed n :
  forall s, length s <= n -> well_formed s = true ->
  exists e, encodeURIComponent s = Done e.
Proof.
  induction n as [|n IH]; intros s Hlen Hwf.
  { destruct s; [by exists []|simpl in Hlen; lia]. }
  destruct s as [|c s1]; [by exists []|]. simpl in Hlen.
  assert (Hmap : forall (f : jstring -> jstring) s', length s' <= n ->
            well_formed s' = true ->
            exists e, attempt_map f (encodeURIComponent s') = Done e).
  { intros f s' Hs' Hw. destruct (IH s' Hs' Hw) as [e ->]. by eexists. }
  simpl in Hwf |- *. destruct (uri_unreserved c) eqn:Hun.
  - apply uri_unreserved_ascii in Hun as [Hlt Hne].
    destruct (not_surrogate c) as [Hl Ht]; [lia|]. rewrite Hl, Ht in Hwf.
    apply Hmap; [lia|done].
  - destruct (is_trail c); [done|].
    destruct (is_lead c); [|apply Hmap; [lia|done]].
    destruct s1 as [|d s2]; [done|].
    destruct (is_trail d); [|done]. simpl in Hwf, Hlen. apply Hmap; [lia|done].
Qed.

Lemma encodeURIComponent_throws n :
  forall s e, length s <= n -> encodeURIComponent s = Thrown e -> e = URIError.
Proof.
  induction n as [|n IH]; intros s e Hlen.
  { destruct s; [done|simpl in Hlen; lia]. }
  destruct s as [|c s1]; [done|]. simpl in Hlen. simpl.
  assert (Hmap : forall (f : jstring -> jstring) s', length s' <= n ->
            attempt_map f (encodeURIComponent s') = Thrown e -> e = URIError).
  { intros f s' Hs'. destruct (encodeURIComponent s') as [r|e'] eqn:E; [done|].
    simpl. intros [= <-]. by eapply IH. }
  destruct (uri_unreserved c); [apply Hmap; lia|].
  destruct (is_trail c); [congruence|].
  destruct (is_lead c); [|apply Hmap; lia].
  destruct s1 as [|d s2]; [congruence|].
  destruct (is_trail d); [|congruence]. apply Hmap. simpl in Hlen. lia.
Qed.

Lemma utf8ToBase64_lone s : well_formed s = false -> utf8ToBase64 s = Thrown URIError.
Proof.
  intros H. unfold utf8ToBase64. by rewrite (encodeURIComponent_lone (length s)).
Qed.

Lemma utf8ToBase64_well_formed s :
  units16 s -> well_formed s = true -> exists b, utf8ToBase64 s = Done b.
Proof.
  intros H16 Hwf.
  destruct (encodeURIComponent_utf8 (length s) s) as (e & He & Hu & Hb);
    [lia|done|done|].
  unfold utf8ToBase64, btoa. rewrite He, Hu, forallb_bytes by done. by eexists.
Qed.

(** What [uploadWithRetry] does for a file that can be encoded: the loop. *)
Lemma uploadWithRetry_encodable remote file tries :
  well_formed (fst file) = true -> units16 (snd file) -> well_formed (snd file) = true ->
  uploadWithRetry remote file tries
  = (fst (retry_loop remote tries tries 0 first_delay None),
     Done (loop_outcome (fst file)
             (snd (retry_loop remote tries tries 0 first_delay None)))).
Proof.
  intros Hp H16 Hc. unfold uploadWithRetry.
  destruct (encodeURIComponent_well_formed _ _ (le_n _) Hp) as [e ->].
  destruct (utf8ToBase64_well_formed _ H16 Hc) as [b ->].
  destruct (retry_loop remote tries tries 0 first_delay None) as [evs out].
  by destruct tries.
Qed.

Lemma uploadWithRetry_bad_path remote file tries :
  well_formed (fst file) = false ->
  uploadWithRetry remote file tries = ([], Thrown URIError).
Proof.
  intros H. unfold uploadWithRetry.
  by rewrite (encodeURIComponent_lone (length (fst file))).
Qed.

Lemma uploadWithRetry_bad_content remote file tries :
  0 < tries -> well_formed (snd file) = false ->
  uploadWithRetry remote file tries = ([], Thrown URIError).
Proof.
  intros Hpos H. unfold uploadWithRetry.
  destruct (encodeURIComponent (fst file)) as [p|e] eqn:Ep.
  - rewrite (utf8ToBase64_lone _ H). destruct tries; [lia|done].
  - by rewrite (encodeURIComponent_throws _ _ _ (le_n _) Ep).
Qed.

Lemma uploadWithRetry_no_path remote file :
  well_formed (fst file) = true ->
  uploadWithRetry remote file 0 = ([], Done TypeError).
Proof.
  intros Hp. unfold uploadWithRetry.
  by destruct (encodeURIComponent_well_formed _ _ (le_n _) Hp) as [e ->].
Qed.

(** ** C7: the retries of one upload *)

(** C7, as the code behaves: for a file whose path and content (a
    string of 16-bit units) have no surrogate outside a pair, against a
    remote that answers 404 to every attempt, [uploadWithRetry] with the default of 10 tries makes the ten
    requests 0..9 and sleeps nine times, for delays that never decrease and
    never exceed 5000 ms, then throws; the error message is the [error]
    member of the last response body when it has one, and otherwise the
    text naming the file path and the status 404. Whatever the number of
    tries, a failure with a status other than 404 at attempt [T] is the
    last request made, and the error is thrown for it. For a file whose
    path or content has a surrogate outside a pair no request is made at
    all: encoding it throws a URIError. *)
Theorem retry_is_bounded (remote : nat -> response) (file : jstring * jstring) :
  (well_formed (fst file) = true -> units16 (snd file) ->
   well_formed (snd file) = true ->
   ((forall t, status (remote t) = 404%Z) ->
    let '(evs, out) := uploadWithRetry remote file default_tries in
    fetches evs = seq 0 10
    /\ sleeps evs = backoff first_delay 9
    /\ nondecreasing (sleeps evs)
    /\ Forall (fun d => (d <= max_delay)%Q) (sleeps evs)
    /\ out = Done (Threw (thrown_message (fst file) (remote 9)))
    /\ (body_error (remote 9) = None ->
        out = Done (Threw (failure_message (fst file) 404))
        /\ contains (fst file) (failure_message (fst file) 404) = true
        /\ contains (u "404") (failure_message (fst file) 404) = true))
   /\ (forall tries T,
         T < tries ->
         (forall k, k < T -> status (remote k) = 404%Z) ->
         ok (remote T) = false ->
         status (remote T) <> 404%Z ->
         let '(evs, out) := uploadWithRetry remote file tries in
         fetches evs = seq 0 (S T)
         /\ out = Done (Threw (thrown_message (fst file) (remote T)))))
  /\ (well_formed (fst file) = false \/ well_formed (snd file) = false ->
      uploadWithRetry remote file default_tries = ([], Thrown URIError)).
Proof.
  split.
  - intros Hp H16 Hc. split.
    + intros H404. rewrite (uploadWithRetry_encodable _ _ _ Hp H16 Hc).
      unfold default_tries.
      rewrite (retry_loop_stops remote 10 9) by
        (try lia; auto using not_found_not_ok).
      cbn [fst snd loop_outcome]. simpl Nat.sub.
      rewrite fetches_retry_trace, sleeps_retry_trace.
      destruct (backoff_capped first_delay 9) as [Hcap Hmono]; [done|done|].
      repeat split; try done.
      * unfold thrown_message. rewrite H. by rewrite H404.
      * apply (failure_message_names (fst file) 404).
      * apply (failure_message_names (fst file) 404).
    + intros tries T HT Hbefore Hfail Hst.
      rewrite (uploadWithRetry_encodable _ _ _ Hp H16 Hc).
      rewrite (retry_loop_stops remote tries T) by (try lia; auto).
      cbn [fst snd loop_outcome].
      rewrite Nat.sub_0_r, fetches_retry_trace. by split.
  - intros [H|H].
    + by apply uploadWithRetry_bad_path.
    + apply uploadWithRetry_bad_content; [unfold default_tries; lia|done].
Qed.

Lemma retry_is_bounded_witness :
  (let '(evs, out) :=
     uploadWithRetry silent_remote (u "app.py", u "print(1)") default_tries in
   fetches evs = seq 0 10
   /\ sleeps evs = backoff first_delay 9
   /\ nondecreasing (sleeps evs)
   /\ Forall (fun d => (d <= max_delay)%Q) (sleeps evs)
   /\ out = Done (Threw (thrown_message (u "app.py") (silent_remote 9)))
   /\ (body_error (silent_remote 9) = None ->
       out = Done (Threw (failure_message (u "app.py") 404))
       /\ contains (u "app.py") (failure_message (u "app.py") 404) = true
       /\ contains (u "404") (failure_message (u "app.py") 404) = true))
  /\ uploadWithRetry silent_remote (lone_path, u "print(1)") default_tries
     = ([], Thrown URIError).
Proof.
  split.
  - apply (proj1 (retry_is_bounded silent_remote (u "app.py", u "print(1)")));
      [reflexivity|repeat constructor|reflexivity|].
    intros t. reflexivity.
  - apply (proj2 (retry_is_bounded silent_remote (lone_path, u "print(1)"))).
    left. reflexivity.
Defined.

(** C7 fails as stated, in two ways. When every 404 carries the body
    [{"error": "Repository not found"}], ten attempts are made and the
    error thrown has that text for its message, which names neither the
    file path nor the status. And for the file of path [bad\ud800.txt]
    against a remote that answers 404 to every attempt, no attempt is
    made: a URIError is thrown before the first. *)
Lemma remote_error_replaces_message :
  (let '(evs, out) :=
     uploadWithRetry not_found_remote (u "app.py", u "print(1)") default_tries in
   fetches evs = seq 0 10
   /\ out = Done (Threw (u "Repository not found"))
   /\ contains (u "app.py") (u "Repository not found") = false
   /\ contains (u "404") (u "Repository not found") = false)
  /\ (let '(evs, out) :=
        uploadWithRetry silent_remote (lone_path, u "print(1)") default_tries in
      fetches evs = [] /\ out = Thrown URIError).
Proof. vm_compute. repeat split. Qed.

(** X18: for a file whose path and content (a string of 16-bit units)
    have no surrogate outside a pair, whatever the remote answers, [uploadWithRetry(file, tries)] makes
    the requests 0 to [r] for some [r < tries], with one sleep before each
    request but the first, the sleeps starting at 2000 ms, never
    decreasing and never above 5000 ms; every request before the last was
    answered 404; it returns exactly when the last answer is ok, and
    otherwise throws for the last answer, which is either no 404 or the
    answer to the last request allowed. With [tries = 0] it makes no
    request and ends in a TypeError, [lastErr] being undefined. For a path
    with a surrogate outside a pair, whatever [tries] is, and for such a
    content when [tries] is not 0, it makes no request and throws a
    URIError. *)
Theorem upload_makes_at_most_tries_requests (remote : nat -> response)
    (file : jstring * jstring) (tries : nat) :
  (well_formed (fst file) = false ->
   uploadWithRetry remote file tries = ([], Thrown URIError))
  /\ (well_formed (fst file) = true ->
      (tries = 0 -> uploadWithRetry remote file tries = ([], Done TypeError))
      /\ (0 < tries -> well_formed (snd file) = false ->
          uploadWithRetry remote file tries = ([], Thrown URIError))
      /\ (0 < tries -> units16 (snd file) -> well_formed (snd file) = true ->
          exists r,
            r < tries
            /\ fst (uploadWithRetry remote file tries) = retry_trace 0 first_delay r
            /\ fetches (fst (uploadWithRetry remote file tries)) = seq 0 (S r)
            /\ sleeps (fst (uploadWithRetry remote file tries)) = backoff first_delay r
            /\ Forall (fun d => (d <= max_delay)%Q) (backoff first_delay r)
            /\ nondecreasing (backoff first_delay r)
            /\ (forall k, k < r -> status (remote k) = 404%Z)
            /\ (ok (remote r) = true ->
                snd (uploadWithRetry remote file tries) = Done Returned)
            /\ (ok (remote r) = false ->
                snd (uploadWithRetry remote file tries)
                = Done (Threw (thrown_message (fst file) (remote r)))
                /\ (status (remote r) <> 404%Z \/ r = tries - 1)))).
Proof.
  split; [apply uploadWithRetry_bad_path|]. intros Hp.
  split; [intros ->; by apply uploadWithRetry_no_path|].
  split; [intros Hpos Hc; by apply uploadWithRetry_bad_content|].
  intros Hpos H16 Hc. rewrite (uploadWithRetry_encodable _ _ _ Hp H16 Hc).
  destruct (retry_loop_any remote tries tries 0 first_delay None)
    as (r & out & Hr & Hloop & Hbefore & Hend); [lia|lia|].
  simpl in Hr, Hbefore, Hend. exists r. rewrite Hloop. cbn [fst snd].
  rewrite fetches_retry_trace, sleeps_retry_trace.
  destruct (backoff_capped first_delay r) as [Hcap Hmono]; [done|done|].
  split; [lia|]. do 5 (split; [done|]).
  split; [intros k Hk; apply Hbefore; lia|].
  destruct Hend as [[-> Hok]|(-> & Hok & Hstop)].
  - split; [done|]. intros H. congruence.
  - split; [intros H; congruence|]. intros _. by split.
Qed.

Lemma upload_makes_at_most_tries_requests_witness :
  (exists r,
     r < 3
     /\ fst (uploadWithRetry silent_remote (u "app.py", u "print(1)") 3)
        = retry_trace 0 first_delay r
     /\ fetches (fst (uploadWithRetry silent_remote (u "app.py", u "print(1)") 3))
        = seq 0 (S r)
     /\ sleeps (fst (uploadWithRetry silent_remote (u "app.py", u "print(1)") 3))
        = backoff first_delay r
     /\ Forall (fun d => (d <= max_delay)%Q) (backoff first_delay r)
     /\ nondecreasing (backoff first_delay r)
     /\ (forall k, k < r -> status (silent_remote k) = 404%Z)
     /\ (ok (silent_remote r) = true ->
         snd (uploadWithRetry silent_remote (u "app.py", u "print(1)") 3)
         = Done Returned)
     /\ (ok (silent_remote r) = false ->
         snd (uploadWithRetry silent_remote (u "app.py", u "print(1)") 3)
         = Done (Threw (thrown_message (u "app.py") (silent_remote r)))
         /\ (status (silent_remote r) <> 404%Z \/ r = 3 - 1)))
  /\ uploadWithRetry silent_remote (lone_path, u "print(1)") 3
     = ([], Thrown URIError).
Proof.
  split.
  - apply (proj2 (upload_makes_at_most_tries_requests silent_remote
                    (u "app.py", u "print(1)") 3));
      [reflexivity|lia|repeat constructor|reflexivity].
  - apply (proj1 (upload_makes_at_most_tries_requests silent_remote
                    (lone_path, u "print(1)") 3)).
    reflexivity.
Defined.

(** * The loop of uploads *)

Lemma upload_one_unencodable remote file :
  well_formed (fst file) = false \/ well_formed (snd file) = false ->
  upload_one remote file = ([], Thrown URIError).
Proof.
  intros [H|H]; unfold upload_one.
  - by apply uploadWithRetry_bad_path.
  - apply uploadWithRetry_bad_content; [unfold default_tries; lia|done].
Qed.

Lemma upload_one_fetches remote file :
  length (fetches (fst (upload_one remote file))) <= default_tries.
Proof.
  unfold upload_one, uploadWithRetry.
  destruct (encodeURIComponent (fst file)); [|simpl; lia].
  destruct (retry_loop_any remote default_tries default_tries 0 first_delay None)
    as (r & out & Hr & Hloop & _); [done|unfold default_tries; lia|].
  assert (Hlen : length (fetches (retry_trace 0 first_delay r)) <= default_tries).
  { rewrite fetches_retry_trace, length_seq. lia. }
  unfold default_tries in *. rewrite Hloop.
  destruct (utf8ToBase64 (snd file)); [exact Hlen|simpl; lia].
Qed.

Lemma upload_all_log remote files :
  forall k,
    let reached := length (fst (upload_all remote k files)) in
    reached <= length files
    /\ fst (upload_all remote k files)
       = imap (fun j f => fst (upload_one (remote (k + j)) f)) (take reached files)
    /\ match snd (upload_all remote k files) with
       | None =>
           reached = length files
           /\ forall j f, files !! j = Some f ->
                snd (upload_one (remote (k + j)) f) = Done Returned
       | Some (at_file, how) =>
           at_file = k + reached - 1 /\ 0 < reached
           /\ how <> Done Returned
           /\ (exists f, files !! (reached - 1) = Some f
                         /\ snd (upload_one (remote at_file) f) = how)
           /\ forall j f, j < reached - 1 -> files !! j = Some f ->
                snd (upload_one (remote (k + j)) f) = Done Returned
       end.
Proof.
  induction files as [|f rest IH]; intros k; cbn zeta.
  { simpl. split; [lia|]. split; [done|]. split; [done|]. intros j f Hf.
    by rewrite lookup_nil in Hf. }
  cbn [upload_all].
  destruct (upload_one (remote k) f) as [evs out] eqn:E.
  assert (Hstop : out <> Done Returned ->
            let reached := length (fst ([evs], Some (k, out))) in
            reached <= length (f :: rest)
            /\ fst ([evs], Some (k, out))
               = imap (fun j f0 => fst (upload_one (remote (k + j)) f0))
                   (take reached (f :: rest))
            /\ match snd ([evs], Some (k, out)) with
               | None => False
               | Some (at_file, how) =>
                   at_file = k + reached - 1 /\ 0 < reached
                   /\ how <> Done Returned
                   /\ (exists f0, (f :: rest) !! (reached - 1) = Some f0
                                  /\ snd (upload_one (remote at_file) f0) = how)
                   /\ forall j f0, j < reached - 1 -> (f :: rest) !! j = Some f0 ->
                        snd (upload_one (remote (k + j)) f0) = Done Returned
               end).
  { intros Hout. simpl. rewrite Nat.add_0_r, E. simpl.
    split; [lia|]. split; [done|]. split; [lia|]. split; [lia|].
    split; [done|]. split.
    - exists f. split; [done|]. replace (k + 1 - 1) with k by lia. by rewrite E.
    - intros j f0 Hj. lia. }
  destruct out as [[| |]|e]; try (apply Hstop; discriminate).
  specialize (IH (S k)). cbn zeta in IH.
  destruct (upload_all remote (S k) rest) as [log failure]. simpl in IH |- *.
  destruct IH as (Hle & Hlog & Hend).
  split; [lia|]. split.
  - rewrite Nat.add_0_r, E. simpl. f_equal. rewrite Hlog at 1.
    apply imap_ext. intros j f0 _. simpl. by rewrite Nat.add_succ_r.
  - destruct failure as [[at_file how]|].
    + destruct Hend as (-> & Hpos & Hhow & (f0 & Hf0 & Hsnd) & Hbefore).
      split; [lia|]. split; [lia|]. split; [done|]. split.
      * exists f0. rewrite Nat.sub_0_r. split.
        -- destruct (length log) as [|m]; [lia|]. simpl in *.
           by rewrite Nat.sub_0_r in Hf0.
        -- by replace (k + S (length log) - 1) with (S k + length log - 1) by lia.
      * intros [|j] f1 Hj Hf1; simpl in Hf1.
        -- injection Hf1 as <-. by rewrite Nat.add_0_r, E.
        -- replace (k + S j) with (S k + j) by lia. apply Hbefore; [lia|done].
    + destruct Hend as (Hlen & Hall). split; [lia|].
      intros [|j] f1 Hf1; simpl in Hf1.
      * injection Hf1 as <-. by rewrite Nat.add_0_r, E.
      * replace (k + S j) with (S k + j) by lia. by apply Hall.
Qed.

(** X22: the loop that uploads the list stops at the first file whose
    upload throws: it comes to the files in the order of the list, every
    file before the failing one was uploaded with success, and no request
    is made for a file after it; when none throws, every file of the list
    was uploaded. No file gets more than ten requests, and a file whose
    path or content has a surrogate that is not half of a pair gets none:
    building its URL or its body throws a URIError. *)
Theorem sync_stops_at_first_failure (remote : nat -> nat -> response)
    (files : list (jstring * jstring)) :
  let log := fst (upload_all remote 0 files) in
  length log <= length files
  /\ log = imap (fun j f => fst (upload_one (remote j) f)) (take (length log) files)
  /\ Forall (fun evs => length (fetches evs) <= default_tries) log
  /\ match snd (upload_all remote 0 files) with
     | None =>
         length log = length files
         /\ forall j f, files !! j = Some f ->
              snd (upload_one (remote j) f) = Done Returned
     | Some (at_file, how) =>
         S at_file = length log
         /\ how <> Done Returned
         /\ (exists f, files !! at_file = Some f
                       /\ snd (upload_one (remote at_file) f) = how)
         /\ forall j f, j < at_file -> files !! j = Some f ->
              snd (upload_one (remote j) f) = Done Returned
     end
  /\ (forall r f, well_formed (fst f) = false \/ well_formed (snd f) = false ->
        upload_one r f = ([], Thrown URIError)).
Proof.
  cbn zeta. destruct (upload_all_log remote files 0) as (Hle & Hlog & Hend).
  cbn zeta in *. split; [exact Hle|]. split; [exact Hlog|]. split.
  - rewrite Hlog. apply Forall_forall. intros evs Hin.
    apply list_elem_of_lookup in Hin as [j Hj].
    rewrite list_lookup_imap in Hj.
    destruct (take _ files !! j) as [f|]; [|done]. simpl in Hj.
    injection Hj as <-. apply upload_one_fetches.
  - split; [|intros r f; apply upload_one_unencodable].
    destruct (snd (upload_all remote 0 files)) as [[at_file how]|]; [|exact Hend].
    destruct Hend as (-> & Hpos & Hhow & (f & Hf & Hsnd) & Hbefore).
    simpl in *. split; [lia|]. split; [done|]. split; [by exists f|done].
Qed.

(** * The rows of the explorer *)

Lemma sublist_flat_map {A B C} (f : A -> list C) (g : A -> list B) (h : C -> B) l :
  Forall (fun x => map h (f x) `sublist_of` g x) l ->
  map h (flat_map f l) `sublist_of` flat_map g l.
Proof.
  induction 1 as [|x l Hx _ IH]; simpl; [constructor|].
  rewrite map_app. by apply sublist_app.
Qed.

Lemma rendered_sublist expanded n :
  forall depth, map fst (renderFileNode expanded depth n) `sublist_of` preorder n.
Proof.
  induction n as [i nm t c ch p IH] using FileNode_ind. intros depth.
  simpl. apply sublist_skip.
  destruct t; [apply sublist_nil_l|].
  destruct ch as [cs|]; [|constructor].
  destruct (bool_decide (i ∈ expanded)); [|apply sublist_nil_l].
  apply sublist_flat_map. simpl in IH.
  eapply Forall_impl; [exact IH|]. simpl. auto.
Qed.

Lemma rendered_all expanded n :
  Forall (fun m => match type m with
                   | folder => id m ∈ expanded
                   | file => children m = None
                   end) (preorder n) ->
  forall depth, map fst (renderFileNode expanded depth n) = preorder n.
Proof.
  induction n as [i nm t c ch p IH] using FileNode_ind. intros Hall depth.
  inversion Hall as [|? ? Hn Hkids]; subst. simpl in *. f_equal.
  destruct t; [by rewrite Hn|].
  destruct ch as [cs|]; [|done].
  rewrite (bool_decide_eq_true_2 _ Hn). clear Hn Hall. unfold child_list in IH.
  induction IH as [|x l Hx _ IHl]; [done|]. simpl in *.
  apply Forall_app in Hkids as [Hx' Hl']. rewrite map_app.
  by rewrite Hx, IHl.
Qed.

(** X23: the explorer draws every root, at depth 0 and in the order of
    the tree; the nodes it draws are a part of the nodes of the tree, in
    pre-order; with no folder expanded they are the roots alone, and when
    every folder is expanded (and no file has children) they are all the
    nodes of the tree. *)
Theorem rows_follow_the_tree (expandedFolders : gset jstring)
    (fileTree : list FileNode) :
  map fst (rows expandedFolders fileTree) `sublist_of` forest_nodes fileTree
  /\ filter (fun r => snd r = 0) (rows expandedFolders fileTree)
     = map (fun n => (n, 0)) fileTree
  /\ rows ∅ fileTree = map (fun n => (n, 0)) fileTree
  /\ (Forall (fun m => match type m with
                       | folder => id m ∈ expandedFolders
                       | file => children m = None
                       end) (forest_nodes fileTree) ->
      map fst (rows expandedFolders fileTree) = forest_nodes fileTree).
Proof.
  unfold rows, forest_nodes. split; [|split; [|split]].
  - apply sublist_flat_map. apply Forall_forall. intros n _.
    apply rendered_sublist.
  - assert (Hdeep : forall n d, filter (fun r : FileNode * nat => snd r = 0)
                                  (renderFileNode expandedFolders (S d) n) = []).
    { induction n as [i nm t c ch p IH] using FileNode_ind. intros d.
      simpl. rewrite filter_cons_False by (simpl; lia).
      destruct t; [done|]. destruct ch as [cs|]; [|done].
      destruct (bool_decide (i ∈ expandedFolders)); [|done].
      unfold child_list in IH. induction IH as [|x l Hx _ IHl]; [done|].
      simpl. by rewrite filter_app, Hx, IHl. }
    assert (Hkids : forall cs d, filter (fun r : FileNode * nat => snd r = 0)
                      (flat_map (renderFileNode expandedFolders (S d)) cs) = []).
    { induction cs as [|x l IHl]; intros d; [done|].
      simpl. by rewrite filter_app, Hdeep, IHl. }
    assert (Hroot : forall n, filter (fun r : FileNode * nat => snd r = 0)
                      (renderFileNode expandedFolders 0 n) = [(n, 0)]).
    { intros [i nm t c ch p]. cbn [renderFileNode].
      rewrite filter_cons_True by done. f_equal. cbn [type children id].
      destruct t; [done|]. destruct ch as [cs|]; [|done].
      destruct (bool_decide (i ∈ expandedFolders)); [apply Hkids|done]. }
    induction fileTree as [|n tree IH]; [done|].
    simpl. by rewrite filter_app, Hroot, IH.
  - induction fileTree as [|n tree IH]; [done|]. simpl. rewrite IH. f_equal.
    destruct n as [i nm t c ch p]. simpl.
    destruct t; [done|]. by destruct ch.
  - intros Hall. induction fileTree as [|n tree IH]; [done|]. simpl in *.
    apply Forall_app in Hall as [Hn Ht]. rewrite map_app, IH by done.
    by rewrite rendered_all.
Qed.

Lemma rows_follow_the_tree_witness :
  map fst (rows {[u "1"]} [sample_folder [sample_file]])
  = forest_nodes [sample_folder [sample_file]].
Proof.
  apply (proj2 (proj2 (proj2 (rows_follow_the_tree {[u "1"]}
                                [sample_folder [sample_file]])))).
  simpl. constructor; [simpl; by apply elem_of_singleton_2|].
  constructor; [reflexivity|constructor].
Defined.

(** * Paths *)

Lemma Forall_flat_map_intro {A B} (P : B -> Prop) (f : A -> list B) ls :
  Forall (fun d => Forall P (f d)) ls -> Forall P (flat_map f ls).
Proof.
  induction 1 as [|x l Hx _ IH]; [constructor|]. simpl. by apply Forall_app.
Qed.

Lemma hf_paths_under n :
  forall basePath, basePath <> [] ->
  Forall (fun e => exists rest, fst e = basePath ++ SLASH :: rest)
    (hf_files_of_node basePath n).
Proof.
  induction n as [i nm t c ch p IH] using FileNode_ind. intros basePath Hne.
  assert (Hfull : fullPath basePath nm = basePath ++ SLASH :: nm).
  { by destruct basePath. }
  simpl. rewrite Hfull. destruct t.
  - constructor; [|constructor]. by exists nm.
  - assert (Hkeep : Forall (fun e : jstring * jstring =>
                      exists rest, fst e = basePath ++ SLASH :: rest)
                      [(gitkeep (basePath ++ SLASH :: nm), [])]).
    { constructor; [|constructor]. exists (nm ++ u "/.gitkeep").
      unfold gitkeep. simpl. by rewrite <- app_assoc. }
    destruct ch as [[|c0 cs]|]; [done| |done].
    unfold child_list in IH.
    apply (Forall_flat_map_intro _ (hf_files_of_node (basePath ++ SLASH :: nm)) (c0 :: cs)).
    eapply Forall_impl; [exact IH|]. simpl. intros x Hx.
    eapply Forall_impl; [apply (Hx (basePath ++ SLASH :: nm)); by destruct basePath|].
    simpl. intros e [rest ->]. exists (nm ++ SLASH :: rest).
    by rewrite <- app_assoc.
Qed.

Lemma hf_root_paths n :
  name n <> [] ->
  Forall (fun e => fst e = name n \/ exists rest, fst e = name n ++ SLASH :: rest)
    (hf_files_of_node [] n).
Proof.
  destruct n as [i nm t c ch p]. simpl. intros Hne. destruct t.
  - constructor; [by left|constructor].
  - assert (Hkeep : Forall (fun e : jstring * jstring =>
                      fst e = nm \/ exists rest, fst e = nm ++ SLASH :: rest)
                      [(gitkeep nm, [])]).
    { constructor; [|constructor]. right. by exists (u ".gitkeep"). }
    destruct ch as [[|c0 cs]|]; [done| |done].
    apply (Forall_flat_map_intro _ (hf_files_of_node nm) (c0 :: cs)).
    apply Forall_forall. intros x _.
    eapply Forall_impl; [by apply hf_paths_under|]. simpl. auto.
Qed.

Lemma hf_file_entry basePath n :
  type n = file ->
  hf_files_of_node basePath n = [(fullPath basePath (name n), content_or_stub n)].
Proof. destruct n as [i nm t c ch p]. simpl. by intros ->. Qed.

Lemma is_prefix_before_slash p :
  ~ In SLASH p ->
  forall nm rest, is_prefix p nm = false -> is_prefix p (nm ++ SLASH :: rest) = false.
Proof.
  induction p as [|a p IH]; intros Hp nm rest; [done|].
  destruct nm as [|b nm]; simpl.
  - intros _. apply andb_false_iff. left. apply N.eqb_neq. intros ->.
    apply Hp. by left.
  - intros H. apply andb_false_iff in H as [H|H]; apply andb_false_iff; [by left|].
    right. apply IH; [|done]. intros Hin. apply Hp. by right.
Qed.

Lemma no_app_entry tree :
  Forall (fun n => name n <> []) tree ->
  Forall (fun n => is_prefix (u "app.") (name n) = false) tree ->
  existsb is_app_entry (getFilesForHFUpload tree []) = false.
Proof.
  intros Hne Hno. unfold getFilesForHFUpload.
  induction tree as [|n tree IH]; [done|].
  inversion Hne as [|? ? Hn Hne']; subst. inversion Hno as [|? ? Hp Hno']; subst.
  simpl. rewrite existsb_app, IH by done. rewrite orb_false_r.
  pose proof (hf_root_paths n Hn) as Hpaths.
  induction Hpaths as [|e l He _ IHl]; [done|]. simpl. rewrite IHl, orb_false_r.
  rewrite is_app_entry_prefix. destruct He as [->|[rest ->]]; [done|].
  apply is_prefix_before_slash; [|done].
  vm_compute. intros [H|[H|[H|[H|H]]]]; try discriminate H. exact H.
Qed.

(** X24: for the SDKs gradio and streamlit and a tree whose roots have
    non-empty names, the list of uploads is the README, the entries of the
    tree and, at the end, the generated [app.py] whenever no root has a name
    that begins with [app.]: an [app.py] inside a folder does not count.
    When a root file has such a name, nothing is added. *)
Theorem app_py_is_added_unless_at_the_root (readmeContent : jstring)
    (fileTree : list FileNode) (sdk : jstring) :
  sdk = u "gradio" \/ sdk = u "streamlit" ->
  Forall (fun n => name n <> []) fileTree ->
  (Forall (fun n => is_prefix (u "app.") (name n) = false) fileTree ->
   hf_upload_list readmeContent fileTree sdk
   = (u "README.md", readmeContent) :: getFilesForHFUpload fileTree [] ++ [app_py])
  /\ (Exists (fun n => type n = file /\ is_prefix (u "app.") (name n) = true) fileTree ->
      hf_upload_list readmeContent fileTree sdk
      = (u "README.md", readmeContent) :: getFilesForHFUpload fileTree []).
Proof.
  intros Hsdk Hne. unfold hf_upload_list, ensureAppPy.
  assert (Hs : negb (jeqb sdk (u "gradio")) && negb (jeqb sdk (u "streamlit")) = false).
  { by destruct Hsdk as [-> | ->]. }
  rewrite Hs. cbn [existsb]. split.
  - intros Hno. rewrite (no_app_entry fileTree Hne Hno). done.
  - intros Hex.
    assert (Hyes : existsb is_app_entry (getFilesForHFUpload fileTree []) = true).
    { unfold getFilesForHFUpload. clear Hne.
      induction Hex as [n tree [Hfile Hp]|n tree _ IH];
        cbn [flat_map]; rewrite existsb_app.
      - rewrite (hf_file_entry _ _ Hfile). cbn [existsb fullPath].
        rewrite is_app_entry_prefix. cbn [fst]. by rewrite Hp.
      - by rewrite IH, orb_true_r. }
    rewrite Hyes. by rewrite orb_true_r.
Qed.

Lemma app_py_is_added_unless_at_the_root_witness :
  hf_upload_list (u "readme")
    [sample_folder [mkFileNode (u "3") (u "app.py") file (Some (u "x")) None None]]
    (u "gradio")
  = (u "README.md", u "readme")
    :: getFilesForHFUpload
         [sample_folder [mkFileNode (u "3") (u "app.py") file (Some (u "x")) None None]] []
    ++ [app_py].
Proof.
  apply (proj1 (app_py_is_added_unless_at_the_root (u "readme")
                  [sample_folder [mkFileNode (u "3") (u "app.py") file (Some (u "x")) None None]]
                  (u "gradio") (or_introl eq_refl)
                  ltac:(repeat constructor; discriminate))).
  repeat constructor.
Defined.

(** ** The parts of a path *)

Lemma split_nonempty c s : split c s <> [].
Proof.
  destruct s as [|d s]; simpl; [done|].
  destruct (d =? c)%N; [done|]. by destruct (split c s).
Qed.

Lemma split_app_sep c a b : split c (a ++ c :: b) = split c a ++ split c b.
Proof.
  induction a as [|d a IH]; simpl.
  - by rewrite N.eqb_refl.
  - destruct (d =? c)%N; [by rewrite IH|].
    rewrite IH. pose proof (split_nonempty c a) as Hne.
    by destruct (split c a).
Qed.

Lemma split_no_sep c s : ~ In c s -> split c s = [s].
Proof.
  induction s as [|d s IH]; [done|]. intros Hin. simpl.
  destruct (N.eqb_spec d c) as [->|Hne]; [by destruct Hin; left|].
  rewrite IH; [done|]. intros H. apply Hin. by right.
Qed.

Lemma hf_paths_split n :
  Forall (fun m => name m <> [] /\ ~ In SLASH (name m)) (preorder n) ->
  forall basePath segs,
    (basePath = [] /\ segs = []) \/ (basePath <> [] /\ split SLASH basePath = segs) ->
    map (fun e => pathParts (fst e)) (hf_files_of_node basePath n)
    = map (app segs) (leaf_chains n).
Proof.
  induction n as [i nm t c ch p IH] using FileNode_ind.
  intros Hall basePath segs Hbase.
  inversion Hall as [|? ? [Hne Hslash] Hkids]; subst. simpl in Hne, Hslash, Hkids.
  assert (Hfull : fullPath basePath nm <> []
                  /\ split SLASH (fullPath basePath nm) = segs ++ [nm]).
  { destruct Hbase as [[-> ->]|[Hb <-]].
    - simpl. split; [done|]. by apply split_no_sep.
    - destruct basePath as [|b bs]; [done|]. split; [done|].
      change (fullPath (b :: bs) nm) with ((b :: bs) ++ SLASH :: nm).
      by rewrite split_app_sep, (split_no_sep _ nm). }
  destruct Hfull as [Hpath Hsplit]. simpl. unfold pathParts in *.
  destruct t; simpl.
  - by rewrite Hsplit.
  - assert (Hkeep : map (fun e : jstring * jstring => split SLASH (fst e))
                      [(gitkeep (fullPath basePath nm), [])]
                    = map (app segs) [[nm; u ".gitkeep"]]).
    { simpl. unfold gitkeep.
      change (u "/.gitkeep") with (SLASH :: u ".gitkeep").
      rewrite split_app_sep, Hsplit. by rewrite <- app_assoc. }
    destruct ch as [[|c0 cs]|]; [done| |done].
    unfold child_list in IH. rewrite map_map.
    assert (Hgo : forall l,
              Forall (fun n0 =>
                 Forall (fun m => name m <> [] /\ ~ In SLASH (name m)) (preorder n0) ->
                 forall basePath segs,
                   (basePath = [] /\ segs = [])
                   \/ (basePath <> [] /\ split SLASH basePath = segs) ->
                   map (fun e => split SLASH (fst e)) (hf_files_of_node basePath n0)
                   = map (app segs) (leaf_chains n0)) l ->
              Forall (fun m => name m <> [] /\ ~ In SLASH (name m))
                (flat_map preorder l) ->
              map (fun e : jstring * jstring => split SLASH (fst e))
                (flat_map (hf_files_of_node (fullPath basePath nm)) l)
              = map (fun x => segs ++ nm :: x) (flat_map leaf_chains l)).
    { induction 1 as [|x l Hx _ IHl]; intros Hl; [done|].
      simpl in Hl. apply Forall_app in Hl as [Hx' Hl'].
      cbn [flat_map]. rewrite !map_app, IHl by done. f_equal.
      rewrite (Hx Hx' (fullPath basePath nm) (segs ++ [nm])) by (right; done).
      apply map_ext. intros a. by rewrite <- app_assoc. }
    by apply (Hgo (c0 :: cs)).
Qed.

Lemma fold_left_ext_Forall {A B} (f g : A -> B -> A) l :
  Forall (fun x => forall acc, f acc x = g acc x) l ->
  forall acc, fold_left f l acc = fold_left g l acc.
Proof.
  induction 1 as [|x l Hx _ IH]; intros acc; [done|]. simpl. by rewrite Hx, IH.
Qed.

Lemma vscode_files_of_node_github n :
  forall basePath files,
    vscode_files_of_node basePath n files = github_files_of_node basePath n files.
Proof.
  induction n as [i nm t c ch p IH] using FileNode_ind. intros basePath files.
  simpl. destruct t; [done|]. destruct ch as [cs|]; [|done].
  unfold child_list in IH.
  rewrite (fold_left_ext_Forall
             (fun acc c => vscode_files_of_node (fullPath basePath nm) c acc)
             (fun acc c => github_files_of_node (fullPath basePath nm) c acc)); [done|].
  eapply Forall_impl; [exact IH|]. simpl. auto.
Qed.

Lemma createFilesForVSCode_github nodes basePath :
  createFilesForVSCode nodes basePath = convertFileTreeToGitHubFiles nodes basePath.
Proof.
  unfold createFilesForVSCode, convertFileTreeToGitHubFiles.
  apply fold_left_ext_Forall, Forall_forall. intros n _ acc.
  apply vscode_files_of_node_github.
Qed.

(** X25: when no name of the tree is empty or contains [/], splitting
    each published path at [/] gives back the names on the way from a root
    to the file (or to the [.gitkeep] of a childless folder), entry by
    entry; and when every folder has a [children] array, each key of the
    record that createProjectWithFileSystemAPI writes out splits into such
    a chain: the directories made for a path are the folders above the
    file in the tree, and its last part is the file's own name. *)
Theorem paths_mirror_the_tree (fileTree : list FileNode) :
  Forall (fun m => name m <> [] /\ ~ In SLASH (name m)) (forest_nodes fileTree) ->
  map (fun e => pathParts (fst e)) (getFilesForHFUpload fileTree [])
  = flat_map leaf_chains fileTree
  /\ (Forall (fun n => type n = folder -> children n <> None) (forest_nodes fileTree) ->
      forall filePath, is_Some (createFilesForVSCode fileTree [] !! filePath) ->
                       In (pathParts filePath) (flat_map leaf_chains fileTree)).
Proof.
  intros Hall.
  assert (Hparts : map (fun e => pathParts (fst e)) (getFilesForHFUpload fileTree [])
                   = flat_map leaf_chains fileTree).
  { unfold getFilesForHFUpload, forest_nodes in *.
    induction fileTree as [|n tree IH]; [done|].
    simpl in Hall. apply Forall_app in Hall as [Hn Ht].
    cbn [flat_map]. rewrite map_app, IH by done. f_equal.
    rewrite (hf_paths_split n Hn [] []) by (left; done).
    rewrite <- (map_id (leaf_chains n)) at 2. by apply map_ext. }
  split; [exact Hparts|]. intros Hok filePath Hkey.
  rewrite createFilesForVSCode_github in Hkey.
  apply (convert_keys _ _ _ Hok) in Hkey as [Hkey _]. rewrite <- Hparts.
  apply in_map_iff in Hkey as (e & <- & He). apply in_map_iff. by exists e.
Qed.

Lemma paths_mirror_the_tree_witness :
  map (fun e => pathParts (fst e))
    (getFilesForHFUpload [sample_folder [sample_file; sample_folder []]] [])
  = [[u "src"; u "main.py"]; [u "src"; u "src"; u ".gitkeep"]].
Proof.
  apply (proj1 (paths_mirror_the_tree [sample_folder [sample_file; sample_folder []]]
                  ltac:(repeat constructor; try discriminate; vm_compute;
                        intros H; repeat (destruct H as [H|H]; [discriminate H|]);
                        exact H))).
Defined.

(** * The time an upload can sleep *)

Lemma backoff_sum_bound d r :
  (0 <= d)%Q -> (d <= max_delay)%Q ->
  (fold_right Qplus 0 (backoff d r) <= inject_Z (Z.of_nat r) * max_delay)%Q.
Proof.
  revert d. induction r as [|r IH]; intros d Hd Hcap.
  - simpl. rewrite Qmult_0_l. apply Qle_refl.
  - destruct (next_delay_bounds d Hd Hcap) as [Hup Hcap'].
    cbn [backoff fold_right].
    assert (E : (inject_Z (Z.of_nat (S r)) * max_delay
                 == max_delay + inject_Z (Z.of_nat r) * max_delay)%Q).
    { rewrite Nat2Z.inj_succ. unfold Z.succ. rewrite inject_Z_plus. ring. }
    rewrite E. apply Qplus_le_compat; [done|].
    apply IH; [|done]. eapply Qle_trans; eassumption.
Qed.

Lemma backoff_sum_default r :
  r < default_tries ->
  (fold_right Qplus 0 (backoff first_delay r) <= 582625 # 16)%Q.
Proof.
  unfold default_tries. intros Hr.
  do 10 (destruct r as [|r]; [vm_compute; discriminate|]). lia.
Qed.

Lemma uploadWithRetry_events remote file tries :
  fst (uploadWithRetry remote file tries) = []
  \/ fst (uploadWithRetry remote file tries)
     = fst (retry_loop remote tries tries 0 first_delay None).
Proof.
  unfold uploadWithRetry.
  destruct (encodeURIComponent (fst file)); [|by left].
  destruct (retry_loop remote tries tries 0 first_delay None) as [evs out] eqn:E.
  destruct tries; [by right|].
  destruct (utf8ToBase64 (snd file)); [by right|by left].
Qed.

(** X26: whatever the remote answers and whatever the file is, one
    [uploadWithRetry] sleeps at most 5000 ms for each request after the
    first, and with the ten tries of the loop at most 36414.0625 ms in
    all. That is what it sleeps when every answer is a 404 and neither the
    path nor the content of the file (a string of 16-bit units) has a
    surrogate outside a pair; for a file that has one it does not sleep at
    all, a URIError being thrown before the first request. *)
Theorem upload_sleeps_are_bounded (remote : nat -> response)
    (file : jstring * jstring) (tries : nat) :
  (total_sleep (fst (uploadWithRetry remote file tries))
   <= inject_Z (Z.of_nat (tries - 1)) * max_delay)%Q
  /\ (total_sleep (fst (uploadWithRetry remote file default_tries)) <= 582625 # 16)%Q
  /\ ((forall t, status (remote t) = 404%Z) ->
      (well_formed (fst file) = true -> units16 (snd file) ->
       well_formed (snd file) = true ->
       (total_sleep (fst (uploadWithRetry remote file default_tries))
        == 582625 # 16)%Q)
      /\ (well_formed (fst file) = false \/ well_formed (snd file) = false ->
          fst (uploadWithRetry remote file default_tries) = []
          /\ (total_sleep (fst (uploadWithRetry remote file default_tries)) == 0)%Q)).
Proof.
  assert (Hany : forall n, 0 < n ->
            total_sleep (fst (uploadWithRetry remote file n)) = 0%Q
            \/ exists r, r < n
              /\ total_sleep (fst (uploadWithRetry remote file n))
                 = fold_right Qplus 0%Q (backoff first_delay r)).
  { intros n Hn.
    destruct (uploadWithRetry_events remote file n) as [->| ->]; [by left|].
    destruct (retry_loop_any remote n n 0 first_delay None)
      as (r & out & Hr & Hloop & _); [lia|lia|].
    right. exists r. split; [lia|]. unfold total_sleep.
    rewrite Hloop. cbn [fst]. by rewrite sleeps_retry_trace. }
  split; [|split].
  - destruct tries as [|n].
    { destruct (uploadWithRetry_events remote file 0) as [->| ->];
        vm_compute; discriminate. }
    destruct (Hany (S n)) as [->|(r & Hr & ->)]; [lia| |].
    + apply Qmult_le_0_compat; [|done]. rewrite <- (Zle_Qle 0). lia.
    + eapply Qle_trans; [by apply backoff_sum_bound|].
      apply Qmult_le_compat_r; [|done].
      rewrite <- Zle_Qle. lia.
  - destruct (Hany default_tries) as [->|(r & Hr & ->)];
      [unfold default_tries; lia|done|].
    by apply backoff_sum_default.
  - intros H404. split.
    + intros Hp H16 Hc. rewrite (uploadWithRetry_encodable _ _ _ Hp H16 Hc).
      unfold total_sleep, default_tries.
      rewrite (retry_loop_stops remote 10 9) by (try lia; auto using not_found_not_ok).
      cbn [fst]. rewrite sleeps_retry_trace. vm_compute. reflexivity.
    + intros Hbad.
      assert (E : uploadWithRetry remote file default_tries = ([], Thrown URIError)).
      { destruct Hbad as [H|H].
        - by apply uploadWithRetry_bad_path.
        - apply uploadWithRetry_bad_content; [unfold default_tries; lia|done]. }
      rewrite E. by split.
Qed.

Lemma upload_sleeps_are_bounded_witness :
  (total_sleep (fst (uploadWithRetry silent_remote (u "app.py", u "print(1)")
                       default_tries))
   == 582625 # 16)%Q
  /\ fst (uploadWithRetry silent_remote (lone_path, u "print(1)") default_tries) = [].
Proof.
  split.
  - apply (proj2 (proj2 (upload_sleeps_are_bounded silent_remote
                           (u "app.py", u "print(1)") 10)));
      [reflexivity|reflexivity|repeat constructor|reflexivity].
  - apply (proj2 (proj2 (upload_sleeps_are_bounded silent_remote
                           (lone_path, u "print(1)") 10)));
      [reflexivity|left; reflexivity].
Defined.

(** * The folder a line lands in *)

Lemma pop_frames_twice b d s :
  pop_frames b (pop_frames d s)
  = pop_frames (if Qle_bool b d then b else d) s.
Proof.
  induction s as [|f s IH]; [done|]. simpl.
  destruct (Qle_bool d (depth f)) eqn:Hd.
  - rewrite IH. destruct (Qle_bool b d) eqn:Hb.
    + apply Qle_bool_iff in Hd, Hb.
      assert (Hbf : Qle_bool b (depth f) = true).
      { apply Qle_bool_iff. eapply Qle_trans; eassumption. }
      by rewrite Hbf.
    + by rewrite Hd.
  - simpl. destruct (Qle_bool b d) eqn:Hb; [done|].
    rewrite Hd. destruct (Qle_bool b (depth f)) eqn:Hbf; [|done].
    exfalso. apply Qle_bool_iff in Hbf.
    assert (Hdb : (d <= b)%Q).
    { destruct (Qlt_le_dec b d) as [Hlt|Hle]; [|done].
      apply Qlt_le_weak, Qle_bool_iff in Hlt. congruence. }
    assert (Hdf : Qle_bool d (depth f) = true).
    { apply Qle_bool_iff. eapply Qle_trans; eassumption. }
    congruence.
Qed.

Lemma enclosing_lt above :
  forall bound j, enclosing above bound = Some j -> j < length above.
Proof.
  induction above as [|l above IH]; intros bound j; simpl; [done|].
  destruct (isFolder l (line_name l) && negb (Qle_bool bound (line_depth l))).
  - intros [= <-]. lia.
  - intros H. apply IH in H. lia.
Qed.

Lemma run_lines_filter gen lines :
  forall st, run_lines gen lines st = run_lines gen (List.filter contributes lines) st.
Proof.
  induction lines as [|l lines IH]; intros st; [done|]. simpl.
  destruct (contributes l) eqn:Hl; simpl.
  - apply IH.
  - rewrite (process_line_skip gen st l Hl). apply IH.
Qed.

Lemma run_lines_enclosing gen ls :
  Forall (fun l => contributes l = true) ls ->
  let st := run_lines gen ls init_state in
  length (heap st) = length ls
  /\ (forall b, node <$> head (pop_frames b (stack st)) = enclosing (rev ls) b)
  /\ (forall r o, heap st !! r = Some o ->
        exists line, ls !! r = Some line
          /\ o_id o = gen r /\ o_name o = line_name line
          /\ o_parent o = gen <$> enclosing (rev (take r ls)) (line_depth line)).
Proof.
  induction ls as [|l ls IH] using rev_ind; intros Hall; cbn zeta.
  { split; [done|]. split; [done|]. intros r o Hr. simpl in Hr.
    by rewrite lookup_nil in Hr. }
  apply Forall_app in Hall as [Hls Hl]. inversion Hl as [|? ? Hline _]; subst.
  specialize (IH Hls). cbn zeta in IH. destruct IH as (Hlen & Hstack & Hobjs).
  rewrite run_lines_app. set (st := run_lines gen ls init_state) in *.
  change (run_lines gen [l] st) with (process_line gen st l).
  destruct (run_lines_invariant gen ls init_state [] invariant_init)
    as (forest & Hinv & _). fold st in Hinv.
  destruct (process_line_summary gen st forest l Hinv Hline)
    as (on & Hst' & Hlen' & Hon & Hname & Hid & _ & Hparent & Hold & _).
  rewrite Hlen in *. split; [by rewrite Hlen', length_app, Nat.add_1_r|]. split.
  - intros b. rewrite Hst', rev_unit. cbn [enclosing]. rewrite length_rev.
    destruct (isFolder l (line_name l)); cbn [frames_for app andb].
    + cbn [pop_frames depth]. destruct (Qle_bool b (line_depth l)) eqn:Hb; [|done].
      cbn [negb]. rewrite pop_frames_twice, Hb. apply Hstack.
    + rewrite pop_frames_twice. apply Hstack.
  - intros r o Hr.
    assert (Hle : r < S (length ls)).
    { rewrite <- Hlen'. by eapply lookup_lt_Some. }
    destruct (decide (r = length ls)) as [->|Hne].
    + rewrite Hon in Hr. injection Hr as <-. exists l.
      rewrite lookup_app_r, Nat.sub_diag by lia. split; [done|].
      split; [done|]. split; [done|].
      rewrite take_app_length, Hparent. specialize (Hstack (line_depth l)).
      destruct (pop_frames (line_depth l) (stack st)) as [|top below].
      * by rewrite <- Hstack.
      * rewrite <- Hstack. simpl.
        assert (Htop : node top < length (heap st)).
        { rewrite Hlen, <- (length_rev ls).
          apply (enclosing_lt _ (line_depth l)). by rewrite <- Hstack. }
        destruct (lookup_lt_is_Some_2 _ _ Htop) as [otop Hotop].
        rewrite Hotop. simpl. destruct (Hobjs _ _ Hotop) as (_ & _ & -> & _). done.
    + assert (Hlt : r < length (heap st)) by lia.
      destruct (lookup_lt_is_Some_2 _ _ Hlt) as [o0 Ho0].
      rewrite (Hold _ _ Ho0) in Hr. injection Hr as <-.
      destruct (Hobjs _ _ Ho0) as (line & Hl0 & Hi & Hn & Hp).
      exists line. rewrite lookup_app_l by lia.
      rewrite take_app_le by lia. split; [done|].
      destruct (pop_frames (line_depth l) (stack st)) as [|top below]; [done|].
      by destruct (decide (node top = r)).
Qed.

Lemma reify_nodes h k r t :
  reify k h r = Some t ->
  Forall (fun n => exists r' o, h !! r' = Some o
                     /\ id n = o_id o /\ name n = o_name o /\ parent n = o_parent o)
    (preorder t).
Proof.
  revert r t. induction k as [|k IH]; intros r t; [discriminate|].
  simpl. destruct (h !! r) as [o|] eqn:Hr; [|done].
  destruct (o_children o) as [cs|] eqn:Hc.
  - destruct (mapM (reify k h) cs) as [ts|] eqn:Hts; [|done].
    intros [= <-]. simpl. constructor; [by exists r, o|].
    eapply Forall_flat_map_Forall2; [exact (mapM_reify_Forall2 _ _ _ _ Hts)|].
    intros c tc. apply IH.
  - intros [= <-]. simpl. constructor; [by exists r, o|constructor].
Qed.

(** X27: every node of the parsed forest comes from one of the lines that
    get a node, with the id drawn for that line and the name read from it,
    and its [parent] is found by walking up the listing from the line: it
    is the id of the nearest folder line above that is shallower than the
    line and than every line in between, and there is no [parent] when no
    line above is such a folder. *)
Theorem node_lands_in_nearest_shallower_folder (gen : nat -> jstring)
    (text : jstring) :
  exists forest,
    parseStructure gen text = Some forest
    /\ Forall (fun n =>
                 exists k line,
                   node_lines text !! k = Some line
                   /\ id n = gen k /\ name n = line_name line
                   /\ parent n
                      = gen <$> enclosing (rev (take k (node_lines text)))
                                  (line_depth line))
         (forest_nodes forest).
Proof.
  destruct (parseStructure_invariant gen text) as (forest & Hp & _ & _).
  exists forest. split; [exact Hp|].
  assert (Hall : Forall (fun l => contributes l = true) (node_lines text)).
  { apply Forall_forall. intros l Hl. unfold node_lines in Hl.
    by apply list_elem_of_In, filter_In in Hl as [_ Hl]. }
  destruct (run_lines_enclosing gen (node_lines text) Hall) as (_ & _ & Hobjs).
  unfold node_lines in Hobjs at 1. rewrite <- run_lines_filter in Hobjs.
  fold (final_state gen text) in Hobjs.
  unfold parseStructure, reify_all in Hp. cbn zeta in Hp.
  unfold forest_nodes.
  eapply Forall_flat_map_Forall2; [exact (mapM_reify_Forall2 _ _ _ _ Hp)|].
  intros r t Hrt. eapply Forall_impl; [exact (reify_nodes _ _ _ _ Hrt)|].
  simpl. intros n (r' & o & Ho & Hi & Hn & Hpar).
  destruct (Hobjs _ _ Ho) as (line & Hline & Hid & Hname & Hparent).
  exists r', line. split; [done|]. split; [congruence|]. split; congruence.
Qed.

(** * Two folders of equal depth *)

Lemma pop_frames_deeper d2 d3 r2 s :
  (d2 < d3)%Q -> pop_frames d3 (mkFrame r2 d2 :: s) = mkFrame r2 d2 :: s.
Proof.
  intros Hlt. simpl. destruct (Qle_bool d3 d2) eqn:E; [|done].
  apply Qle_bool_iff in E. by apply Qlt_not_le in Hlt.
Qed.

(** The [children] arrays after one line: those before it, and the new
    node in the folder left on top of the stack. *)
Lemma process_line_holds gen st forest line :
  invariant st forest -> contributes line = true ->
  forall p c,
    holds (heap (process_line gen st line)) p c
    <-> holds (heap st) p c
        \/ (c = length (heap st)
            /\ node <$> head (pop_frames (line_depth line) (stack st)) = Some p).
Proof.
  intros Hinv Hline p c.
  destruct (process_line_summary gen st forest line Hinv Hline)
    as (on & _ & Hlen & Hon & _ & _ & Hch & _ & Hold & _).
  set (n := length (heap st)) in *.
  set (st' := process_line gen st line) in *.
  assert (Htop : forall top below,
            pop_frames (line_depth line) (stack st) = top :: below ->
            exists os cs, heap st !! node top = Some os /\ o_children os = Some cs).
  { intros top below E.
    pose proof (invariant_stack_valid _ _ Hinv) as Hval.
    rewrite Forall_forall in Hval. apply Hval.
    apply (pop_frames_sublist (line_depth line)). rewrite E. left. }
  split.
  - intros (o & cs & Hp & Hc & Hin).
    pose proof (lookup_lt_Some _ _ _ Hp) as Hlt. rewrite Hlen in Hlt.
    destruct (decide (p = n)) as [->|Hne].
    { rewrite Hon in Hp. injection Hp as <-. rewrite Hch in Hc.
      destruct (isFolder line (line_name line)); [|discriminate].
      injection Hc as <-. by apply elem_of_nil in Hin. }
    destruct (lookup_lt_is_Some_2 (heap st) p) as [o0 Ho0]; [lia|].
    rewrite (Hold p o0 Ho0) in Hp. injection Hp as <-.
    destruct (pop_frames (line_depth line) (stack st)) as [|top below] eqn:E.
    { left. by exists o0, cs. }
    destruct (decide (node top = p)) as [<-|Hnp]; [|left; by exists o0, cs].
    simpl in Hc. destruct (o_children o0) as [cs0|] eqn:Hc0; [|discriminate].
    injection Hc as <-. apply elem_of_app in Hin as [Hin|Hin].
    + left. by exists o0, cs0.
    + right. apply list_elem_of_singleton in Hin. by split.
  - intros [(o0 & cs0 & Hp & Hc & Hin)|[-> Hhead]].
    + pose proof (Hold p o0 Hp) as Hp'.
      destruct (pop_frames (line_depth line) (stack st)) as [|top below];
        [by exists o0, cs0|].
      destruct (decide (node top = p)); [|by exists o0, cs0].
      exists (push_child n o0), (cs0 ++ [n]). split; [done|].
      split; [simpl; by rewrite Hc|]. apply elem_of_app. by left.
    + destruct (pop_frames (line_depth line) (stack st)) as [|top below] eqn:E;
        [discriminate|].
      injection Hhead as <-.
      destruct (Htop top below eq_refl) as (os & cs & Hos & Hcs).
      pose proof (Hold _ os Hos) as Hp'.
      destruct (decide (node top = node top)); [|done].
      exists (push_child n os), (cs ++ [n]). split; [done|].
      split; [simpl; by rewrite Hcs|].
      apply elem_of_app. right. by apply list_elem_of_singleton.
Qed.

(** A folder line and a deeper line, read in a row. *)
Lemma two_lines gen st0 f0 l2 l3 :
  invariant st0 f0 -> contributes l2 = true -> contributes l3 = true ->
  isFolder l2 (line_name l2) = true -> (line_depth l2 < line_depth l3)%Q ->
  attached (length (heap st0)) (process_line gen (process_line gen st0 l2) l3).
Proof.
  intros Hinv0 Hc2 Hc3 Hf2 Hlt.
  set (r2 := length (heap st0)).
  set (st1 := process_line gen st0 l2).
  destruct (process_line_invariant gen st0 f0 l2 Hinv0 Hc2) as (f1 & Hinv1 & _).
  fold st1 in Hinv1.
  destruct (process_line_summary gen st0 f0 l2 Hinv0 Hc2)
    as (o2 & Hs1 & Hlen1 & Ho2 & _ & _ & Hch2 & _ & _ & _).
  rewrite Hf2 in Hs1, Hch2. fold st1 r2 in Hs1, Hlen1, Ho2. simpl in Hs1.
  pose proof (process_line_holds gen st1 f1 l3 Hinv1 Hc3) as Hholds.
  destruct (process_line_summary gen st1 f1 l3 Hinv1 Hc3)
    as (o3 & _ & Hlen3 & _ & _ & _ & _ & _ & Hold3 & Hres3).
  rewrite Hlen1 in *. rewrite Hs1 in Hold3, Hres3, Hholds.
  rewrite pop_frames_deeper in Hold3, Hres3, Hholds by done.
  simpl in Hold3, Hholds.
  unfold attached. rewrite Hlen3. split; [lia|]. split.
  { exists (push_child (S r2) o2), []. rewrite (Hold3 _ o2 Ho2).
    destruct (decide (r2 = r2)); [|done]. simpl. by rewrite Hch2. }
  split.
  - intros p [(o & cs & Hp & Hc & Hin)|[_ [= <-]]]%Hholds; [|done].
    destruct Hinv1 as (Hord1 & _).
    pose proof (Hord1 p o cs Hp Hc) as Hcs. rewrite Forall_forall in Hcs.
    apply Hcs in Hin. lia.
  - rewrite Hres3. destruct Hinv1 as (_ & Hsp1 & _).
    apply spine_refs_lt in Hsp1. rewrite Forall_forall in Hsp1.
    intros Hin. apply Hsp1 in Hin. lia.
Qed.

Lemma attached_step gen st forest line r2 :
  invariant st forest -> contributes line = true ->
  attached r2 st -> attached r2 (process_line gen st line).
Proof.
  intros Hinv Hline (Hlt & (o2 & rest & H2 & Hc2) & Huniq & Hres).
  pose proof (process_line_holds gen st forest line Hinv Hline) as Hholds.
  destruct (process_line_summary gen st forest line Hinv Hline)
    as (on & _ & Hlen & _ & _ & _ & _ & _ & Hold & Hres').
  unfold attached. rewrite Hlen. split; [lia|]. split.
  { rewrite (Hold _ o2 H2).
    destruct (pop_frames (line_depth line) (stack st)) as [|top below];
      [by exists o2, rest|].
    destruct (decide (node top = r2)); [|by exists o2, rest].
    exists (push_child (length (heap st)) o2), (rest ++ [length (heap st)]).
    split; [done|]. simpl. by rewrite Hc2. }
  split.
  - intros p [Hp|[E _]]%Hholds; [by apply Huniq|lia].
  - rewrite Hres'.
    destruct (pop_frames (line_depth line) (stack st)); [|done].
    rewrite elem_of_app, list_elem_of_singleton. intros [?|?]; [done|lia].
Qed.

Lemma all_attached_step gen st forest line :
  invariant st forest -> contributes line = true ->
  all_attached st -> all_attached (process_line gen st line).
Proof.
  intros Hinv Hline Hall r Hr.
  pose proof (process_line_holds gen st forest line Hinv Hline) as Hholds.
  destruct (process_line_summary gen st forest line Hinv Hline)
    as (on & _ & Hlen & _ & _ & _ & _ & _ & _ & Hres').
  rewrite Hlen in Hr. rewrite Hres'.
  destruct (decide (r = length (heap st))) as [->|Hne].
  - destruct (pop_frames (line_depth line) (stack st)) as [|top below] eqn:E.
    + left. apply elem_of_app. right. by apply list_elem_of_singleton.
    + right. exists (node top). apply Hholds. by right.
  - destruct (Hall r) as [Hin|[p Hp]]; [lia| |].
    + left. destruct (pop_frames (line_depth line) (stack st)); [|done].
      apply elem_of_app. by left.
    + right. exists p. apply Hholds. by left.
Qed.

Lemma final_all_attached gen lines : all_attached (run_lines gen lines init_state).
Proof.
  apply (run_lines_preserves gen all_attached) with (forest := []).
  - apply all_attached_step.
  - apply invariant_init.
  - intros r Hr. simpl in Hr. lia.
Qed.

(** The folder that holds a node is the one found by walking up from its
    line. *)
Lemma run_lines_holder gen ls :
  Forall (fun l => contributes l = true) ls ->
  forall p c,
    holds (heap (run_lines gen ls init_state)) p c ->
    exists lc, ls !! c = Some lc
               /\ enclosing (rev (take c ls)) (line_depth lc) = Some p.
Proof.
  induction ls as [|l ls IH] using rev_ind; intros Hall p c.
  { intros (o & cs & Hp & _). simpl in Hp. by rewrite lookup_nil in Hp. }
  apply Forall_app in Hall as [Hls Hl]. inversion Hl as [|? ? Hline _]; subst.
  specialize (IH Hls).
  destruct (run_lines_enclosing gen ls Hls) as (Hlen & Hstack & _).
  rewrite run_lines_app. set (st := run_lines gen ls init_state) in *.
  change (run_lines gen [l] st) with (process_line gen st l).
  destruct (run_lines_invariant gen ls init_state [] invariant_init)
    as (forest & Hinv & _). fold st in Hinv.
  intros [Hold|[-> Hhead]]%(process_line_holds gen st forest l Hinv Hline).
  - destruct (IH p c Hold) as (lc & Hlc & He). exists lc.
    pose proof (lookup_lt_Some _ _ _ Hlc) as Hlt.
    rewrite lookup_app_l by done. rewrite take_app_le by lia. by split.
  - exists l. rewrite Hlen, lookup_app_r, Nat.sub_diag by lia.
    split; [done|]. rewrite take_app_length. by rewrite <- Hstack.
Qed.

Lemma enclosing_deeper above :
  forall bound j,
    enclosing above bound = Some j ->
    exists l, rev above !! j = Some l
              /\ isFolder l (line_name l) = true
              /\ (line_depth l < bound)%Q.
Proof.
  induction above as [|l above IH]; intros bound j; simpl; [done|].
  destruct (isFolder l (line_name l)) eqn:Hf; simpl.
  - destruct (Qle_bool bound (line_depth l)) eqn:Hb; simpl.
    + intros (l' & Hl' & Hf' & Hd)%IH. exists l'.
      split; [by apply lookup_app_l_Some|]. by split.
    + intros [= <-]. exists l. rewrite <- (length_rev above).
      rewrite list_lookup_middle by done. split; [done|]. split; [done|].
      apply Qnot_le_lt. intros H. apply Qle_bool_iff in H. congruence.
  - intros (l' & Hl' & Hf' & Hd)%IH. exists l'.
    split; [by apply lookup_app_l_Some|]. split; [done|].
    destruct (Qle_bool bound (line_depth l)) eqn:Hb; [done|].
    eapply Qlt_trans; [exact Hd|].
    apply Qnot_le_lt. intros H. apply Qle_bool_iff in H. congruence.
Qed.

(** A child lies deeper than the folder that holds it. *)
Lemma holds_deeper gen ls p c :
  Forall (fun l => contributes l = true) ls ->
  holds (heap (run_lines gen ls init_state)) p c ->
  exists lp lc, ls !! p = Some lp /\ ls !! c = Some lc
                /\ (line_depth lp < line_depth lc)%Q.
Proof.
  intros Hall Hh.
  destruct (run_lines_holder gen ls Hall p c Hh) as (lc & Hlc & He).
  apply enclosing_deeper in He as (lp & Hlp & _ & Hd).
  rewrite rev_involutive in Hlp. exists lp, lc.
  split; [|by split]. apply lookup_take_Some in Hlp. tauto.
Qed.

Lemma below_deeper gen ls r c :
  Forall (fun l => contributes l = true) ls ->
  below (heap (run_lines gen ls init_state)) r c ->
  exists lr lc, ls !! r = Some lr /\ ls !! c = Some lc
                /\ (line_depth lr < line_depth lc)%Q.
Proof.
  intros Hall. induction 1 as [c Hh|p c _ (lr & lp & Hr & Hp & Hd) Hh].
  - by eapply holds_deeper.
  - destruct (holds_deeper gen ls p c Hall Hh) as (lp' & lc & Hp' & Hc & Hd').
    exists lr, lc. split; [done|]. split; [done|].
    rewrite Hp in Hp'. injection Hp' as <-. eapply Qlt_trans; eassumption.
Qed.

Lemma below_under h r c r' : holds h r c -> below h c r' -> below h r r'.
Proof.
  intros Hrc. induction 1 as [c' Hh|p c' _ IH Hh].
  - eapply below_step; [by apply below_child|exact Hh].
  - eapply below_step; [exact IH|exact Hh].
Qed.

(** ** The trees of the forest and the objects of the heap *)

Lemma closed_children h r t o cs :
  closed h r t -> h !! r = Some o -> o_children o = Some cs ->
  exists ts, children t = Some ts /\ Forall2 (closed h) cs ts.
Proof.
  intros [[|k] Hk] Ho Hc; [discriminate|]. simpl in Hk. rewrite Ho, Hc in Hk.
  destruct (mapM (reify k h) cs) as [ts|] eqn:E; [|discriminate].
  injection Hk as <-. exists ts. split; [done|].
  eapply Forall2_impl; [exact (mapM_reify_Forall2 _ _ _ _ E)|].
  intros c tc Hc'. by exists k.
Qed.

Lemma closed_child h r t c :
  closed h r t -> In c (child_list (children t)) ->
  exists rc, holds h r rc /\ closed h rc c.
Proof.
  intros Ht Hin. pose proof (closed_lt _ _ _ Ht) as Hlt.
  destruct (lookup_lt_is_Some_2 h r Hlt) as [o Ho].
  destruct (o_children o) as [cs|] eqn:Hc.
  - destruct (closed_children _ _ _ _ _ Ht Ho Hc) as (ts & Hts & Hall).
    rewrite Hts in Hin. simpl in Hin.
    apply list_elem_of_In, list_elem_of_lookup in Hin as [i Hi].
    destruct (Forall2_lookup_r _ _ _ _ _ Hall Hi) as (rc & Hrc & Hcl).
    exists rc. split; [|done]. exists o, cs. split; [done|]. split; [done|].
    by eapply list_elem_of_lookup_2.
  - destruct Ht as [[|k] Hk]; [discriminate|]. simpl in Hk.
    rewrite Ho, Hc in Hk. injection Hk as <-. destruct Hin.
Qed.

Lemma preorder_unfold t :
  preorder t = t :: flat_map preorder (child_list (children t)).
Proof. destruct t as [i n ty c [cs|] p]; reflexivity. Qed.

Lemma preorder_self t : In t (preorder t).
Proof. rewrite preorder_unfold. by left. Qed.

Lemma preorder_children root :
  forall tp c, In tp (preorder root) -> In c (child_list (children tp)) ->
               In c (preorder root).
Proof.
  induction root as [i n ty ct ch p IH] using FileNode_ind. intros tp c.
  rewrite preorder_unfold. cbn [children]. intros [<-|Htp] Hc.
  - right. apply in_flat_map. exists c. split; [exact Hc|apply preorder_self].
  - right. apply in_flat_map in Htp as (k & Hk & Htp). apply in_flat_map.
    exists k. split; [done|]. rewrite List.Forall_forall in IH.
    by apply (IH k Hk tp c).
Qed.

Lemma forest_nodes_children f tp c :
  In tp (forest_nodes f) -> In c (child_list (children tp)) -> In c (forest_nodes f).
Proof.
  unfold forest_nodes. intros (root & Hroot & Htp)%in_flat_map Hc.
  apply in_flat_map. exists root. split; [done|]. by eapply preorder_children.
Qed.

(** Every node below a tree is the tree of an object below its object. *)
Lemma closed_preorder h r t n :
  closed h r t -> In n (preorder t) ->
  exists r', (r' = r \/ below h r r') /\ closed h r' n.
Proof.
  revert r. induction t as [i nm ty ct ch p IH] using FileNode_ind. intros r Ht.
  rewrite preorder_unfold. cbn [children]. intros [<-|Hn].
  { exists r. split; [by left|done]. }
  apply in_flat_map in Hn as (c & Hc & Hn).
  destruct (closed_child _ _ _ c Ht Hc) as (rc & Hrc & Hcl).
  rewrite List.Forall_forall in IH.
  destruct (IH c Hc rc Hcl Hn) as (r' & [->|Hb] & Hr').
  - exists rc. split; [right; by apply below_child|done].
  - exists r'. split; [right; by eapply below_under|done].
Qed.

Lemma forest_node_ref h rs forest n :
  Forall2 (closed h) rs forest -> In n (forest_nodes forest) ->
  exists r, closed h r n.
Proof.
  unfold forest_nodes. intros Hall (root & Hroot & Hn)%in_flat_map.
  apply list_elem_of_In, list_elem_of_lookup in Hroot as [i Hi].
  destruct (Forall2_lookup_r _ _ _ _ _ Hall Hi) as (r & _ & Hcl).
  destruct (closed_preorder _ _ _ _ Hcl Hn) as (r' & _ & Hr'). by exists r'.
Qed.

(** Every object of the heap is a node of the forest. *)
Lemma ref_in_forest h rs forest :
  heap_ordered h ->
  (forall r, r < length h -> r ∈ rs \/ exists p, holds h p r) ->
  Forall2 (closed h) rs forest ->
  forall r, r < length h -> exists t, closed h r t /\ In t (forest_nodes forest).
Proof.
  intros Hord Hatt Hall r. induction r as [r IH] using lt_wf_ind. intros Hr.
  destruct (Hatt r Hr) as [Hin|(p & o & cs & Hp & Hc & Hin)].
  - apply list_elem_of_lookup in Hin as [i Hi].
    destruct (Forall2_lookup_l _ _ _ _ _ Hall Hi) as (t & Ht & Hcl).
    exists t. split; [done|]. unfold forest_nodes. apply in_flat_map.
    exists t. split; [|apply preorder_self].
    apply list_elem_of_In. by eapply list_elem_of_lookup_2.
  - pose proof (Hord p o cs Hp Hc) as Hcs. rewrite Forall_forall in Hcs.
    pose proof (Hcs r Hin) as Hpr.
    destruct (IH p) as (tp & Htp & Hnode); [lia|by eapply lookup_lt_Some|].
    destruct (closed_children _ _ _ _ _ Htp Hp Hc) as (ts & Hts & Hkids).
    apply list_elem_of_lookup in Hin as [i Hi].
    destruct (Forall2_lookup_l _ _ _ _ _ Hkids Hi) as (t & Ht & Hcl).
    exists t. split; [done|]. apply (forest_nodes_children _ tp); [done|].
    rewrite Hts. simpl. apply list_elem_of_In. by eapply list_elem_of_lookup_2.
Qed.

Lemma closed_fun h r t t' :
  heap_ordered h -> closed h r t -> closed h r t' -> t = t'.
Proof.
  intros Hord H H'. apply (closed_reify _ _ _ Hord) in H, H'. congruence.
Qed.

(** ** The final state, line by line *)

Lemma node_lines_contribute text :
  Forall (fun l => contributes l = true) (node_lines text).
Proof.
  apply Forall_forall. intros l Hl. unfold node_lines in Hl.
  by apply list_elem_of_In, filter_In in Hl as [_ Hl].
Qed.

Lemma final_state_node_lines gen text :
  final_state gen text = run_lines gen (node_lines text) init_state.
Proof. unfold final_state, node_lines. apply run_lines_filter. Qed.

Lemma filter_all_true {A} (f : A -> bool) l :
  Forall (fun x => f x = true) l -> List.filter f l = l.
Proof.
  induction 1 as [|x l Hx _ IH]; [done|]. simpl. by rewrite Hx, IH.
Qed.

Lemma run_lines_kinds gen ls r o :
  Forall (fun l => contributes l = true) ls ->
  heap (run_lines gen ls init_state) !! r = Some o ->
  exists line, ls !! r = Some line
               /\ o_type o = if isFolder line (line_name line) then folder else file.
Proof.
  intros Hall Ho.
  destruct (run_lines_invariant gen ls init_state [] invariant_init)
    as (forest & (_ & _ & Hheap) & Hlab).
  rewrite Hheap, (filter_all_true _ _ Hall) in Hlab. simpl in Hlab.
  apply (f_equal (fun l => l !! r)) in Hlab.
  rewrite list_lookup_fmap, Ho, list_lookup_imap in Hlab. simpl in Hlab.
  destruct (ls !! r) as [line|]; [|discriminate]. exists line.
  split; [done|]. simpl in Hlab. by injection Hlab as _ _ -> _.
Qed.

(** Walking up from a line never ends at the first of two folder lines of
    equal depth once the second lies in between. *)
Lemma enclosing_same_depth more l2 l1 above :
  isFolder l2 (line_name l2) = true ->
  (line_depth l1 == line_depth l2)%Q ->
  forall bound, enclosing (more ++ l2 :: l1 :: above) bound <> Some (length above).
Proof.
  intros Hf2 Heq. induction more as [|x more IH]; intros bound.
  - cbn [app enclosing]. rewrite Hf2. cbn [andb length].
    destruct (Qle_bool bound (line_depth l2)) eqn:Hb; cbn [negb].
    + assert (Hb1 : Qle_bool bound (line_depth l1) = true).
      { apply Qle_bool_iff. rewrite Heq. by apply Qle_bool_iff. }
      rewrite Hb1, andb_false_r. intros H%enclosing_lt. lia.
    + intros [= H]. lia.
  - cbn [app enclosing].
    destruct (isFolder x (line_name x) && negb (Qle_bool bound (line_depth x))).
    + intros [= H]. rewrite length_app in H. simpl in H. lia.
    + apply IH.
Qed.

(** ** C2: the same-depth closing rule *)

(** C2, as the code behaves: whatever was read, before the node of a line
    of depth [d] is inserted the frames popped are those on top with a
    depth [>= d], and every frame left has a depth below [d]. And when,
    among the lines that get a node, a folder line [l1] and a later
    folder line [l2] have the same computed depth and [l2] is followed at
    once by a line [l3] of greater computed depth, then in the forest
    that [parseStructure] returns the node of [l3] is the first child of
    the node of [l2] and names it as parent; when [l2] follows [l1] at
    once, the node of [l1] has no child at all; and, no id being drawn
    twice, the node of [l2] is the only node that has the node of [l3]
    among its children, the node of [l3] is no root, and it is not found
    anywhere below the node of [l1]. *)
Theorem same_depth_folder_closes (gen : nat -> jstring) (text : jstring)
    (before mid after : list jstring) (l1 l2 l3 : jstring) :
  node_lines text = before ++ l1 :: mid ++ l2 :: l3 :: after ->
  isFolder l1 (line_name l1) = true -> isFolder l2 (line_name l2) = true ->
  (line_depth l1 == line_depth l2)%Q -> (line_depth l2 < line_depth l3)%Q ->
  (forall k line,
     let s := stack (run_lines gen (take k (input_lines text)) init_state) in
     let d := line_depth line in
     exists popped,
       s = popped ++ pop_frames d s
       /\ Forall (fun f => (d <= depth f)%Q) popped
       /\ Forall (fun f => (depth f < d)%Q) (pop_frames d s))
  /\ let r1 := length before in
     let r2 := S (r1 + length mid) in
     let r3 := S r2 in
     exists forest t1 t2 t3 trest,
       parseStructure gen text = Some forest
       /\ In t1 (forest_nodes forest) /\ In t2 (forest_nodes forest)
       /\ id t1 = gen r1 /\ name t1 = line_name l1
       /\ id t2 = gen r2 /\ name t2 = line_name l2
       /\ id t3 = gen r3 /\ name t3 = line_name l3
       /\ children t2 = Some (t3 :: trest)
       /\ parent t3 = Some (id t2)
       /\ (mid = [] -> children t1 = Some [])
       /\ ((forall a b, gen a = gen b -> a = b) ->
           (forall p c, In p (forest_nodes forest) ->
                        In c (child_list (children p)) -> id c = gen r3 -> p = t2)
           /\ (forall t, In t forest -> id t <> gen r3)
           /\ (forall t n, In t (forest_nodes forest) -> id t = gen r1 ->
                           In n (preorder t) -> id n <> gen r3)).
Proof.
  intros Hlines Hf1 Hf2 Heq Hlt. split.
  { intros k line s d.
    destruct (pop_frames_split d s) as (popped & Hs & Hpop).
    exists popped. split; [done|]. split; [done|].
    apply pop_frames_all_below. apply run_lines_stack_increasing. exact I. }
  intros r1 r2 r3.
  pose proof (node_lines_contribute text) as Hall.
  destruct (parseStructure_invariant gen text) as (forest & Hparse & Hinv & _).
  rewrite final_state_node_lines in Hinv.
  set (ls := node_lines text) in *.
  set (pre := before ++ l1 :: mid).
  assert (Hls : ls = pre ++ l2 :: l3 :: after).
  { rewrite Hlines. unfold pre. by rewrite <- app_assoc. }
  assert (Hpre : length pre = r2).
  { unfold pre, r2, r1. rewrite length_app. simpl. lia. }
  assert (Hl1 : ls !! r1 = Some l1) by (rewrite Hlines; by apply list_lookup_middle).
  assert (Hl2 : ls !! r2 = Some l2) by (rewrite Hls; by apply list_lookup_middle).
  assert (Hl3 : ls !! r3 = Some l3).
  { rewrite Hls, (cons_middle l2), app_assoc.
    apply list_lookup_middle. rewrite length_app. simpl. lia. }
  set (st := run_lines gen ls init_state) in *.
  set (h := heap st).
  destruct (run_lines_enclosing gen ls Hall) as (Hlen & _ & Hobjs).
  fold st h in Hlen, Hobjs.
  pose proof Hinv as (Hord & Hsp & _). fold h in Hord.
  pose proof (spine_close _ _ _ _ Hsp) as Hroots. fold h in Hroots.
  (* what a tree of the forest says of its line *)
  assert (Hobj : forall r t, closed h r t ->
            exists line, ls !! r = Some line /\ id t = gen r
              /\ name t = line_name line
              /\ parent t = gen <$> enclosing (rev (take r ls)) (line_depth line)).
  { intros r t Ht. pose proof (closed_lt _ _ _ Ht) as Hr.
    destruct (lookup_lt_is_Some_2 h r Hr) as [o Ho].
    destruct (closed_obj _ _ _ _ Ht Ho) as (Hn & Hi & Hp).
    destruct (Hobjs r o Ho) as (line & Hline & Hid & Hname & Hpar).
    exists line. split; [done|]. split; [congruence|]. split; congruence. }
  (* the deeper line's node is attached under the second folder *)
  assert (Hatt : attached r2 st).
  { assert (Hprefix : Forall (fun l => contributes l = true) pre).
    { rewrite Hls in Hall. by apply Forall_app in Hall as [H _]. }
    assert (Hc2 : contributes l2 = true).
    { rewrite Forall_forall in Hall. apply Hall.
      by eapply list_elem_of_lookup_2. }
    assert (Hc3 : contributes l3 = true).
    { rewrite Forall_forall in Hall. apply Hall.
      by eapply list_elem_of_lookup_2. }
    destruct (run_lines_invariant gen pre init_state [] invariant_init)
      as (f0 & Hinv0 & _).
    destruct (run_lines_enclosing gen pre Hprefix) as (Hlen0 & _).
    pose proof (two_lines gen _ f0 l2 l3 Hinv0 Hc2 Hc3 Hf2 Hlt) as H3.
    rewrite Hlen0, Hpre in H3.
    destruct (process_line_invariant_any gen _ f0 l2 Hinv0) as [f1 Hinv1].
    destruct (process_line_invariant_any gen _ f1 l3 Hinv1) as [f2 Hinv2].
    unfold st. rewrite Hls.
    change (pre ++ l2 :: l3 :: after) with (pre ++ [l2; l3] ++ after).
    rewrite !run_lines_app.
    apply (run_lines_preserves gen (attached r2)) with (forest := f2);
      [|exact Hinv2|exact H3].
    intros st' forest' line. apply attached_step. }
  unfold attached in Hatt. fold h in Hatt.
  destruct Hatt as (Hlt3 & (o2 & rest & H2 & Hch2) & Huniq & Hres).
  pose proof (final_all_attached gen ls) as Hattached.
  unfold all_attached in Hattached. fold st h in Hattached.
  destruct (ref_in_forest h (result st) forest Hord Hattached Hroots r1)
    as (t1 & Ht1 & Hin1); [lia|].
  destruct (ref_in_forest h (result st) forest Hord Hattached Hroots r2)
    as (t2 & Ht2 & Hin2); [lia|].
  destruct (closed_children _ _ _ _ _ Ht2 H2 Hch2) as (ts & Hts & Hkids).
  inversion Hkids as [|? t3 ? trest Ht3 Hrest]; subst ts.
  destruct (Hobj r1 t1 Ht1) as (? & E1 & Hid1 & Hname1 & _).
  rewrite Hl1 in E1. injection E1 as <-.
  destruct (Hobj r2 t2 Ht2) as (? & E2 & Hid2 & Hname2 & _).
  rewrite Hl2 in E2. injection E2 as <-.
  destruct (Hobj r3 t3 Ht3) as (? & E3 & Hid3 & Hname3 & Hpar3).
  rewrite Hl3 in E3. injection E3 as <-.
  exists forest, t1, t2, t3, trest.
  split; [exact Hparse|]. do 8 (split; [done|]). split; [done|].
  split; [|split].
  - (* the parent named by the deeper line's node *)
    rewrite Hpar3, Hid2. unfold r3.
    assert (Htake : take (S r2) ls = pre ++ [l2]).
    { rewrite Hls, (cons_middle l2), app_assoc.
      apply take_app_length'. rewrite length_app. simpl. lia. }
    rewrite Htake, rev_unit. cbn [enclosing]. rewrite Hf2, length_rev, Hpre.
    assert (Hb : Qle_bool (line_depth l3) (line_depth l2) = false).
    { destruct (Qle_bool (line_depth l3) (line_depth l2)) eqn:E; [|done].
      apply Qle_bool_iff in E. by apply Qlt_not_le in Hlt. }
    by rewrite Hb.
  - (* two folder lines in a row: the first keeps no child *)
    intros Hmid.
    destruct (lookup_lt_is_Some_2 h r1) as [o1 Ho1]; [lia|].
    destruct (run_lines_kinds gen ls r1 o1 Hall Ho1) as (? & E1 & Hty).
    rewrite Hl1 in E1. injection E1 as <-. rewrite Hf1 in Hty.
    pose proof (final_heap_kinds gen ls) as Hok. fold st h in Hok.
    rewrite Forall_forall in Hok.
    destruct (Hok o1) as [_ Hk]; [by eapply list_elem_of_lookup_2|].
    rewrite Hty in Hk. destruct Hk as [_ Hsome].
    destruct (o_children o1) as [cs1|] eqn:Hc1; [|done].
    destruct (closed_children _ _ _ _ _ Ht1 Ho1 Hc1) as (ts1 & Hts1 & Hkids1).
    destruct cs1 as [|c cs1]; [by inversion Hkids1; subst|]. exfalso.
    assert (Hh : holds h r1 c).
    { exists o1, (c :: cs1). split; [done|]. split; [done|]. left. }
    destruct (run_lines_holder gen ls Hall r1 c Hh) as (lc & Hlc & He).
    destruct (holds_deeper gen ls r1 c Hall Hh) as (? & lc' & E1 & Hlc' & Hd).
    rewrite Hl1 in E1. injection E1 as <-.
    rewrite Hlc in Hlc'. injection Hlc' as <-.
    pose proof (Hord r1 o1 _ Ho1 Hc1) as Hcs. rewrite Forall_forall in Hcs.
    pose proof (Hcs c ltac:(left)) as Hc.
    assert (Hr2 : r2 = S r1) by (unfold r2; rewrite Hmid; simpl; lia).
    destruct (decide (c = r2)) as [->|Hne].
    { rewrite Hl2 in Hlc. injection Hlc as <-.
      rewrite Heq in Hd. by apply Qlt_irrefl in Hd. }
    revert He. rewrite Hlines, Hmid. cbn [app].
    replace (before ++ l1 :: l2 :: l3 :: after)
      with ((before ++ [l1; l2]) ++ l3 :: after) by (by rewrite <- app_assoc).
    rewrite take_app_ge by (rewrite length_app; simpl; fold r1; lia).
    rewrite rev_app_distr, rev_app_distr. cbn [rev app].
    unfold r1. rewrite <- (length_rev before).
    by apply enclosing_same_depth.
  - intros Hinj.
    assert (Hid : forall r t, closed h r t -> id t = gen r).
    { intros r t Ht. by destruct (Hobj r t Ht) as (_ & _ & -> & _). }
    split; [|split].
    + intros p c Hp Hc Hidc.
      destruct (forest_node_ref _ _ _ _ Hroots Hp) as (rp & Hrp).
      destruct (closed_child _ _ _ _ Hrp Hc) as (rc & Hh & Hrc).
      rewrite (Hid _ _ Hrc) in Hidc. apply Hinj in Hidc as ->.
      apply Huniq in Hh as ->. by eapply closed_fun.
    + intros t Ht Hidt.
      apply list_elem_of_In, list_elem_of_lookup in Ht as [i Hi].
      destruct (Forall2_lookup_r _ _ _ _ _ Hroots Hi) as (r & Hr & Hcl).
      rewrite (Hid _ _ Hcl) in Hidt. apply Hinj in Hidt as ->.
      apply Hres. by eapply list_elem_of_lookup_2.
    + intros t n Ht Hidt Hn Hidn.
      destruct (forest_node_ref _ _ _ _ Hroots Ht) as (rt & Hrt).
      rewrite (Hid _ _ Hrt) in Hidt. apply Hinj in Hidt as ->.
      destruct (closed_preorder _ _ _ _ Hrt Hn) as (r' & Hr' & Hcl).
      rewrite (Hid _ _ Hcl) in Hidn. apply Hinj in Hidn as ->.
      assert (Hb2 : ~ below h r1 r2).
      { intros Hb. destruct (below_deeper gen ls r1 r2 Hall Hb)
          as (? & ? & E1 & E2 & Hd).
        rewrite Hl1 in E1. injection E1 as <-.
        rewrite Hl2 in E2. injection E2 as <-.
        rewrite Heq in Hd. by apply Qlt_irrefl in Hd. }
      destruct Hr' as [E|Hb]; [unfold r3, r2 in E; lia|].
      inversion Hb as [c Hh|p c Hbp Hh]; subst.
      * apply Huniq in Hh. unfold r2 in Hh. lia.
      * apply Huniq in Hh as ->. by apply Hb2.
Qed.

Lemma same_depth_folder_closes_witness :
  (exists forest t1 t2 t3 trest,
     parseStructure sample_gen two_folders = Some forest
     /\ In t1 (forest_nodes forest) /\ In t2 (forest_nodes forest)
     /\ name t1 = u "a" /\ name t2 = u "b" /\ name t3 = u "c.py"
     /\ children t1 = Some [] /\ children t2 = Some (t3 :: trest)
     /\ parent t3 = Some (id t2))
  /\ (exists forest t1 t2 t3 trest,
        parseStructure sample_gen two_folders_apart = Some forest
        /\ In t1 (forest_nodes forest) /\ In t2 (forest_nodes forest)
        /\ name t1 = u "a" /\ name t2 = u "b" /\ name t3 = u "c.py"
        /\ children t2 = Some (t3 :: trest)
        /\ parent t3 = Some (id t2)).
Proof.
  split.
  - destruct (same_depth_folder_closes sample_gen two_folders [] [] []
                (u " a/") (u " b/") (u "     c.py"))
      as [_ (forest & t1 & t2 & t3 & trest & Hp & H1 & H2 & _ & Hn1 & _ & Hn2
             & _ & Hn3 & Hc2 & Hp3 & Hc1 & _)];
      try reflexivity.
    exists forest, t1, t2, t3, trest.
    exact (conj Hp (conj H1 (conj H2 (conj Hn1 (conj Hn2 (conj Hn3
             (conj (Hc1 eq_refl) (conj Hc2 Hp3)))))))).
  - destruct (same_depth_folder_closes sample_gen two_folders_apart []
                [u "     x.py"] [] (u " a/") (u " b/") (u "     c.py"))
      as [_ (forest & t1 & t2 & t3 & trest & Hp & H1 & H2 & _ & Hn1 & _ & Hn2
             & _ & Hn3 & Hc2 & Hp3 & _)];
      try reflexivity.
    exists forest, t1, t2, t3, trest.
    exact (conj Hp (conj H1 (conj H2 (conj Hn1 (conj Hn2 (conj Hn3
             (conj Hc2 Hp3))))))).
Defined.

(** C2 fails as stated. Folder lines without indentation are skipped as
    root labels: of [a/], [b/], [    c.py] only the last gets a node,
    which is a root; and of the [tree] listing [├── app/], [│   ├── a/],
    [│   ├── b/], [│   │   └── c.py] the two inner folder lines, which
    begin with [│], are skipped too, so that [c.py] lands in [app]. And
    equal indentation is not equal depth: in [ a/], [ b/  ], [  c.py] the
    white space after [b/] counts in the depth of its line, [b] becomes a
    child of [a], and the deeper-indented [c.py] is attached to the first
    folder [a], not to the second. *)
Lemma equal_indentation_does_not_close :
  (map contributes (input_lines flat_folders) = [false; false; true]
   /\ exists c, parseStructure sample_gen flat_folders = Some [c]
        /\ name c = u "c.py" /\ parent c = None)
  /\ (map contributes (input_lines boxed_folders) = [true; false; false; true]
      /\ exists app c, parseStructure sample_gen boxed_folders = Some [app]
           /\ name app = u "app" /\ children app = Some [c]
           /\ name c = u "c.py" /\ parent c = Some (id app))
  /\ (map line_depth (input_lines trailing_space_folders) = [1 # 4; 3 # 4; 2 # 4]%Q
      /\ exists a b c, parseStructure sample_gen trailing_space_folders = Some [a]
           /\ name a = u "a" /\ children a = Some [b; c]
           /\ name b = u "b" /\ children b = Some []
           /\ name c = u "c.py" /\ parent c = Some (id a)).
Proof.
  split; [|split].
  - split; [reflexivity|]. eexists. split; [vm_compute; reflexivity|].
    split; reflexivity.
  - split; [reflexivity|]. do 2 eexists. split; [vm_compute; reflexivity|].
    repeat split.
  - split; [reflexivity|]. do 3 eexists. split; [vm_compute; reflexivity|].
    repeat split.
Qed.

(** * The ids of a parsed forest *)

Lemma map_imap_seq {A B C} (g : B -> C) (gen : nat -> C) (l : list A) :
  forall (f : nat -> A -> B) j,
    (forall k x, g (f k x) = gen (j + k)) ->
    map g (imap f l) = map gen (seq j (length l)).
Proof.
  induction l as [|x l IH]; intros f j H; [done|].
  simpl. rewrite H, Nat.add_0_r. f_equal.
  apply IH. intros k y. simpl. rewrite H. f_equal. lia.
Qed.

Lemma NoDup_map_inj {A B} (f : A -> B) l :
  (forall a b, f a = f b -> a = b) -> NoDup l -> NoDup (map f l).
Proof.
  intros Hinj. induction 1 as [|x l Hx _ IH]; simpl; constructor; [|done].
  rewrite list_elem_of_In, in_map_iff. intros (y & Hy & Hin).
  apply Hinj in Hy as ->. by apply Hx, list_elem_of_In.
Qed.

(** X28: the ids of the parsed forest, read in pre-order, are the ids
    drawn for the lines that get a node, in the order of the lines; so they
    are pairwise different whenever no id is drawn twice. *)
Theorem parsed_ids_are_the_drawn_ids (gen : nat -> jstring) (text : jstring) :
  exists forest,
    parseStructure gen text = Some forest
    /\ forest_ids forest = map gen (seq 0 (length (node_lines text)))
    /\ ((forall a b, gen a = gen b -> a = b) -> NoDup (forest_ids forest)).
Proof.
  destruct (parseStructure_invariant gen text) as (forest & Hp & _ & Hlab).
  exists forest. split; [exact Hp|].
  assert (Hids : forest_ids forest = map gen (seq 0 (length (node_lines text)))).
  { rewrite <- forest_ids_nodes.
    apply (f_equal (map (fun l : label => l.1.1.1))) in Hlab.
    unfold forest_labels in Hlab. rewrite map_map in Hlab. simpl in Hlab.
    etransitivity; [exact Hlab|]. by apply map_imap_seq. }
  split; [exact Hids|]. intros Hinj. rewrite Hids.
  apply NoDup_map_inj; [exact Hinj|apply NoDup_ListNoDup, seq_NoDup].
Qed.
